(** * File-based replay cache, version 2 (lib/krb5/rcache/rc_file2.c)

    A shallow embedding of the on-disk hash table of rc_file2.c: the table
    geometry ([next_table]), the record marshalling ([read_records],
    [write_record]), the insertion loop ([store]) and the public entry point
    ([k5_rcfile2_store]), over an explicit model of the file descriptor. *)

From Stdlib Require Import ZArith List Lia Bool.
From Stdlib Require Import Strings.Byte.
Import ListNotations.
Open Scope Z_scope.

(** ** Constants of the translation unit *)

Definition INT32_MAX : Z := 2147483647.
Definition UINT32_MAX : Z := 4294967295.

Definition MAX_SIZE : Z := INT32_MAX.
Definition TAG_LEN : Z := 12.
Definition RECORD_LEN : Z := TAG_LEN + 4.
Definition FIRST_TABLE_RECORDS : Z := 1023.

(** Error codes.  The errno values are those of <errno.h> on Linux and
    KRB5KRB_AP_ERR_REPEAT is entry 34 of the krb5 error table; the code only
    relies on them being non-zero. *)
Definition EIO : Z := 5.
Definition EINVAL : Z := 22.
Definition EOVERFLOW : Z := 75.
Definition KRB5KRB_AP_ERR_REPEAT : Z := -1765328350.

(** ** Bytes and C buffers *)

Definition byte_to_Z (b : byte) : Z := Z.of_N (Byte.to_N b).

Definition byte_of_Z (z : Z) : byte :=
  match Byte.of_N (Z.to_N (z mod 256)) with
  | Some b => b
  | None => x00
  end.

(** [memcmp(a, b, n)]: zero when the first [n] bytes agree, otherwise the
    difference of the first pair of bytes that differ. *)
Fixpoint memcmp (a b : list byte) (n : nat) {struct n} : Z :=
  match n, a, b with
  | S n', x :: a', y :: b' =>
      if Byte.eqb x y then memcmp a' b' n' else byte_to_Z x - byte_to_Z y
  | _, _, _ => 0
  end.

(** Modelled from the spec: [store_32_be] and [load_32_be] are inline helpers
    of k5-platform.h, which is not among the sources.  Section 3 and 4.1: the
    timestamp is a 4-byte unsigned value, big-endian on the wire. *)
Definition store_32_be (val : Z) : list byte :=
  [ byte_of_Z (Z.land (Z.shiftr val 24) 255);
    byte_of_Z (Z.land (Z.shiftr val 16) 255);
    byte_of_Z (Z.land (Z.shiftr val 8) 255);
    byte_of_Z (Z.land val 255) ].

Definition load_32_be (p : list byte) : Z :=
  match p with
  | b0 :: b1 :: b2 :: b3 :: _ =>
      Z.lor (Z.shiftl (byte_to_Z b0) 24)
        (Z.lor (Z.shiftl (byte_to_Z b1) 16)
           (Z.lor (Z.shiftl (byte_to_Z b2) 8) (byte_to_Z b3)))
  | _ => 0
  end.

(** Modelled from the spec: [ts_incr] and [ts_after] are inline helpers of
    k5-int.h, which is not among the sources.  Section 6 asks for a
    "timestamp plus skew is before now" comparator whose addition is safe
    against overflow and does not wrap around near the maximum timestamp:
    the sum saturates at the largest unsigned 32-bit value and the comparison
    is on unsigned values. *)
Definition ts_incr (ts delta : Z) : Z := Z.min (ts + delta) UINT32_MAX.
Definition ts_after (a b : Z) : bool := b <? a.

(** ** The file descriptor and the calls made on it

    [store] works on one descriptor of a regular file.  The world holds the
    bytes of that file, the offset of the descriptor, the C variable [errno],
    what is decided for each forthcoming call and the calls made so far.
    A forthcoming call completes, or fails with a positive errno, or -- a
    [write] alone -- is cut short: it transfers no more than the first [n]
    bytes it was given and returns their number. *)

Inductive call : Type :=
| Call_lseek (offset : Z)
| Call_read (count : Z)
| Call_write (buf : list byte)
| Call_random (len : Z)
| Call_timeofday
| Call_lock
| Call_unlock.

(** What can be decided for a call other than its completion: the errno it
    fails with, or the number of bytes at which a [write] is cut short.  A
    call other than [write] for which [Short] is decided completes. *)
Inductive failure : Type :=
| Errno (e : positive)
| Short (n : nat).

Record world : Type := mkWorld {
  contents : list byte;
  pos : Z;
  errno : Z;
  faults : list (option failure);
  trace : list call
}.

(** A small state monad over the world. *)
Definition M (A : Type) : Type := world -> A * world.

Definition mret {A : Type} (a : A) : M A := fun w => (a, w).

Definition mbind {A B : Type} (m : M A) (k : A -> M B) : M B :=
  fun w => let (a, w') := m w in k a w'.

Notation "x <- m ;; k" := (mbind m (fun x => k))
  (at level 61, m at next level, right associativity).
Notation "' p <- m ;; k" := (mbind m (fun x => let p := x in k))
  (at level 61, p pattern, m at next level, right associativity).

(** Entering a call: it is recorded and the outcome decided for it is taken. *)
Definition enter (c : call) : M (option failure) := fun w =>
  match faults w with
  | [] => (None, mkWorld (contents w) (pos w) (errno w) [] (c :: trace w))
  | f :: fs => (f, mkWorld (contents w) (pos w) (errno w) fs (c :: trace w))
  end.

Definition set_errno (e : Z) : M unit := fun w =>
  (tt, mkWorld (contents w) (pos w) e (faults w) (trace w)).

Definition get_errno : M Z := fun w => (errno w, w).

(** Bytes of a file: [file_read c off n] are the at most [n] bytes found from
    offset [off]; [file_write c off d] puts [d] at offset [off], a hole
    between the old end of file and [off] reading as zero bytes. *)
Definition file_read (c : list byte) (off n : nat) : list byte :=
  firstn n (skipn off c).

Definition file_write (c : list byte) (off : nat) (d : list byte) : list byte :=
  firstn off c ++ repeat x00 (off - length c) ++ d ++ skipn (off + length d) c.

(** The file after the bytes [d] have been transferred at offset [off]:
    it is as it was when no byte is transferred. *)
Definition file_put (c : list byte) (off : nat) (d : list byte) : list byte :=
  match d with
  | [] => c
  | _ :: _ => file_write c off d
  end.

(** The bytes of [buf] that a [write] transfers. *)
Definition transferred (f : option failure) (buf : list byte) : list byte :=
  match f with
  | Some (Short n) => firstn n buf
  | _ => buf
  end.

(** [lseek(fd, offset, SEEK_SET)]. *)
Definition lseek (offset : Z) : M Z :=
  f <- enter (Call_lseek offset) ;;
  match f with
  | Some (Errno e) => _ <- set_errno (Zpos e) ;; mret (-1)
  | _ =>
      if offset <? 0 then _ <- set_errno EINVAL ;; mret (-1)
      else fun w =>
        (offset, mkWorld (contents w) offset (errno w) (faults w) (trace w))
  end.

(** [read(fd, buf, count)]: the count returned and the bytes placed at the
    start of [buf].  Fewer than [count] bytes come back at the end of the
    file; that is not a failure. *)
Definition read (count : Z) : M (Z * list byte) :=
  f <- enter (Call_read count) ;;
  match f with
  | Some (Errno e) => _ <- set_errno (Zpos e) ;; mret (-1, [])
  | _ => fun w =>
      let d := file_read (contents w) (Z.to_nat (pos w)) (Z.to_nat count) in
      let st := Z.of_nat (length d) in
      ((st, d),
       mkWorld (contents w) (pos w + st) (errno w) (faults w) (trace w))
  end.

(** [write(fd, buf, count)] with [buf] holding [count] bytes: it fails, or
    transfers all the bytes, or is cut short and transfers the first of
    them only; it returns the number of bytes transferred. *)
Definition write (buf : list byte) : M Z :=
  f <- enter (Call_write buf) ;;
  match f with
  | Some (Errno e) => _ <- set_errno (Zpos e) ;; mret (-1)
  | _ => fun w =>
      let d := transferred f buf in
      let st := Z.of_nat (length d) in
      (st,
       mkWorld (file_put (contents w) (Z.to_nat (pos w)) d)
         (pos w + st) (errno w) (faults w) (trace w))
  end.

(** ** Collaborators outside this file

    [krb5_c_random_make_octets], [krb5_timeofday], [krb5_lock_file] and
    [krb5_unlock_file] belong to other parts of the library.  Each either
    fails with the error decided for the call or completes; the bytes of the
    random generator and the clock are read from the context. *)

Record krb5_context : Type := mkContext {
  clockskew : Z;            (* krb5_deltat *)
  os_clock : Z;             (* krb5_timestamp returned by krb5_timeofday *)
  prng : nat -> byte        (* output of the random generator *)
}.

Definition krb5_c_random_make_octets (context : krb5_context) (len : Z)
  : M (Z * list byte) :=
  f <- enter (Call_random len) ;;
  match f with
  | Some (Errno e) => mret (Zpos e, [])
  | _ => mret (0, map (prng context) (seq 0 (Z.to_nat len)))
  end.

Definition krb5_timeofday (context : krb5_context) : M (Z * Z) :=
  f <- enter Call_timeofday ;;
  match f with
  | Some (Errno e) => mret (Zpos e, 0)
  | _ => mret (0, os_clock context)
  end.

Definition krb5_lock_file : M Z :=
  f <- enter Call_lock ;;
  match f with
  | Some (Errno e) => mret (Zpos e)
  | _ => mret 0
  end.

Definition krb5_unlock_file : M Z :=
  f <- enter Call_unlock ;;
  match f with
  | Some (Errno e) => mret (Zpos e)
  | _ => mret 0
  end.

(** ** Records on disk *)

(** The out-parameters of [read_records]: what the locals [rec1_tag],
    [rec1_stamp], [rec2_tag] and [rec2_stamp] of [store] hold.  A call that
    reads fewer than two records leaves the others as they were. *)
Record records : Type := mkRecords {
  rec1_tag : list byte;
  rec1_stamp : Z;
  rec2_tag : list byte;
  rec2_stamp : Z
}.

(** Lines 90-99 of [read_records]: the records parsed out of the [st] bytes
    read into [buf]. *)
Definition parse_records (st : Z) (buf : list byte) (out : records)
    (nread : Z) : records * Z :=
  let '(out, nread) :=
    if st >=? RECORD_LEN then
      (mkRecords (firstn (Z.to_nat TAG_LEN) buf)
         (load_32_be (skipn (Z.to_nat TAG_LEN) buf))
         (rec2_tag out) (rec2_stamp out), 1)
    else (out, nread) in
  if st =? RECORD_LEN * 2 then
    (mkRecords (rec1_tag out) (rec1_stamp out)
       (firstn (Z.to_nat TAG_LEN) (skipn (Z.to_nat RECORD_LEN) buf))
       (load_32_be (skipn (Z.to_nat (RECORD_LEN + TAG_LEN)) buf)), 2)
  else (out, nread).

(** [read_records(fd, offset, tag1_out, timestamp1_out, tag2_out,
    timestamp2_out, nread)]: the error code, the out-parameters and
    [*nread]. *)
Definition read_records (offset : Z) (out : records) : M (Z * records * Z) :=
  let nread := 0 in
  st <- lseek offset ;;
  if st =? -1 then e <- get_errno ;; mret (e, out, nread) else
  '(st, buf) <- read (RECORD_LEN * 2) ;;
  if st =? -1 then e <- get_errno ;; mret (e, out, nread) else
  let '(out, nread) := parse_records st buf out nread in
  mret (0, out, nread).

(** The 16 bytes that [write_record] marshals into its local [record]. *)
Definition marshal_record (tag : list byte) (timestamp : Z) : list byte :=
  firstn (Z.to_nat TAG_LEN) tag ++ store_32_be timestamp.

(** [write_record(fd, offset, tag, timestamp)]. *)
Definition write_record (offset : Z) (tag : list byte) (timestamp : Z) : M Z :=
  let record := marshal_record tag timestamp in
  st <- lseek offset ;;
  if st =? -1 then get_errno else
  st <- write record ;;
  if st =? -1 then get_errno else
  if negb (st =? RECORD_LEN) then mret EIO else
  mret 0.

(** ** Sample inputs

    Concrete values at which the properties are exercised, all for a seed
    of 16 bytes: a toy keyed hash that adds the first byte of the data and
    the first byte of the seed, a context with a skew of 300 seconds whose
    random generator returns the bytes 1, 2, 3, ..., two tags, and the
    descriptor of a file just created. *)

Definition sample_siphash (data seed : list byte) : Z :=
  byte_to_Z (hd x00 data) + byte_to_Z (hd x00 seed).

Definition sample_context : krb5_context :=
  mkContext 300 1000 (fun i => byte_of_Z (Z.of_nat i + 1)).

Definition sample_seed : list byte :=
  map (prng sample_context) (seq 0 16).

Definition sample_tag : list byte :=
  [x41; x42; x43; x44; x45; x46; x47; x48; x49; x4a; x4b; x4c].

Definition other_tag : list byte :=
  [x5a; x59; x58; x57; x56; x55; x54; x53; x52; x51; x50; x4f].

Definition sample_junk : records := mkRecords [] 0 [] 0.

Definition new_file : world := mkWorld [] 0 0 [] [].

(** A descriptor newly opened on the file [w] left. *)
Definition reopen (w : world) : world := mkWorld (contents w) 0 0 [] [].

(** The descriptor, once the seed has been read, of a file holding the
    sample seed alone, and of a file holding the seed and a record of the
    sample tag at index 66 of the first table (offset 1072). *)
Definition seeded_file : world := mkWorld sample_seed 16 0 [] [].

Definition sample_cache : world :=
  mkWorld (sample_seed ++ repeat x00 1056 ++ sample_tag ++ store_32_be 1000)
    16 0 [] [].

(** ** Table geometry *)

Section Model.

(** [K5_HASH_SEED_LEN] is defined in k5-hashtab.h, which is not among the
    sources; it is kept as a parameter. *)
Variable K5_HASH_SEED_LEN : Z.

(** [next_table(&offset, &nrecords)]: the returned triple is the error code
    and the values left in [*offset] and [*nrecords].  The [off_t] values are
    integers here; the C arithmetic agrees with them as long as every value
    that a call computes fits [off_t].  [next_table_values] below lists these
    values; each of them fits 32 bits over the calls that [store] makes from
    the sentinel, at most 18 when the seed has at most 16399 bytes (see
    [next_table_values_fit]). *)
Definition next_table (offset nrecords : Z) : Z * Z * Z :=
  let '(offset, nrecords) :=
    if offset =? -1 then
      (K5_HASH_SEED_LEN, FIRST_TABLE_RECORDS)
    else if offset =? K5_HASH_SEED_LEN then
      (offset + nrecords * RECORD_LEN, (FIRST_TABLE_RECORDS + 1) * 2)
    else
      (offset + nrecords * RECORD_LEN, nrecords * 2) in
  if nrecords >? MAX_SIZE / RECORD_LEN then (EOVERFLOW, offset, nrecords)
  else if offset >? MAX_SIZE - nrecords * RECORD_LEN then
    (EOVERFLOW, offset, nrecords)
  else (0, offset, nrecords).



(** The state of the generator after [n] successive calls, starting from the
    sentinel [*offset = -1] (and [nrecords = 0], as [store] initialises it). *)
Fixpoint table_after (n : nat) : Z * Z * Z :=
  match n with
  | O => (0, -1, 0)
  | S n' => let '(_, offset, nrecords) := table_after n' in
            next_table offset nrecords
  end.

(** The closed form of the specification: level 0 holds 1023 records, level
    1 holds 2048, and each later level twice the one before; a level starts
    where the previous one ends. *)
Fixpoint level_capacity (n : nat) : Z :=
  match n with
  | O => 1023
  | S O => 2048
  | S n' => 2 * level_capacity n'
  end.

Fixpoint level_offset (n : nat) : Z :=
  match n with
  | O => K5_HASH_SEED_LEN
  | S n' => level_offset n' + level_capacity n' * RECORD_LEN
  end.

Definition level_fits (n : nat) : bool :=
  (level_capacity n * RECORD_LEN <=? MAX_SIZE)
  && (level_offset n + level_capacity n * RECORD_LEN <=? MAX_SIZE).

(** [k5_siphash24(data, len, seed)] is defined in another translation unit
    (k5-hashtab.h declares it); it returns a [uint64_t].  It is kept as a
    parameter over the bytes hashed and the seed, and read modulo 2^64. *)
Variable k5_siphash24 : list byte -> list byte -> Z.

(** ** The insertion loop *)

(** The locals of [store] that live across iterations of its loop. *)
Record loop_state : Type := mkLoop {
  table_offset : Z;
  nrecords : Z;
  avail_offset : Z;
  seed : list byte;
  recs : records
}.

Inductive outcome : Type :=
| Return (ret : Z)
| Continue (s : loop_state).

(** [seed[0]++] on a [uint8_t]. *)
Definition seed_incr (seed : list byte) : list byte :=
  match seed with
  | b :: rest => byte_of_Z (byte_to_Z b + 1) :: rest
  | [] => []
  end.

(** Lines 173-178: the slot kept for the new record. *)
Definition choose_avail (avail_offset record_offset nread : Z) (r : records)
    (now skew : Z) : Z :=
  if avail_offset =? -1 then
    if (nread =? 0) || ts_after now (ts_incr (rec1_stamp r) skew) then
      record_offset
    else if (nread =? 1) || ts_after now (ts_incr (rec2_stamp r) skew) then
      record_offset + RECORD_LEN
    else avail_offset
  else avail_offset.

(** Lines 169-170: the test for a replay. *)
Definition is_repeat (nread : Z) (r : records) (tag : list byte) : bool :=
  ((nread >=? 1) && (memcmp (rec1_tag r) tag (Z.to_nat TAG_LEN) =? 0))
  || ((nread =? 2) && (memcmp (rec2_tag r) tag (Z.to_nat TAG_LEN) =? 0)).

(** Line 180: the test that ends the search. *)
Definition is_last (nread : Z) (r : records) : bool :=
  (nread <? 2) || (rec1_stamp r =? 0) || (rec2_stamp r =? 0).

(** One iteration of the [for (;;)] loop of [store].  [ind] is an [int]:
    the remainder of the 64-bit hash by [nrecords] is below 2^27 and neither
    it nor [ind * RECORD_LEN] overflows (see [record_index_fits]). *)
Definition store_body (tag : list byte) (now skew : Z) (s : loop_state)
  : M outcome :=
  let '(ret, table_offset, nrecords) :=
    next_table (table_offset s) (nrecords s) in
  if negb (ret =? 0) then mret (Return ret) else
  let ind :=
    (k5_siphash24 (firstn (Z.to_nat TAG_LEN) tag) (seed s) mod 2 ^ 64)
      mod nrecords in
  let record_offset := table_offset + ind * RECORD_LEN in
  '(ret, r, nread) <- read_records record_offset (recs s) ;;
  if negb (ret =? 0) then mret (Return ret) else
  if is_repeat nread r tag then mret (Return KRB5KRB_AP_ERR_REPEAT) else
  let avail_offset :=
    choose_avail (avail_offset s) record_offset nread r now skew in
  if is_last nread r then
    ret <- write_record avail_offset tag now ;; mret (Return ret)
  else
    mret (Continue
            (mkLoop table_offset nrecords avail_offset (seed_incr (seed s)) r)).

(** The loop, unrolled at most [fuel] times; [None] stands for a loop still
    running after [fuel] iterations. *)
Fixpoint store_loop (fuel : nat) (tag : list byte) (now skew : Z)
    (s : loop_state) : M (option Z) :=
  match fuel with
  | O => mret None
  | S fuel' =>
      o <- store_body tag now skew s ;;
      match o with
      | Return ret => mret (Some ret)
      | Continue s' => store_loop fuel' tag now skew s'
      end
  end.

(** Lines 140-154: read or generate the hash seed. *)
Definition store_seed (context : krb5_context) : M (Z * list byte) :=
  '(st, seed) <- read K5_HASH_SEED_LEN ;;
  if st <? 0 then e <- get_errno ;; mret (e, seed) else
  if st <? K5_HASH_SEED_LEN then
    '(ret, seed) <- krb5_c_random_make_octets context K5_HASH_SEED_LEN ;;
    if negb (ret =? 0) then mret (ret, seed) else
    st <- write seed ;;
    if st <? 0 then e <- get_errno ;; mret (e, seed) else
    if negb (st =? K5_HASH_SEED_LEN) then mret (EIO, seed) else
    mret (0, seed)
  else mret (0, seed).

(** No more than [table_bound] tables fit below [MAX_SIZE] (see
    [store_loop_returns]); the loop is unrolled that many times. *)
Definition table_bound : nat := 32.

(** [store(context, fd, tag, now, skew)].  [junk] is what the uninitialised
    locals [rec1_tag], [rec1_stamp], [rec2_tag], [rec2_stamp] hold on entry. *)
Definition store (context : krb5_context) (junk : records) (tag : list byte)
    (now skew : Z) : M (option Z) :=
  '(ret, seed) <- store_seed context ;;
  if negb (ret =? 0) then mret (Some ret) else
  store_loop table_bound tag now skew (mkLoop (-1) 0 (-1) seed junk).

(** The states in which the loop of [store] is entered: the first time with
    the initial values of the locals, and again after each iteration that
    did not return. *)
Inductive reached (tag : list byte) (now skew : Z)
  : loop_state -> world -> Prop :=
| reached_first (seed : list byte) (junk : records) (w : world) :
    reached tag now skew (mkLoop (-1) 0 (-1) seed junk) w
| reached_next (s s' : loop_state) (w w' : world) :
    reached tag now skew s w ->
    store_body tag now skew s w = (Continue s', w') ->
    reached tag now skew s' w'.

(** A descriptor on a file just created by [open(O_CREAT)]: the file is
    empty, the offset is 0 and no call is going to fail. *)
Definition new_cache (w : world) : Prop :=
  contents w = [] /\ pos w = 0 /\ faults w = [].

(** A descriptor opened later on the file that [w] left, on which no call
    is going to fail. *)
Definition reopened (w w' : world) : Prop :=
  contents w' = contents w /\ pos w' = 0 /\ faults w' = [].

(** ** The entry point *)

(** [krb5_donot_replay], of which only the tag is used: a [krb5_data] whose
    [length] is the length of the list. *)
Record krb5_donot_replay : Type := mkReplay { tag : list byte }.

(** Lines 202-207: the local [tag] after the copy. *)
Definition copy_tag (data : list byte) : list byte :=
  let len := Z.of_nat (length data) in
  if len >=? TAG_LEN then
    firstn (Z.to_nat TAG_LEN) data
  else
    firstn (Z.to_nat len) data ++ repeat x00 (Z.to_nat (TAG_LEN - len)).

(** [k5_rcfile2_store(context, fd, rep)].  [now] and [context->clockskew] are
    signed 32-bit values converted to the [uint32_t] parameters of [store]. *)
Definition k5_rcfile2_store (context : krb5_context) (junk : records)
    (rep : krb5_donot_replay) : M (option Z) :=
  if Z.of_nat (length (tag rep)) =? 0 then mret (Some EINVAL) else
  '(ret, now) <- krb5_timeofday context ;;
  if negb (ret =? 0) then mret (Some ret) else
  let tag := copy_tag (tag rep) in
  ret <- krb5_lock_file ;;
  if negb (ret =? 0) then mret (Some ret) else
  ret <- store context junk tag (now mod 2 ^ 32)
           (clockskew context mod 2 ^ 32) ;;
  _ <- krb5_unlock_file ;;
  mret ret.

(** ** The cache by name *)

(** The regular files that exist, each with its name and its bytes. *)
Definition directory : Type := list (list byte * list byte).

Fixpoint name_eqb (a b : list byte) : bool :=
  match a, b with
  | [], [] => true
  | x :: a', y :: b' => Byte.eqb x y && name_eqb a' b'
  | _, _ => false
  end.

Fixpoint lookup_file (filename : list byte) (d : directory)
  : option (list byte) :=
  match d with
  | [] => None
  | (n, c) :: d' =>
      if name_eqb filename n then Some c else lookup_file filename d'
  end.

Fixpoint update_file (filename c : list byte) (d : directory) : directory :=
  match d with
  | [] => [(filename, c)]
  | (n, c0) :: d' =>
      if name_eqb filename n then (n, c) :: d'
      else (n, c0) :: update_file filename c d'
  end.

(** What the process holds while no descriptor is open: the files, [errno],
    the outcomes decided for the forthcoming calls and the calls made on
    descriptors so far. *)
Record process : Type := mkProcess {
  files : directory;
  proc_errno : Z;
  proc_faults : list (option failure);
  proc_trace : list call
}.

(** [file2_store(context, rc, rep)], with [rc->data] the name [filename].
    [open(filename, O_CREAT | O_RDWR | O_BINARY, 0600)] takes the outcome
    decided for it: it fails with its errno, or returns a descriptor at
    offset 0 of the file of that name, created empty when there was none.
    The bytes written through the descriptor are those of the file when
    [close] returns; what [close] returns is not looked at.  The message
    that [k5_setmsg] leaves in the context is not part of
    [krb5_context]. *)
Definition file2_store (context : krb5_context) (junk : records)
    (filename : list byte) (rep : krb5_donot_replay) (p : process)
  : option Z * process :=
  match proc_faults p with
  | Some (Errno e) :: fs =>
      (Some (Zpos e), mkProcess (files p) (Zpos e) fs (proc_trace p))
  | fs0 =>
      let c :=
        match lookup_file filename (files p) with
        | Some c => c
        | None => []
        end in
      let fd := mkWorld c 0 (proc_errno p) (tl fs0) (proc_trace p) in
      let (ret, fd') := k5_rcfile2_store context junk rep fd in
      (ret,
       mkProcess (update_file filename (contents fd') (files p)) (errno fd')
         (faults fd') (trace fd'))
  end.

(** ** Predicates used to state the properties *)

(** [hoare P m Q]: run from a world satisfying [P], the computation [m]
    returns a value and leaves a world related by [Q]. *)
Definition hoare {A : Type} (P : world -> Prop) (m : M A)
    (Q : A -> world -> Prop) : Prop :=
  forall w, P w -> Q (fst (m w)) (snd (m w)).

(** The error code of [next_table] for the table it has computed. *)
Definition table_code (offset nrecords : Z) : Z :=
  if (nrecords * RECORD_LEN <=? MAX_SIZE)
     && (offset + nrecords * RECORD_LEN <=? MAX_SIZE)
  then 0 else EOVERFLOW.

(** The offsets at which a record can start: the seed length plus a
    multiple of the record length. *)
Definition slot_offset (a : Z) : Prop :=
  exists k, 0 <= k /\ a = K5_HASH_SEED_LEN + RECORD_LEN * k.

(** What holds of the locals each time the loop of [store] is entered: the
    table is the sentinel or one of the levels, and [avail_offset] is unset
    or a slot offset. *)
Definition loop_inv (s : loop_state) : Prop :=
  (table_offset s = -1
   \/ exists n, table_offset s = level_offset n
                /\ nrecords s = level_capacity n)
  /\ (avail_offset s = -1 \/ slot_offset (avail_offset s)).

(** An iteration that goes on to the next table, from [s] to [s']. *)
Definition continue_rel (s s' : loop_state) : Prop :=
  next_table (table_offset s) (nrecords s)
  = (0, table_offset s', nrecords s')
  /\ (avail_offset s <> -1 -> avail_offset s' = avail_offset s)
  /\ (avail_offset s = -1 ->
      avail_offset s' = -1
      \/ exists i, avail_offset s' = table_offset s' + RECORD_LEN * i
                   /\ (0 < nrecords s' -> 0 <= i)).

(** An iteration that ends with a successful [write_record] at [a]. *)
Definition return_rel (s : loop_state) (a : Z) : Prop :=
  exists offset n,
    next_table (table_offset s) (nrecords s) = (0, offset, n)
    /\ 0 <= a
    /\ (avail_offset s <> -1 -> a = avail_offset s)
    /\ (avail_offset s = -1 ->
        exists i, a = offset + RECORD_LEN * i /\ (0 < n -> 0 <= i)).

(** The file [c'] is the file [c] after a [write] of [d] at offset [a] that
    was cut short. *)
Definition cut_short (c : list byte) (a : Z) (d c' : list byte) : Prop :=
  exists n, (n < length d)%nat /\ c' = file_put c (Z.to_nat a) (firstn n d).

(** The outcome of one iteration started on a file holding [c]. *)
Definition body_post (c tag : list byte) (now : Z) (s : loop_state)
    (o : outcome) (w' : world) : Prop :=
  match o with
  | Continue s' => contents w' = c /\ continue_rel s s'
  | Return ret =>
      (ret <> 0
       /\ (contents w' = c
           \/ (ret = EIO
               /\ exists a,
                   return_rel s a
                   /\ cut_short c a (marshal_record tag now) (contents w'))))
      \/ (ret = 0
          /\ exists a,
              return_rel s a
              /\ contents w'
                 = file_write c (Z.to_nat a) (marshal_record tag now))
  end.

(** The outcome of the loop started on a file holding [c]. *)
Definition loop_post (c tag : list byte) (now : Z) (s : loop_state)
    (r : option Z) (w' : world) : Prop :=
  match r with
  | None => contents w' = c
  | Some ret =>
      (ret <> 0
       /\ (contents w' = c
           \/ (ret = EIO
               /\ exists a,
                   0 <= a
                   /\ (loop_inv s -> slot_offset a)
                   /\ (avail_offset s <> -1 -> a = avail_offset s)
                   /\ cut_short c a (marshal_record tag now) (contents w'))))
      \/ (ret = 0
          /\ exists a,
              0 <= a
              /\ (loop_inv s -> slot_offset a)
              /\ (avail_offset s <> -1 -> a = avail_offset s)
              /\ contents w'
                 = file_write c (Z.to_nat a) (marshal_record tag now))
  end.

(** ** Further definitions for the properties of the whole code *)

(** The bytes taken by the levels below level [n]. *)
Fixpoint level_span (n : nat) : Z :=
  match n with
  | O => 0
  | S n' => level_span n' + level_capacity n' * RECORD_LEN
  end.

(** A whole record slot at offset [a] of the file [c] carries [tag]. *)
Definition holds_tag (c : list byte) (a : Z) (tag : list byte) : Prop :=
  0 <= a
  /\ a + RECORD_LEN <= Z.of_nat (length c)
  /\ file_read c (Z.to_nat a) 12 = tag.

(** The calls that [store] makes: those on the descriptor and the one to
    the random generator. *)
Definition store_call (c : call) : bool :=
  match c with
  | Call_lseek _ | Call_read _ | Call_write _ | Call_random _ => true
  | Call_timeofday | Call_lock | Call_unlock => false
  end.

(** Since the trace was [t0], only calls of [store] have been made. *)
Definition calls_of_store (t0 : list call) (w : world) : Prop :=
  exists made, trace w = made ++ t0 /\ forallb store_call made = true.


(** The outcomes decided when the trace was [t0] let [k] calls complete
    and make the next one fail with [e].  [before_failure]: the calls made
    since have all completed.  [at_failure]: the failing call has just been
    made. *)
Definition before_failure (t0 : list call) (k : nat) (e : positive)
    (rest : list (option failure)) (w : world) : Prop :=
  exists j,
    (j <= k)%nat
    /\ faults w = repeat None (k - j) ++ Some (Errno e) :: rest
    /\ length (trace w) = (length t0 + j)%nat.

Definition at_failure (t0 : list call) (k : nat)
    (rest : list (option failure)) (w : world) : Prop :=
  faults w = rest /\ length (trace w) = (length t0 + S k)%nat.


(** The slot at offset [a] of the file [c] can be taken at [now]: it is
    not wholly inside the file, or the timestamp of the record it holds,
    incremented by [skew], is before [now]. *)
Definition slot_expired (c : list byte) (now skew a : Z) : Prop :=
  Z.of_nat (length c) < a + RECORD_LEN
  \/ ts_after now
       (ts_incr (load_32_be (file_read c (Z.to_nat (a + TAG_LEN)) 4)) skew)
     = true.


(** No forthcoming [write] is going to be cut short. *)
Definition no_short (w : world) : Prop :=
  forall n, ~ In (Some (Short n)) (faults w).

(** * Properties *)

(** The seed is a C array: its length is not negative. *)
Hypothesis seed_len_nonneg : 0 <= K5_HASH_SEED_LEN.

(** ** Bytes and big-endian words *)

Lemma byte_to_Z_range (b : byte) : 0 <= byte_to_Z b < 256.
Proof.
  unfold byte_to_Z. pose proof (Byte.to_N_bounded b) as H.
  lia.
Qed.

Lemma byte_to_of_Z (z : Z) : 0 <= z < 256 -> byte_to_Z (byte_of_Z z) = z.
Proof.
  intros Hz. unfold byte_to_Z, byte_of_Z.
  rewrite Z.mod_small by lia.
  destruct (Byte.of_N (Z.to_N z)) as [b|] eqn:E.
  - apply Byte.to_of_N in E. rewrite E. apply Z2N.id. lia.
  - apply Byte.of_N_None_iff in E. lia.
Qed.

Lemma byte_of_to_Z (b : byte) : byte_of_Z (byte_to_Z b) = b.
Proof.
  unfold byte_of_Z. pose proof (byte_to_Z_range b) as H.
  rewrite Z.mod_small by lia. unfold byte_to_Z.
  rewrite N2Z.id, Byte.of_to_N. reflexivity.
Qed.

Lemma octet_land (v k : Z) : 0 <= Z.land (Z.shiftr v k) 255 < 256.
Proof.
  change 255 with (Z.ones 8). rewrite Z.land_ones by lia.
  apply Z.mod_pos_bound. reflexivity.
Qed.

Lemma octet_bit (v k n : Z) :
  0 <= k -> 0 <= n ->
  Z.testbit (Z.shiftl (Z.land (Z.shiftr v k) 255) k) n
  = Z.testbit v n && (k <=? n) && (n <? k + 8).
Proof.
  intros Hk Hn. rewrite Z.shiftl_spec by lia.
  destruct (Z.leb_spec k n) as [H|H].
  - change 255 with (Z.ones 8).
    rewrite Z.land_spec, Z.shiftr_spec, Z.testbit_ones_nonneg by lia.
    replace (n - k + k) with n by lia. rewrite andb_true_r.
    f_equal.
    destruct (Z.ltb_spec (n - k) 8), (Z.ltb_spec n (k + 8)); lia || reflexivity.
  - rewrite Z.testbit_neg_r by lia. now rewrite andb_false_r.
Qed.

Lemma word_of_octets (v : Z) :
  0 <= v <= UINT32_MAX ->
  Z.lor (Z.shiftl (Z.land (Z.shiftr v 24) 255) 24)
    (Z.lor (Z.shiftl (Z.land (Z.shiftr v 16) 255) 16)
       (Z.lor (Z.shiftl (Z.land (Z.shiftr v 8) 255) 8) (Z.land v 255))) = v.
Proof.
  unfold UINT32_MAX. intros Hv. apply Z.bits_inj'. intros n Hn.
  rewrite <- (Z.shiftl_0_r (Z.land v 255)).
  rewrite <- (Z.shiftr_0_r v) at 4.
  rewrite !Z.lor_spec, !octet_bit by lia.
  destruct (Z.ltb_spec n 32) as [H32|H32].
  - destruct (Z.testbit v n); cbn [andb]; [|reflexivity].
    destruct (Z.leb_spec 24 n), (Z.leb_spec 16 n), (Z.leb_spec 8 n),
      (Z.leb_spec 0 n), (Z.ltb_spec n (24 + 8)), (Z.ltb_spec n (16 + 8)),
      (Z.ltb_spec n (8 + 8)), (Z.ltb_spec n (0 + 8)); try lia; reflexivity.
  - assert (Z.testbit v n = false) as ->.
    { destruct (Z.eq_dec v 0) as [->|Hnz]; [apply Z.testbit_0_l|].
      apply Z.bits_above_log2; [lia|].
      apply Z.lt_le_trans with 32; [|lia].
      apply Z.log2_lt_pow2; lia. }
    reflexivity.
Qed.

Lemma load_store_32_be (v : Z) (rest : list byte) :
  0 <= v <= UINT32_MAX -> load_32_be (store_32_be v ++ rest) = v.
Proof.
  intros Hv. unfold store_32_be, load_32_be. cbn [app].
  rewrite !byte_to_of_Z by (try apply octet_land;
    rewrite <- (Z.shiftr_0_r v) at 1; apply octet_land).
  now apply word_of_octets.
Qed.

Lemma byte_eqb_refl (x : byte) : Byte.eqb x x = true.
Proof. apply Byte.byte_dec_lb. reflexivity. Qed.

Lemma memcmp_same (n : nat) (a t1 t2 : list byte) :
  length a = n -> memcmp (a ++ t1) (a ++ t2) n = 0.
Proof.
  revert a. induction n as [|n IH]; intros [|x a] Hlen; try discriminate;
    cbn; [reflexivity|].
  rewrite byte_eqb_refl. apply IH. now injection Hlen.
Qed.

Lemma memcmp_zero (n : nat) (a b : list byte) :
  (n <= length a)%nat -> (n <= length b)%nat ->
  memcmp a b n = 0 -> firstn n a = firstn n b.
Proof.
  revert a b. induction n as [|n IH]; intros a b Ha Hb H; [reflexivity|].
  destruct a as [|x a]; [cbn in Ha; lia|].
  destruct b as [|y b]; [cbn in Hb; lia|].
  cbn in H |- *. destruct (Byte.eqb x y) eqn:E.
  - apply Byte.byte_dec_bl in E. subst y. f_equal.
    cbn [length] in Ha, Hb. apply IH; [lia|lia|exact H].
  - exfalso. assert (x = y); [|subst; rewrite byte_eqb_refl in E; discriminate].
    rewrite <- (byte_of_to_Z x), <- (byte_of_to_Z y). f_equal. lia.
Qed.

(** ** Bytes of the file *)

Lemma firstn_app_exact {A : Type} (n : nat) (l1 l2 : list A) :
  length l1 = n -> firstn n (l1 ++ l2) = l1.
Proof.
  intros <-. rewrite firstn_app, Nat.sub_diag, firstn_all. cbn.
  apply app_nil_r.
Qed.

Lemma skipn_app_exact {A : Type} (n : nat) (l1 l2 : list A) :
  length l1 = n -> skipn n (l1 ++ l2) = l2.
Proof.
  intros <-. rewrite skipn_app, Nat.sub_diag, skipn_all. reflexivity.
Qed.

Lemma file_write_pad_length (c : list byte) (off : nat) :
  length (firstn off c ++ repeat x00 (off - length c)) = off.
Proof. rewrite length_app, length_firstn, repeat_length. lia. Qed.

Lemma file_write_length (c : list byte) (off : nat) (d : list byte) :
  length (file_write c off d) = Nat.max (length c) (off + length d).
Proof.
  unfold file_write.
  rewrite !length_app, length_firstn, repeat_length, length_skipn. lia.
Qed.

Lemma file_read_write (c : list byte) (off n : nat) (d : list byte) :
  file_read (file_write c off d) off n
  = firstn n (d ++ skipn (off + length d) c).
Proof.
  unfold file_read, file_write. rewrite app_assoc.
  rewrite skipn_app_exact by apply file_write_pad_length. reflexivity.
Qed.

Lemma file_write_firstn (c : list byte) (off k : nat) (d : list byte) :
  (k <= off)%nat -> (k <= length c)%nat ->
  firstn k (file_write c off d) = firstn k c.
Proof.
  intros Hk Hc. unfold file_write.
  rewrite firstn_app, length_firstn, firstn_firstn.
  replace (k - Nat.min off (length c))%nat with 0%nat by lia.
  rewrite Nat.min_l by lia. cbn. apply app_nil_r.
Qed.

Lemma file_write_frame (c : list byte) (off i : nat) (d : list byte) :
  (i < length c)%nat -> (i < off \/ off + length d <= i)%nat ->
  nth_error (file_write c off d) i = nth_error c i.
Proof.
  intros Hi Hout. unfold file_write. destruct Hout as [Hlo|Hhi].
  - rewrite nth_error_app1 by (rewrite length_firstn; lia).
    rewrite nth_error_firstn.
    destruct (Nat.ltb_spec i off); [reflexivity|lia].
  - replace (off - length c)%nat with 0%nat by lia. cbn [repeat app].
    rewrite nth_error_app2 by (rewrite length_firstn; lia).
    rewrite nth_error_app2 by (rewrite length_firstn; lia).
    rewrite nth_error_skipn, length_firstn. f_equal. lia.
Qed.

Lemma file_write_at_end (c d : list byte) :
  file_write c (length c) d = c ++ d.
Proof.
  unfold file_write. rewrite firstn_all, Nat.sub_diag.
  rewrite skipn_all2 by lia. cbn. now rewrite app_nil_r.
Qed.

(** ** Table geometry *)

Lemma level_capacity_step (n : nat) :
  level_capacity (S (S n)) = 2 * level_capacity (S n).
Proof. reflexivity. Qed.

Lemma level_capacity_lower (n : nat) : 1023 <= level_capacity n.
Proof.
  induction n as [|[|n] IH]; [cbn; lia|cbn; lia|].
  rewrite level_capacity_step. lia.
Qed.

Lemma level_capacity_grows (n : nat) :
  level_capacity n < level_capacity (S n).
Proof.
  destruct n as [|n]; [cbn; lia|].
  rewrite level_capacity_step. pose proof (level_capacity_lower (S n)). lia.
Qed.

Lemma level_offset_step (n : nat) :
  level_offset (S n) = level_offset n + level_capacity n * RECORD_LEN.
Proof. reflexivity. Qed.

Lemma level_offset_grows (n : nat) : level_offset n < level_offset (S n).
Proof.
  rewrite level_offset_step. pose proof (level_capacity_lower n).
  unfold RECORD_LEN, TAG_LEN. lia.
Qed.

Lemma level_offset_lower (n : nat) :
  K5_HASH_SEED_LEN <= level_offset n
  /\ K5_HASH_SEED_LEN < level_offset (S n).
Proof.
  induction n as [|n [IH1 IH2]].
  - split; [cbn; lia|]. pose proof (level_offset_grows 0). cbn in *. lia.
  - split; [lia|]. pose proof (level_offset_grows (S n)). lia.
Qed.

Lemma next_table_checks (offset nrecords : Z) :
  (if nrecords >? MAX_SIZE / RECORD_LEN then (EOVERFLOW, offset, nrecords)
   else if offset >? MAX_SIZE - nrecords * RECORD_LEN
        then (EOVERFLOW, offset, nrecords)
        else (0, offset, nrecords))
  = (if (nrecords * RECORD_LEN <=? MAX_SIZE)
        && (offset + nrecords * RECORD_LEN <=? MAX_SIZE)
     then 0 else EOVERFLOW, offset, nrecords).
Proof.
  change (MAX_SIZE / RECORD_LEN) with 134217727.
  unfold MAX_SIZE, INT32_MAX, RECORD_LEN, TAG_LEN.
  destruct (Z.gtb_spec nrecords 134217727),
    (Z.gtb_spec offset (2147483647 - nrecords * (12 + 4))),
    (Z.leb_spec (nrecords * (12 + 4)) 2147483647),
    (Z.leb_spec (offset + nrecords * (12 + 4)) 2147483647);
    try lia; reflexivity.
Qed.

Lemma next_table_first (nrecords : Z) :
  next_table (-1) nrecords
  = (table_code K5_HASH_SEED_LEN FIRST_TABLE_RECORDS,
     K5_HASH_SEED_LEN, FIRST_TABLE_RECORDS).
Proof.
  unfold next_table. change (-1 =? -1) with true. cbv iota beta.
  apply next_table_checks.
Qed.

Lemma next_table_second (nrecords : Z) :
  next_table K5_HASH_SEED_LEN nrecords
  = (table_code (K5_HASH_SEED_LEN + nrecords * RECORD_LEN) 2048,
     K5_HASH_SEED_LEN + nrecords * RECORD_LEN, 2048).
Proof.
  unfold next_table.
  destruct (Z.eqb_spec K5_HASH_SEED_LEN (-1)) as [E|_]; [lia|].
  rewrite Z.eqb_refl. cbv iota beta.
  change ((FIRST_TABLE_RECORDS + 1) * 2) with 2048. apply next_table_checks.
Qed.

Lemma next_table_later (offset nrecords : Z) :
  K5_HASH_SEED_LEN < offset ->
  next_table offset nrecords
  = (table_code (offset + nrecords * RECORD_LEN) (nrecords * 2),
     offset + nrecords * RECORD_LEN, nrecords * 2).
Proof.
  intros Hgt. unfold next_table.
  destruct (Z.eqb_spec offset (-1)) as [E|_]; [lia|].
  destruct (Z.eqb_spec offset K5_HASH_SEED_LEN) as [E|_]; [lia|].
  cbv iota beta. apply next_table_checks.
Qed.

(** A table accepted by [next_table] lies below [MAX_SIZE]; the index of a
    record in it, and that index times [RECORD_LEN], are then held by the
    [int] variable [ind] of [store] without overflow. *)
Lemma next_table_code (offset nrecords : Z) :
  fst (fst (next_table offset nrecords))
  = table_code (snd (fst (next_table offset nrecords)))
      (snd (next_table offset nrecords)).
Proof.
  unfold next_table.
  destruct (offset =? -1); [|destruct (offset =? K5_HASH_SEED_LEN)];
    cbv iota beta; rewrite next_table_checks; reflexivity.
Qed.

Lemma next_table_accepts (offset nrecords offset' nrecords' : Z) :
  next_table offset nrecords = (0, offset', nrecords') ->
  nrecords' * RECORD_LEN <= MAX_SIZE
  /\ offset' + nrecords' * RECORD_LEN <= MAX_SIZE.
Proof.
  intros H. pose proof (next_table_code offset nrecords) as Hc.
  rewrite H in Hc. cbn [fst snd] in Hc. unfold table_code in Hc.
  destruct (Z.leb_spec (nrecords' * RECORD_LEN) MAX_SIZE),
    (Z.leb_spec (offset' + nrecords' * RECORD_LEN) MAX_SIZE);
    cbn [andb] in Hc; try discriminate Hc; split; assumption.
Qed.

Lemma record_index_fits (offset nrecords offset' nrecords' hash : Z) :
  next_table offset nrecords = (0, offset', nrecords') ->
  0 < nrecords' ->
  let ind := (hash mod 2 ^ 64) mod nrecords' in
  0 <= ind < nrecords' /\ 0 <= ind * RECORD_LEN <= INT32_MAX.
Proof.
  intros Hnt Hn ind.
  destruct (next_table_accepts _ _ _ _ Hnt) as [Hlen _].
  assert (Hind : 0 <= ind < nrecords') by (apply Z.mod_pos_bound; exact Hn).
  split; [exact Hind|].
  unfold MAX_SIZE in Hlen. change RECORD_LEN with 16 in *. lia.
Qed.

Lemma table_after_level (n : nat) :
  table_after (S n)
  = (if level_fits n then 0 else EOVERFLOW, level_offset n, level_capacity n).
Proof.
  induction n as [|n IH].
  - cbn [table_after]. apply next_table_first.
  - change (table_after (S (S n)))
      with (let '(_, offset, nrecords) := table_after (S n) in
            next_table offset nrecords).
    rewrite IH. cbv iota beta. destruct n as [|n].
    + cbn [level_offset level_capacity]. apply next_table_second.
    + pose proof (level_offset_lower n) as [_ Hgt].
      rewrite next_table_later by exact Hgt.
      unfold level_fits, table_code.
      rewrite level_capacity_step, (level_offset_step (S n)).
      rewrite (Z.mul_comm 2). reflexivity.
Qed.

(** ** Calls that complete *)

Lemma lseek_ok c p e t (offset : Z) :
  0 <= offset ->
  lseek offset (mkWorld c p e [] t)
  = (offset, mkWorld c offset e [] (Call_lseek offset :: t)).
Proof.
  intros H. unfold lseek, mbind, enter. cbn [faults contents pos errno trace].
  destruct (Z.ltb_spec offset 0); [lia|reflexivity].
Qed.

Lemma read_ok c p e t (count : Z) :
  read count (mkWorld c p e [] t)
  = (let d := file_read c (Z.to_nat p) (Z.to_nat count) in
     ((Z.of_nat (length d), d),
      mkWorld c (p + Z.of_nat (length d)) e [] (Call_read count :: t))).
Proof. reflexivity. Qed.

Lemma file_put_write (c : list byte) (off : nat) (d : list byte) :
  (0 < length d)%nat -> file_put c off d = file_write c off d.
Proof. destruct d; [cbn; lia|reflexivity]. Qed.

Lemma write_ok c p e t (buf : list byte) :
  (0 < length buf)%nat ->
  write buf (mkWorld c p e [] t)
  = (Z.of_nat (length buf),
     mkWorld (file_write c (Z.to_nat p) buf) (p + Z.of_nat (length buf)) e []
       (Call_write buf :: t)).
Proof.
  intros Hne. unfold write, mbind, enter, transferred. cbn [faults].
  cbv beta iota zeta. cbn [contents pos errno faults trace].
  now rewrite file_put_write.
Qed.

Lemma marshal_record_length (tag : list byte) (timestamp : Z) :
  (12 <= length tag)%nat -> length (marshal_record tag timestamp) = 16%nat.
Proof.
  intros H. unfold marshal_record. rewrite length_app, length_firstn.
  change (Z.to_nat TAG_LEN) with 12%nat. cbn [store_32_be length]. lia.
Qed.

Lemma write_record_ok c p e t (offset : Z) (tag : list byte) (timestamp : Z) :
  0 <= offset -> (12 <= length tag)%nat ->
  write_record offset tag timestamp (mkWorld c p e [] t)
  = (0, mkWorld (file_write c (Z.to_nat offset) (marshal_record tag timestamp))
          (offset + RECORD_LEN) e []
          (Call_write (marshal_record tag timestamp) :: Call_lseek offset :: t)).
Proof.
  intros Hoff Hlen. unfold write_record, mbind.
  rewrite lseek_ok by exact Hoff.
  destruct (Z.eqb_spec offset (-1)) as [E|_]; [lia|].
  rewrite write_ok by (rewrite marshal_record_length by exact Hlen; lia).
  rewrite marshal_record_length by exact Hlen.
  reflexivity.
Qed.

Lemma read_records_ok c p e t (offset : Z) (out : records) :
  0 <= offset ->
  read_records offset out (mkWorld c p e [] t)
  = (let d := file_read c (Z.to_nat offset) 32 in
     let st := Z.of_nat (length d) in
     (0, fst (parse_records st d out 0), snd (parse_records st d out 0),
      mkWorld c (offset + st) e []
        (Call_read (RECORD_LEN * 2) :: Call_lseek offset :: t))).
Proof.
  intros Hoff. unfold read_records, mbind.
  rewrite lseek_ok by exact Hoff.
  destruct (Z.eqb_spec offset (-1)) as [E|_]; [lia|].
  rewrite read_ok. change (Z.to_nat (RECORD_LEN * 2)) with 32%nat.
  cbv beta iota zeta.
  match goal with
  | |- context [?a =? -1] => destruct (Z.eqb_spec a (-1)) as [E|_]; [lia|]
  end.
  destruct (parse_records _ _ out 0). reflexivity.
Qed.

(** ** The record codec *)

Lemma marshal_record_tag (tag : list byte) (timestamp : Z) (rest : list byte) :
  length tag = 12%nat ->
  firstn 12 (marshal_record tag timestamp ++ rest) = tag.
Proof.
  intros H. unfold marshal_record. change (Z.to_nat TAG_LEN) with 12%nat.
  rewrite (@firstn_all2 _ 12 tag) by lia. rewrite <- app_assoc.
  now apply firstn_app_exact.
Qed.

Lemma marshal_record_stamp (tag : list byte) (timestamp : Z) (rest : list byte) :
  length tag = 12%nat -> 0 <= timestamp <= UINT32_MAX ->
  load_32_be (skipn 12 (marshal_record tag timestamp ++ rest)) = timestamp.
Proof.
  intros H Hts. unfold marshal_record. change (Z.to_nat TAG_LEN) with 12%nat.
  rewrite (@firstn_all2 _ 12 tag) by lia. rewrite <- app_assoc.
  rewrite skipn_app_exact by exact H. now apply load_store_32_be.
Qed.

Lemma parse_records_first (tag : list byte) (timestamp : Z)
    (rest : list byte) (out : records) :
  length tag = 12%nat -> 0 <= timestamp <= UINT32_MAX ->
  let d := marshal_record tag timestamp ++ rest in
  let r := parse_records (Z.of_nat (length d)) d out 0 in
  rec1_tag (fst r) = tag /\ rec1_stamp (fst r) = timestamp /\ 1 <= snd r <= 2.
Proof.
  intros Hlen Hts d r. subst r. unfold parse_records.
  assert (Hd : (16 <= length d)%nat).
  { subst d. rewrite length_app, marshal_record_length; lia. }
  change RECORD_LEN with 16. change (Z.to_nat TAG_LEN) with 12%nat.
  destruct (Z.geb_spec (Z.of_nat (length d)) 16) as [_|E]; [|lia].
  destruct (Z.of_nat (length d) =? 16 * 2); cbn [fst snd rec1_tag rec1_stamp];
    subst d; rewrite marshal_record_tag, marshal_record_stamp by assumption;
    repeat split; lia.
Qed.

Lemma parse_records_second (first tag : list byte) (timestamp : Z)
    (out : records) :
  length first = 16%nat -> length tag = 12%nat ->
  0 <= timestamp <= UINT32_MAX ->
  let d := first ++ marshal_record tag timestamp in
  let r := parse_records (Z.of_nat (length d)) d out 0 in
  rec2_tag (fst r) = tag /\ rec2_stamp (fst r) = timestamp /\ snd r = 2.
Proof.
  intros Hfirst Hlen Hts d r. subst r. unfold parse_records.
  assert (Hd : length d = 32%nat).
  { subst d. rewrite length_app, marshal_record_length; lia. }
  rewrite Hd. change (Z.of_nat 32 >=? RECORD_LEN) with true.
  change (Z.of_nat 32 =? RECORD_LEN * 2) with true.
  cbn [fst snd rec2_tag rec2_stamp].
  change (Z.to_nat TAG_LEN) with 12%nat.
  change (Z.to_nat RECORD_LEN) with 16%nat.
  change (Z.to_nat (RECORD_LEN + TAG_LEN)) with (12 + 16)%nat.
  rewrite <- skipn_skipn. subst d.
  rewrite skipn_app_exact by exact Hfirst.
  rewrite <- (app_nil_r (marshal_record tag timestamp)).
  rewrite marshal_record_tag, marshal_record_stamp by assumption.
  repeat split.
Qed.

(** C5. A record written by [write_record] is read back by [read_records]
    as the same tag and timestamp: as the first record when read at the
    offset it was written at, and as the second record when read one record
    earlier.  The record is the 12 tag bytes followed by the timestamp in
    big-endian order. *)
Theorem record_round_trip (w : world) (offset : Z) (tag : list byte)
    (timestamp : Z) (out : records) :
  length tag = 12%nat -> 0 <= timestamp <= UINT32_MAX ->
  0 <= offset -> faults w = [] ->
  marshal_record tag timestamp = tag ++ store_32_be timestamp
  /\ exists w1,
      write_record offset tag timestamp w = (0, w1)
      /\ (exists out1 nread w2,
            read_records offset out w1 = (0, out1, nread, w2)
            /\ 1 <= nread
            /\ rec1_tag out1 = tag /\ rec1_stamp out1 = timestamp)
      /\ (RECORD_LEN <= offset ->
          exists out2 w2,
            read_records (offset - RECORD_LEN) out w1 = (0, out2, 2, w2)
            /\ rec2_tag out2 = tag /\ rec2_stamp out2 = timestamp).
Proof.
  intros Hlen Hts Hoff Hf. destruct w as [c p e f t]. cbn in Hf. subst f.
  split.
  { unfold marshal_record. change (Z.to_nat TAG_LEN) with 12%nat.
    now rewrite (@firstn_all2 _ 12 tag) by lia. }
  rewrite write_record_ok by lia. eexists. split; [reflexivity|]. split.
  - rewrite read_records_ok by exact Hoff. cbv zeta.
    rewrite file_read_write, firstn_app, marshal_record_length by lia.
    rewrite (@firstn_all2 _ 32 (marshal_record tag timestamp))
      by (rewrite marshal_record_length; lia).
    pose proof (parse_records_first tag timestamp
                  (firstn (32 - 16)
                     (skipn (Z.to_nat offset + 16) c)) out Hlen Hts) as H.
    cbv zeta in H. destruct H as (H1 & H2 & H3).
    do 3 eexists. split; [reflexivity|]. repeat split; try assumption; lia.
  - intros Hrec. change RECORD_LEN with 16 in *.
    rewrite read_records_ok by lia. cbv zeta.
    set (P := firstn (Z.to_nat offset) c
              ++ repeat x00 (Z.to_nat offset - length c)).
    assert (HP : length P = Z.to_nat offset) by apply file_write_pad_length.
    assert (Hd : file_read
                   (file_write c (Z.to_nat offset)
                      (marshal_record tag timestamp))
                   (Z.to_nat (offset - 16)) 32
                 = skipn (Z.to_nat (offset - 16)) P
                   ++ marshal_record tag timestamp).
    { unfold file_read, file_write. rewrite app_assoc. fold P.
      rewrite skipn_app.
      replace (Z.to_nat (offset - 16) - length P)%nat with 0%nat by lia.
      cbn [skipn]. rewrite app_assoc.
      apply firstn_app_exact.
      rewrite length_app, length_skipn, marshal_record_length; lia. }
    rewrite Hd.
    assert (Hx : length (skipn (Z.to_nat (offset - 16)) P) = 16%nat)
      by (rewrite length_skipn; lia).
    pose proof (parse_records_second _ tag timestamp out Hx Hlen Hts) as H.
    cbv zeta in H. destruct H as (H1 & H2 & H3).
    do 2 eexists. split; [|split; eassumption].
    rewrite H3. reflexivity.
Qed.

(** ** Reasoning about calls that may fail *)

Lemma hoare_bind {A B : Type} (P : world -> Prop) (m : M A)
    (Q : A -> world -> Prop) (k : A -> M B) (R : B -> world -> Prop) :
  hoare P m Q -> (forall a, hoare (Q a) (k a) R) -> hoare P (mbind m k) R.
Proof.
  intros Hm Hk w HP. unfold mbind. specialize (Hm w HP).
  destruct (m w) as [a w1]. apply Hk. exact Hm.
Qed.

Lemma hoare_ret {A : Type} (P : world -> Prop) (a : A)
    (Q : A -> world -> Prop) :
  (forall w, P w -> Q a w) -> hoare P (mret a) Q.
Proof. intros H w HP. apply H, HP. Qed.

Lemma hoare_weaken {A : Type} (P P' : world -> Prop) (m : M A)
    (Q Q' : A -> world -> Prop) :
  hoare P m Q -> (forall w, P' w -> P w) ->
  (forall a w, Q a w -> Q' a w) -> hoare P' m Q'.
Proof. intros H HP HQ w Hw. apply HQ, H, HP, Hw. Qed.

Lemma hoare_assume {A : Type} (F : Prop) (P : world -> Prop) (m : M A)
    (Q : A -> world -> Prop) :
  (forall w, P w -> F) -> (F -> hoare P m Q) -> hoare P m Q.
Proof. intros HF H w HP. exact (H (HF w HP) w HP). Qed.

Lemma enter_spec (c : call) (w : world) :
  exists f fs,
    enter c w
    = (f, mkWorld (contents w) (pos w) (errno w) fs (c :: trace w)).
Proof.
  unfold enter. destruct (faults w) as [|f fs]; eauto.
Qed.

Lemma lseek_spec (c : list byte) (offset : Z) :
  hoare (fun w => contents w = c) (lseek offset)
    (fun st w' =>
       contents w' = c
       /\ ((st = -1 /\ errno w' <> 0)
           \/ (st = offset /\ 0 <= offset /\ pos w' = offset))).
Proof.
  intros w Hc. unfold lseek, mbind.
  destruct (enter_spec (Call_lseek offset) w) as (f & fs & ->).
  destruct f as [[e|n]|]; cbn;
    [split; [exact Hc|]; left; split; [reflexivity|lia]| |];
    (destruct (Z.ltb_spec offset 0); cbn;
     [split; [exact Hc|]; left; split; [reflexivity|unfold EINVAL; lia]
     |split; [exact Hc|]; right; repeat split; assumption]).
Qed.

Lemma read_spec (c : list byte) (p count : Z) :
  hoare (fun w => contents w = c /\ pos w = p) (read count)
    (fun r w' =>
       contents w' = c
       /\ ((fst r = -1 /\ errno w' <> 0)
           \/ (snd r = file_read c (Z.to_nat p) (Z.to_nat count)
               /\ fst r = Z.of_nat (length (snd r))
               /\ pos w' = p + fst r))).
Proof.
  intros w [Hc Hp]. unfold read, mbind.
  destruct (enter_spec (Call_read count) w) as (f & fs & ->).
  destruct f as [[e|n]|]; cbn;
    [split; [exact Hc|]; left; split; [reflexivity|lia]| |];
    (split; [exact Hc|]; right; rewrite Hc, Hp; repeat split).
Qed.

Lemma write_spec (c : list byte) (p : Z) (buf : list byte) :
  hoare (fun w => contents w = c /\ pos w = p) (write buf)
    (fun st w' =>
       (st = -1 /\ errno w' <> 0 /\ contents w' = c)
       \/ (st = Z.of_nat (length buf)
           /\ contents w' = file_put c (Z.to_nat p) buf)
       \/ (0 <= st < Z.of_nat (length buf)
           /\ contents w'
              = file_put c (Z.to_nat p) (firstn (Z.to_nat st) buf))).
Proof.
  intros w [Hc Hp]. unfold write, mbind.
  destruct (enter_spec (Call_write buf) w) as (f & fs & ->).
  destruct f as [[e|n]|]; cbn.
  - left. repeat split; [lia|exact Hc].
  - rewrite Hc, Hp.
    destruct (Nat.le_gt_cases (length buf) n) as [Hle|Hgt].
    + right. left. rewrite firstn_all2 by exact Hle. repeat split.
    + right. right. rewrite length_firstn, Nat.min_l by lia.
      rewrite Nat2Z.id. split; [lia|reflexivity].
  - right. left. rewrite Hc, Hp. repeat split.
Qed.

Lemma get_errno_spec (P : world -> Prop) :
  hoare P get_errno (fun e w' => P w' /\ e = errno w').
Proof. intros w HP. cbn. auto. Qed.

Lemma write_record_spec (c : list byte) (offset : Z) (tag : list byte)
    (timestamp : Z) :
  (12 <= length tag)%nat ->
  hoare (fun w => contents w = c) (write_record offset tag timestamp)
    (fun ret w' =>
       (ret <> 0
        /\ (contents w' = c
            \/ (ret = EIO /\ 0 <= offset
                /\ cut_short c offset (marshal_record tag timestamp)
                     (contents w'))))
       \/ (ret = 0 /\ 0 <= offset
           /\ contents w'
              = file_write c (Z.to_nat offset)
                  (marshal_record tag timestamp))).
Proof.
  intros Hlen. unfold write_record.
  pose proof (marshal_record_length tag timestamp Hlen) as Hrec.
  eapply hoare_bind; [apply lseek_spec|]. intros st.
  destruct (Z.eqb_spec st (-1)) as [Hst|Hst].
  - eapply hoare_weaken; [apply get_errno_spec|intros w H; exact H|].
    cbn beta. intros e w [[Hc [[_ He]|[E [H0 _]]]] ->]; [auto|lia].
  - apply (hoare_assume (0 <= offset)).
    { intros w [_ [[E _]|[_ [H0 _]]]]; [contradiction|exact H0]. }
    intros Hoff. eapply hoare_bind.
    + eapply hoare_weaken;
        [apply (write_spec c offset)| |intros a w H; exact H].
      cbn beta. intros w [Hc [[E _]|[_ [_ Hp]]]]; [contradiction|auto].
    + intros st2. rewrite Hrec.
      destruct (Z.eqb_spec st2 (-1)) as [Hst2|Hst2].
      * eapply hoare_weaken; [apply get_errno_spec|intros w H; exact H|].
        cbn beta. intros e w [[[_ [He Hc]]|[[E _]|[E _]]] ->]; [auto|lia|lia].
      * destruct (Z.eqb_spec st2 RECORD_LEN) as [E16|E16]; cbn [negb];
          apply hoare_ret; intros w [[E _]|[[E Hc]|[E Hc]]];
          try contradiction; change RECORD_LEN with 16 in *; try lia.
        -- right. repeat split; [exact Hoff|].
           rewrite Hc. apply file_put_write. lia.
        -- left. split; [unfold EIO; lia|]. right.
           split; [reflexivity|]. split; [exact Hoff|].
           exists (Z.to_nat st2). split; [lia|exact Hc].
Qed.

Lemma read_keeps_contents (c : list byte) (count : Z) :
  hoare (fun w => contents w = c) (read count)
    (fun _ w' => contents w' = c).
Proof.
  intros w Hc. unfold read, mbind.
  destruct (enter_spec (Call_read count) w) as (f & fs & ->).
  destruct f as [[e|n]|]; exact Hc.
Qed.

Lemma parse_records_nread (st : Z) (buf : list byte) (out : records) :
  0 <= snd (parse_records st buf out 0) <= 2.
Proof.
  unfold parse_records.
  destruct (st >=? RECORD_LEN), (st =? RECORD_LEN * 2); cbn; lia.
Qed.

Lemma read_records_spec (c : list byte) (offset : Z) (out : records) :
  hoare (fun w => contents w = c) (read_records offset out)
    (fun r w' => contents w' = c /\ 0 <= snd r <= 2).
Proof.
  unfold read_records.
  eapply hoare_bind; [apply lseek_spec|]. intros st.
  destruct (st =? -1).
  - eapply hoare_bind; [apply get_errno_spec|]. intros e.
    apply hoare_ret. intros w [[Hc _] _]. cbn. split; [exact Hc|lia].
  - eapply hoare_bind.
    + eapply hoare_weaken;
        [apply (read_keeps_contents c)| |intros a w H; exact H].
      cbn beta. intros w [Hc _]. exact Hc.
    + intros [st2 buf]. destruct (st2 =? -1).
      * eapply hoare_bind; [apply get_errno_spec|]. intros e.
        apply hoare_ret. intros w [Hc _]. cbn. split; [exact Hc|lia].
      * pose proof (parse_records_nread st2 buf out) as Hn.
        destruct (parse_records st2 buf out 0) as [out1 nread].
        apply hoare_ret. intros w Hc. split; [exact Hc|exact Hn].
Qed.

(** ** One iteration of the loop *)

Lemma choose_avail_cases (avail record_offset nread : Z) (r : records)
    (now skew : Z) :
  let a := choose_avail avail record_offset nread r now skew in
  (avail <> -1 /\ a = avail)
  \/ (avail = -1
      /\ (a = -1 \/ a = record_offset \/ a = record_offset + RECORD_LEN)).
Proof.
  unfold choose_avail. destruct (Z.eqb_spec avail (-1)) as [E|E].
  - right. split; [exact E|].
    destruct ((nread =? 0) || ts_after now (ts_incr (rec1_stamp r) skew));
      [auto|].
    destruct ((nread =? 1) || ts_after now (ts_incr (rec2_stamp r) skew));
      auto.
  - left. auto.
Qed.

Lemma choose_avail_at_stop (avail record_offset nread : Z) (r : records)
    (now skew : Z) :
  0 <= skew < now -> 0 <= nread <= 2 -> is_last nread r = true ->
  avail = -1 ->
  let a := choose_avail avail record_offset nread r now skew in
  a = record_offset \/ a = record_offset + RECORD_LEN.
Proof.
  intros Hskew Hn Hlast ->. unfold choose_avail. change (-1 =? -1) with true.
  cbv iota. unfold is_last in Hlast.
  assert (Hzero : ts_after now (ts_incr 0 skew) = true).
  { unfold ts_after, ts_incr, UINT32_MAX. apply Z.ltb_lt. lia. }
  destruct (Z.eqb_spec nread 0) as [E0|E0]; cbn [orb]; [auto|].
  destruct (ts_after now (ts_incr (rec1_stamp r) skew)) eqn:T1; [auto|].
  destruct (Z.eqb_spec nread 1) as [E1|E1]; cbn [orb]; [auto|].
  destruct (ts_after now (ts_incr (rec2_stamp r) skew)) eqn:T2; [auto|].
  exfalso.
  destruct (Z.ltb_spec nread 2) as [H2|H2]; [lia|]. cbn [orb] in Hlast.
  destruct (Z.eqb_spec (rec1_stamp r) 0) as [Z1|Z1];
    [rewrite Z1, Hzero in T1; discriminate|].
  destruct (Z.eqb_spec (rec2_stamp r) 0) as [Z2|Z2];
    [rewrite Z2, Hzero in T2; discriminate|].
  discriminate.
Qed.

Lemma store_body_spec (c tag : list byte) (now skew : Z) (s : loop_state) :
  (12 <= length tag)%nat ->
  hoare (fun w => contents w = c) (store_body tag now skew s)
    (body_post c tag now s).
Proof.
  intros Hlen. unfold store_body.
  destruct (next_table (table_offset s) (nrecords s)) as [[ret offset] n]
    eqn:Hnt.
  destruct (Z.eqb_spec ret 0) as [Hret|Hret]; cbn [negb];
    [subst ret|apply hoare_ret; intros w Hc; left; auto].
  set (ind := (k5_siphash24 (firstn (Z.to_nat TAG_LEN) tag) (seed s)
               mod 2 ^ 64) mod n).
  assert (Hind : 0 < n -> 0 <= ind) by (intros Hn; apply Z.mod_pos_bound, Hn).
  clearbody ind.
  eapply hoare_bind; [apply (read_records_spec c)|].
  intros [[ret r] nread]. cbn [snd].
  destruct (Z.eqb_spec ret 0) as [Hret|Hret]; cbn [negb];
    [subst ret|apply hoare_ret; intros w [Hc _]; left; auto].
  destruct (is_repeat nread r tag);
    [apply hoare_ret; intros w [Hc _]; left; split;
       [unfold KRB5KRB_AP_ERR_REPEAT; lia|left; exact Hc]|].
  pose proof (choose_avail_cases (avail_offset s) (offset + ind * RECORD_LEN)
                nread r now skew) as Hav.
  cbv zeta in Hav.
  set (a := choose_avail (avail_offset s) (offset + ind * RECORD_LEN)
              nread r now skew) in *.
  clearbody a.
  assert (Hset : avail_offset s <> -1 -> a = avail_offset s)
    by (intros Hne; destruct Hav as [[_ E]|[E _]]; [exact E|contradiction]).
  assert (Hnew : avail_offset s = -1 ->
                 a = -1 \/ exists i, a = offset + RECORD_LEN * i
                                     /\ (0 < n -> 0 <= i)).
  { intros He. destruct Hav as [[E _]|[_ [E|[E|E]]]];
      [contradiction|left; exact E| |].
    - right. exists ind. split; [lia|exact Hind].
    - right. exists (ind + 1). split; [lia|]. intros Hn.
      specialize (Hind Hn). lia. }
  assert (Hrel : 0 <= a -> return_rel s a).
  { intros H0. exists offset, n. repeat split; try assumption.
    intros He. destruct (Hnew He) as [E1|Hi]; [lia|exact Hi]. }
  destruct (is_last nread r).
  - eapply hoare_bind.
    + eapply hoare_weaken;
        [apply (write_record_spec c a tag now Hlen)| |intros x w H; exact H].
      cbn beta. intros w [Hc _]. exact Hc.
    + intros ret. apply hoare_ret.
      intros w [[Hne [Hc|(E & H0 & Hc)]]|[E [H0 Hc]]].
      * left. auto.
      * left. split; [exact Hne|]. right. split; [exact E|].
        exists a. split; [exact (Hrel H0)|exact Hc].
      * right. split; [exact E|]. exists a. split; [exact (Hrel H0)|exact Hc].
  - apply hoare_ret. intros w [Hc _]. cbn.
    repeat split; try assumption.
Qed.

(** ** The levels reached by the loop *)

Lemma level_offset_slot (n : nat) : slot_offset (level_offset n).
Proof.
  induction n as [|n (k & Hk & IH)].
  - exists 0. cbn. split; lia.
  - exists (k + level_capacity n). pose proof (level_capacity_lower n).
    rewrite level_offset_step, IH. split; lia.
Qed.

Lemma next_table_level (n : nat) :
  next_table (level_offset n) (level_capacity n)
  = (if level_fits (S n) then 0 else EOVERFLOW,
     level_offset (S n), level_capacity (S n)).
Proof.
  rewrite <- table_after_level.
  change (table_after (S (S n)))
    with (let '(_, offset, nrecords) := table_after (S n) in
          next_table offset nrecords).
  rewrite table_after_level. reflexivity.
Qed.

Lemma next_table_start (nrecords : Z) :
  next_table (-1) nrecords
  = (if level_fits 0 then 0 else EOVERFLOW, level_offset 0, level_capacity 0).
Proof. apply next_table_first. Qed.

Lemma level_capacity_large (n : nat) :
  (17 <= n)%nat -> 134217728 <= level_capacity n.
Proof.
  induction 1 as [|n Hle IH]; [vm_compute; discriminate|].
  pose proof (level_capacity_grows n). lia.
Qed.

Lemma level_fits_bound (n : nat) : level_fits n = true -> (n < 17)%nat.
Proof.
  intros H. destruct (Nat.ltb_spec n 17) as [Hlt|Hge]; [exact Hlt|].
  apply level_capacity_large in Hge. unfold level_fits in H.
  apply andb_prop in H. destruct H as [H _]. apply Z.leb_le in H.
  unfold RECORD_LEN, TAG_LEN, MAX_SIZE, INT32_MAX in H. lia.
Qed.

Lemma loop_inv_start (seed : list byte) (junk : records) :
  loop_inv (mkLoop (-1) 0 (-1) seed junk).
Proof. split; left; reflexivity. Qed.

Lemma table_step_level (s : loop_state) (offset n : Z) :
  loop_inv s ->
  next_table (table_offset s) (nrecords s) = (0, offset, n) ->
  exists m, offset = level_offset m /\ n = level_capacity m.
Proof.
  intros [[E|(m & E1 & E2)] _] Hnt.
  - rewrite E, next_table_start in Hnt. exists 0%nat.
    injection Hnt as _ H1 H2. auto.
  - rewrite E1, E2, next_table_level in Hnt. exists (S m).
    injection Hnt as _ H1 H2. auto.
Qed.

Lemma slot_in_level (m : nat) (i : Z) :
  (0 < level_capacity m -> 0 <= i) ->
  slot_offset (level_offset m + RECORD_LEN * i).
Proof.
  intros Hi. destruct (level_offset_slot m) as (k & Hk & Hoff).
  pose proof (level_capacity_lower m).
  exists (k + i). split; [lia|]. rewrite Hoff. lia.
Qed.

Lemma loop_inv_step (s s' : loop_state) :
  loop_inv s -> continue_rel s s' -> loop_inv s'.
Proof.
  intros Hinv (Hnt & Hkeep & Hnew).
  destruct (table_step_level s _ _ Hinv Hnt) as (m & E1 & E2).
  split; [right; exists m; auto|].
  destruct (Z.eq_dec (avail_offset s) (-1)) as [E|E].
  - destruct (Hnew E) as [E'|(i & Hi & Hpos)]; [left; exact E'|right].
    rewrite Hi, E1. apply slot_in_level. now rewrite <- E2.
  - rewrite (Hkeep E). destruct Hinv as [_ [E'|Hs]];
      [contradiction|right; exact Hs].
Qed.

Lemma return_slot (s : loop_state) (a : Z) :
  loop_inv s -> return_rel s a -> slot_offset a.
Proof.
  intros Hinv (offset & n & Hnt & H0 & Hkeep & Hnew).
  destruct (table_step_level s _ _ Hinv Hnt) as (m & E1 & E2).
  destruct (Z.eq_dec (avail_offset s) (-1)) as [E|E].
  - destruct (Hnew E) as (i & Hi & Hpos).
    rewrite Hi, E1. apply slot_in_level. now rewrite <- E2.
  - rewrite (Hkeep E). destruct Hinv as [_ [E'|Hs]];
      [contradiction|exact Hs].
Qed.

(** ** The whole loop *)

Lemma store_loop_spec (fuel : nat) (c tag : list byte) (now skew : Z)
    (s : loop_state) :
  (12 <= length tag)%nat ->
  hoare (fun w => contents w = c) (store_loop fuel tag now skew s)
    (loop_post c tag now s).
Proof.
  intros Hlen. revert s. induction fuel as [|fuel IH]; intros s.
  - apply hoare_ret. intros w Hc. exact Hc.
  - cbn [store_loop].
    eapply hoare_bind; [apply (store_body_spec c tag now skew s Hlen)|].
    intros [ret|s'].
    + assert (Hat : forall a, return_rel s a ->
                      0 <= a /\ (loop_inv s -> slot_offset a)
                      /\ (avail_offset s <> -1 -> a = avail_offset s)).
      { intros a Hrel. pose proof Hrel as (offset & n & _ & H0 & Hkeep & _).
        repeat split; try assumption.
        intros Hinv. exact (return_slot s a Hinv Hrel). }
      apply hoare_ret.
      intros w [[Hne [Hc|(E & a & Hrel & Hc)]]|(E & a & Hrel & Hc)].
      * left. auto.
      * left. split; [exact Hne|]. right. split; [exact E|]. exists a.
        destruct (Hat a Hrel) as (H1 & H2 & H3). auto.
      * right. split; [exact E|]. exists a.
        destruct (Hat a Hrel) as (H1 & H2 & H3). auto.
    + apply (hoare_assume (continue_rel s s')); [intros w [_ H]; exact H|].
      intros Hrel.
      assert (Hat : forall a,
                 0 <= a /\ (loop_inv s' -> slot_offset a)
                 /\ (avail_offset s' <> -1 -> a = avail_offset s') ->
                 0 <= a /\ (loop_inv s -> slot_offset a)
                 /\ (avail_offset s <> -1 -> a = avail_offset s)).
      { intros a (H0 & Hslot & Hkeep).
        pose proof Hrel as (Hnt & Hk & Hn).
        repeat split; try assumption.
        - intros Hinv. apply Hslot. exact (loop_inv_step s s' Hinv Hrel).
        - intros Hne. rewrite <- (Hk Hne). apply Hkeep. rewrite (Hk Hne).
          exact Hne. }
      eapply hoare_weaken; [apply (IH s')|intros w [Hc _]; exact Hc|].
      intros [ret|] w; cbn; [|auto].
      intros [[Hne [Hc|(E & a & H0 & Hslot & Hkeep & Hc)]]
             |(E & a & H0 & Hslot & Hkeep & Hc)].
      * left. auto.
      * left. split; [exact Hne|]. right. split; [exact E|]. exists a.
        destruct (Hat a (conj H0 (conj Hslot Hkeep))) as (H1 & H2 & H3). auto.
      * right. split; [exact E|]. exists a.
        destruct (Hat a (conj H0 (conj Hslot Hkeep))) as (H1 & H2 & H3). auto.
Qed.

(** ** The loop comes to an end *)

Lemma hoare_true {A : Type} (P : world -> Prop) (m : M A) :
  hoare P m (fun _ _ => True).
Proof. intros w _. exact I. Qed.

Lemma store_body_continue (tag : list byte) (now skew : Z) (s : loop_state) :
  hoare (fun _ => True) (store_body tag now skew s)
    (fun o _ =>
       match o with
       | Continue s' => continue_rel s s'
       | Return _ => True
       end).
Proof.
  unfold store_body.
  destruct (next_table (table_offset s) (nrecords s)) as [[ret offset] n]
    eqn:Hnt.
  destruct (Z.eqb_spec ret 0) as [->|Hret]; cbn [negb];
    [|apply hoare_ret; auto].
  set (ind := (k5_siphash24 (firstn (Z.to_nat TAG_LEN) tag) (seed s)
               mod 2 ^ 64) mod n).
  assert (Hind : 0 < n -> 0 <= ind) by (intros Hn; apply Z.mod_pos_bound, Hn).
  clearbody ind.
  eapply hoare_bind; [apply hoare_true|]. intros [[ret r] nread].
  destruct (negb (ret =? 0)); [apply hoare_ret; auto|].
  destruct (is_repeat nread r tag); [apply hoare_ret; auto|].
  destruct (is_last nread r).
  - eapply hoare_bind; [apply hoare_true|]. intros x. apply hoare_ret. auto.
  - apply hoare_ret. intros w _. cbn [fst]. split; [exact Hnt|].
    cbn [avail_offset table_offset nrecords].
    destruct (choose_avail_cases (avail_offset s) (offset + ind * RECORD_LEN)
                nread r now skew) as [[Hne E]|[He [E|[E|E]]]].
    + split; [auto|contradiction].
    + split; [contradiction|]. intros _. left. exact E.
    + split; [contradiction|]. intros _. right. exists ind.
      split; [lia|exact Hind].
    + split; [contradiction|]. intros _. right. exists (ind + 1).
      split; [lia|]. intros Hn. specialize (Hind Hn). lia.
Qed.

Lemma reached_inv (tag : list byte) (now skew : Z) (s : loop_state)
    (w : world) :
  reached tag now skew s w -> loop_inv s.
Proof.
  induction 1 as [seed junk w|s s' w w' _ IH Hb]; [apply loop_inv_start|].
  pose proof (store_body_continue tag now skew s w I) as H.
  rewrite Hb in H. exact (loop_inv_step s s' IH H).
Qed.

Lemma store_loop_returns (fuel : nat) (tag : list byte) (now skew : Z) :
  forall (n : nat) (s : loop_state) (w : world),
    table_offset s = level_offset n -> nrecords s = level_capacity n ->
    (16 <= n + fuel)%nat ->
    fst (store_loop (S fuel) tag now skew s w) <> None.
Proof.
  induction fuel as [|fuel IH]; intros n s w Hoff Hcap Hfuel.
  - cbn [store_loop]. unfold mbind.
    pose proof (store_body_continue tag now skew s w I) as Hb.
    destruct (store_body tag now skew s w) as [[ret|s'] w1];
      cbn [fst snd] in *; [discriminate|].
    destruct Hb as [Hb _]. rewrite Hoff, Hcap, next_table_level in Hb.
    destruct (level_fits (S n)) eqn:Hfit; [|discriminate].
    apply level_fits_bound in Hfit. lia.
  - change (store_loop (S (S fuel)) tag now skew s w)
      with (mbind (store_body tag now skew s)
              (fun o => match o with
                        | Return ret => mret (Some ret)
                        | Continue s' => store_loop (S fuel) tag now skew s'
                        end) w).
    unfold mbind.
    pose proof (store_body_continue tag now skew s w I) as Hb.
    destruct (store_body tag now skew s w) as [[ret|s'] w1];
      cbn [fst snd] in *; [discriminate|].
    destruct Hb as [Hb _]. rewrite Hoff, Hcap, next_table_level in Hb.
    injection Hb as _ H1 H2.
    apply (IH (S n)); [auto|auto|lia].
Qed.

Lemma store_loop_start_returns (tag : list byte) (now skew : Z)
    (s : loop_state) (w : world) :
  table_offset s = -1 ->
  fst (store_loop table_bound tag now skew s w) <> None.
Proof.
  intros Hoff.
  change (store_loop table_bound tag now skew s w)
    with (mbind (store_body tag now skew s)
            (fun o => match o with
                      | Return ret => mret (Some ret)
                      | Continue s' => store_loop 31 tag now skew s'
                      end) w).
  unfold mbind.
  pose proof (store_body_continue tag now skew s w I) as Hb.
  destruct (store_body tag now skew s w) as [[ret|s'] w1];
    cbn [fst snd] in *; [discriminate|].
  destruct Hb as [Hb _].
  rewrite Hoff, next_table_start in Hb. injection Hb as _ H1 H2.
  apply (store_loop_returns 30 tag now skew 0); [auto|auto|lia].
Qed.

(** ** The hash seed *)

Lemma random_spec (context : krb5_context) (c : list byte) (p len : Z) :
  hoare (fun w => contents w = c /\ pos w = p)
    (krb5_c_random_make_octets context len)
    (fun r w' =>
       (contents w' = c /\ pos w' = p)
       /\ (fst r <> 0
           \/ r = (0, map (prng context) (seq 0 (Z.to_nat len))))).
Proof.
  intros w Hw. unfold krb5_c_random_make_octets, mbind.
  destruct (enter_spec (Call_random len) w) as (f & fs & ->).
  destruct f as [[e|n]|]; cbn; (split; [exact Hw|]);
    [left; lia|right; reflexivity|right; reflexivity].
Qed.

Lemma file_read_start_length (c : list byte) (n : nat) :
  (length (file_read c 0 n) < n)%nat ->
  length (file_read c 0 n) = length c /\ (length c < n)%nat.
Proof.
  unfold file_read. cbn [skipn]. rewrite length_firstn. lia.
Qed.

Lemma file_put_at_end (c d : list byte) : file_put c (length c) d = c ++ d.
Proof.
  destruct d as [|b d]; [cbn; now rewrite app_nil_r|].
  apply file_write_at_end.
Qed.

Lemma store_seed_spec (context : krb5_context) (c : list byte) :
  hoare (fun w => contents w = c /\ pos w = 0) (store_seed context)
    (fun r w' =>
       contents w' = c
       \/ (Z.of_nat (length c) < K5_HASH_SEED_LEN
           /\ exists n,
               (n <= Z.to_nat K5_HASH_SEED_LEN)%nat
               /\ contents w'
                  = c ++ firstn n
                           (map (prng context)
                              (seq 0 (Z.to_nat K5_HASH_SEED_LEN)))
               /\ ((n < Z.to_nat K5_HASH_SEED_LEN)%nat -> fst r = EIO))).
Proof.
  unfold store_seed.
  eapply hoare_bind; [apply (read_spec c 0)|]. intros [st seed]. cbn [fst snd].
  destruct (Z.ltb_spec st 0) as [Hneg|Hpos].
  { eapply hoare_bind; [apply get_errno_spec|]. intros e. apply hoare_ret.
    intros w [[Hc _] _]. left. exact Hc. }
  destruct (Z.ltb_spec st K5_HASH_SEED_LEN) as [Hshort|Hfull];
    [|apply hoare_ret; intros w [Hc _]; left; exact Hc].
  apply (hoare_assume
           (st = Z.of_nat (length (file_read c 0 (Z.to_nat K5_HASH_SEED_LEN))))).
  { intros w [_ [[E _]|[E1 [E2 _]]]]; [lia|]. subst seed. exact E2. }
  intros Hst.
  destruct (file_read_start_length c (Z.to_nat K5_HASH_SEED_LEN)) as [Hlen Hlt];
    [lia|].
  eapply hoare_bind.
  { eapply hoare_weaken;
      [apply (random_spec context c st)| |intros a w H; exact H].
    cbn beta. intros w [Hc [[E _]|[_ [_ Hp]]]]; [lia|]. split; [exact Hc|lia]. }
  intros [ret seed2]. cbn [fst].
  destruct (Z.eqb_spec ret 0) as [->|Hret]; cbn [negb];
    [|apply hoare_ret; intros w [[Hc _] _]; left; exact Hc].
  apply (hoare_assume
           (seed2 = map (prng context) (seq 0 (Z.to_nat K5_HASH_SEED_LEN)))).
  { intros w [_ [E|E]]; [contradiction|]. now injection E. }
  intros ->.
  eapply hoare_bind.
  { eapply hoare_weaken;
      [apply (write_spec c st)|intros w [H _]; exact H|intros a w H; exact H]. }
  intros st3.
  set (sd := map (prng context) (seq 0 (Z.to_nat K5_HASH_SEED_LEN))).
  assert (Hsd : length sd = Z.to_nat K5_HASH_SEED_LEN)
    by (unfold sd; now rewrite length_map, length_seq).
  assert (Hat : Z.to_nat st = length c) by lia.
  rewrite Hat.
  destruct (Z.ltb_spec st3 0) as [Hneg3|Hpos3].
  { eapply hoare_bind; [apply get_errno_spec|]. intros e. apply hoare_ret.
    intros w [[[_ [_ Hc]]|[[E _]|[E _]]] _]; [left; exact Hc|lia|lia]. }
  destruct (Z.eqb_spec st3 K5_HASH_SEED_LEN) as [E3|E3]; cbn [negb];
    apply hoare_ret; intros w [[E _]|[[E Hc]|[E Hc]]]; try lia;
    right; (split; [lia|]); rewrite file_put_at_end in Hc.
  - exists (Z.to_nat K5_HASH_SEED_LEN). split; [lia|].
    rewrite firstn_all2 by lia. split; [exact Hc|lia].
  - exists (Z.to_nat st3). split; [lia|]. split; [exact Hc|reflexivity].
Qed.

(** ** When no [write] is cut short *)

Lemma enter_quiet (c : list byte) (p : Z) (k : call) :
  hoare (fun w => contents w = c /\ pos w = p /\ no_short w) (enter k)
    (fun f w' =>
       (contents w' = c /\ pos w' = p /\ no_short w')
       /\ forall n, f <> Some (Short n)).
Proof.
  intros [ct q e f t] (Hc & Hp & Hq). cbn [contents pos] in Hc, Hp.
  unfold no_short in *. cbn [faults] in Hq. unfold enter. cbn [faults].
  destruct f as [|o fs]; cbn [fst snd contents pos faults].
  - repeat split; try assumption. discriminate.
  - repeat split; try assumption.
    + intros n Hin. apply (Hq n). right. exact Hin.
    + intros n ->. apply (Hq n). left. reflexivity.
Qed.

Lemma lseek_quiet (c : list byte) (offset : Z) :
  hoare (fun w => contents w = c /\ no_short w) (lseek offset)
    (fun _ w' => contents w' = c /\ no_short w').
Proof.
  intros w [Hc Hq]. unfold lseek, mbind.
  pose proof (enter_quiet c (pos w) (Call_lseek offset) w
                (conj Hc (conj eq_refl Hq))) as [(H1 & _ & H2) _].
  destruct (enter (Call_lseek offset) w) as [f w1]. cbn [fst snd] in *.
  destruct f as [[e|n]|]; [split; assumption| |];
    (destruct (offset <? 0); split; assumption).
Qed.

Lemma read_quiet (c : list byte) (count : Z) :
  hoare (fun w => contents w = c /\ no_short w) (read count)
    (fun _ w' => contents w' = c /\ no_short w').
Proof.
  intros w [Hc Hq]. unfold read, mbind.
  pose proof (enter_quiet c (pos w) (Call_read count) w
                (conj Hc (conj eq_refl Hq))) as [(H1 & _ & H2) _].
  destruct (enter (Call_read count) w) as [f w1]. cbn [fst snd] in *.
  destruct f as [[e|n]|]; split; assumption.
Qed.

Lemma random_quiet (context : krb5_context) (c : list byte) (len : Z) :
  hoare (fun w => contents w = c /\ no_short w)
    (krb5_c_random_make_octets context len)
    (fun r w' =>
       (contents w' = c /\ no_short w')
       /\ (fst r <> 0
           \/ snd r = map (prng context) (seq 0 (Z.to_nat len)))).
Proof.
  intros w [Hc Hq]. unfold krb5_c_random_make_octets, mbind.
  pose proof (enter_quiet c (pos w) (Call_random len) w
                (conj Hc (conj eq_refl Hq))) as [(H1 & _ & H2) _].
  destruct (enter (Call_random len) w) as [f w1]. cbn [fst snd] in *.
  destruct f as [[e|n]|]; cbn; (split; [split; assumption|]);
    [left; lia|right; reflexivity|right; reflexivity].
Qed.

Lemma write_quiet (c : list byte) (buf : list byte) :
  hoare (fun w => contents w = c /\ no_short w) (write buf)
    (fun st w' =>
       no_short w'
       /\ ((st = -1 /\ contents w' = c) \/ st = Z.of_nat (length buf))).
Proof.
  intros w [Hc Hq]. unfold write, mbind.
  pose proof (enter_quiet c (pos w) (Call_write buf) w
                (conj Hc (conj eq_refl Hq))) as [(H1 & _ & H2) Hf].
  destruct (enter (Call_write buf) w) as [f w1]. cbn [fst snd] in *.
  destruct f as [[e|n]|]; cbn [transferred fst snd].
  - split; [exact H2|]. left. split; [reflexivity|exact H1].
  - destruct (Hf n eq_refl).
  - split; [exact H2|]. right. reflexivity.
Qed.

Lemma get_errno_quiet (c : list byte) :
  hoare (fun w => contents w = c /\ no_short w) get_errno
    (fun _ w' => contents w' = c /\ no_short w').
Proof. intros w H. exact H. Qed.

Lemma read_records_quiet (c : list byte) (offset : Z) (out : records) :
  hoare (fun w => contents w = c /\ no_short w) (read_records offset out)
    (fun _ w' => contents w' = c /\ no_short w').
Proof.
  unfold read_records.
  eapply hoare_bind; [apply lseek_quiet|]. intros st.
  destruct (st =? -1).
  { eapply hoare_bind; [apply get_errno_quiet|]. intros e.
    apply hoare_ret. auto. }
  eapply hoare_bind; [apply read_quiet|]. intros [st2 buf].
  destruct (st2 =? -1).
  { eapply hoare_bind; [apply get_errno_quiet|]. intros e.
    apply hoare_ret. auto. }
  destruct (parse_records st2 buf out 0). apply hoare_ret. auto.
Qed.

Lemma write_record_quiet (c : list byte) (offset : Z) (tag : list byte)
    (timestamp : Z) :
  (12 <= length tag)%nat ->
  hoare (fun w => contents w = c /\ no_short w)
    (write_record offset tag timestamp)
    (fun ret w' => no_short w' /\ (ret <> 0 -> contents w' = c)).
Proof.
  intros Hlen. unfold write_record.
  eapply hoare_bind; [apply lseek_quiet|]. intros st.
  destruct (st =? -1).
  { intros w [Hc Hq]. cbn. auto. }
  eapply hoare_bind; [apply write_quiet|]. intros st2.
  rewrite (marshal_record_length tag timestamp Hlen).
  destruct (Z.eqb_spec st2 (-1)) as [E|E].
  { intros w [Hq [[_ Hc]|E2]]; [cbn; auto|lia]. }
  destruct (Z.eqb_spec st2 RECORD_LEN) as [E16|E16]; cbn [negb];
    apply hoare_ret; intros w [Hq [[E2 _]|E2]]; try contradiction.
  split; [exact Hq|]. intros H. contradiction.
Qed.

Lemma store_seed_quiet (context : krb5_context) (c : list byte) :
  hoare (fun w => contents w = c /\ no_short w) (store_seed context)
    (fun r w' => no_short w' /\ (fst r <> 0 -> contents w' = c)).
Proof.
  unfold store_seed.
  eapply hoare_bind; [apply read_quiet|]. intros [st seed].
  destruct (st <? 0).
  { intros w [Hc Hq]. cbn. auto. }
  destruct (st <? K5_HASH_SEED_LEN); [|apply hoare_ret; intros w [Hc Hq]; auto].
  eapply hoare_bind; [apply random_quiet|]. intros [ret seed2].
  cbn [fst snd].
  destruct (Z.eqb_spec ret 0) as [->|Hne]; cbn [negb];
    [|apply hoare_ret; intros w [[Hc Hq] _]; auto].
  apply (hoare_assume
           (seed2 = map (prng context) (seq 0 (Z.to_nat K5_HASH_SEED_LEN)))).
  { intros w [_ [E|E]]; [contradiction|exact E]. }
  intros ->.
  eapply hoare_bind;
    [eapply hoare_weaken;
       [apply (write_quiet c)|intros w [H _]; exact H|intros a w H; exact H]|].
  intros st3. rewrite length_map, length_seq, Z2Nat.id by lia.
  destruct (Z.ltb_spec st3 0) as [Hneg|Hpos].
  { intros w [Hq [[_ Hc]|E]]; cbn; [auto|lia]. }
  destruct (Z.eqb_spec st3 K5_HASH_SEED_LEN) as [E|E]; cbn [negb];
    apply hoare_ret; intros w [Hq [[E2 Hc]|E2]]; cbn [fst]; try lia;
    split; auto; try contradiction.
Qed.

Lemma store_body_quiet (c tag : list byte) (now skew : Z) (s : loop_state) :
  (12 <= length tag)%nat ->
  hoare (fun w => contents w = c /\ no_short w) (store_body tag now skew s)
    (fun o w' =>
       no_short w'
       /\ match o with
          | Continue _ => contents w' = c
          | Return ret => ret <> 0 -> contents w' = c
          end).
Proof.
  intros Hlen. unfold store_body.
  destruct (next_table (table_offset s) (nrecords s)) as [[ret offset] n].
  destruct (negb (ret =? 0)); [apply hoare_ret; intros w [Hc Hq]; auto|].
  eapply hoare_bind; [apply read_records_quiet|].
  intros [[ret' r] nread].
  destruct (negb (ret' =? 0)); [apply hoare_ret; intros w [Hc Hq]; auto|].
  destruct (is_repeat nread r tag);
    [apply hoare_ret; intros w [Hc Hq]; auto|].
  destruct (is_last nread r); [|apply hoare_ret; intros w [Hc Hq]; auto].
  eapply hoare_bind; [apply (write_record_quiet c _ tag now Hlen)|].
  intros ret''. apply hoare_ret. auto.
Qed.

Lemma store_loop_quiet (fuel : nat) (c tag : list byte) (now skew : Z)
    (s : loop_state) :
  (12 <= length tag)%nat ->
  hoare (fun w => contents w = c /\ no_short w)
    (store_loop fuel tag now skew s)
    (fun r w' => forall ret, r = Some ret -> ret <> 0 -> contents w' = c).
Proof.
  intros Hlen. revert s. induction fuel as [|fuel IH]; intros s;
    cbn [store_loop].
  - apply hoare_ret. intros w _ ret H. discriminate H.
  - eapply hoare_bind; [apply (store_body_quiet c tag now skew s Hlen)|].
    intros [ret|s'].
    + apply hoare_ret. intros w [_ H] r [= <-]. exact H.
    + eapply hoare_weaken;
        [apply IH|intros w [Hq Hc]; auto|intros a w H; exact H].
Qed.

(** ** The insertion as a whole *)

(** C9 (amended). A call of [store] on a descriptor at offset 0 returns,
    whichever calls fail or are cut short.  When it succeeds it has written
    exactly one 16-byte record at one slot offset and left every byte the
    file had outside that record unchanged.  When it fails it has written
    no record, unless a [write] was cut short: it then returns EIO and
    leaves the bytes transferred, the first bytes of the record at its
    slot offset or the first bytes of the seed.  The only other bytes
    written are those of a freshly generated seed, appended when the file
    was shorter than a seed. *)
Theorem store_atomic (context : krb5_context) (junk : records)
    (tag : list byte) (now skew : Z) (w : world) :
  length tag = 12%nat -> pos w = 0 ->
  let c := contents w in
  let seed := map (prng context) (seq 0 (Z.to_nat K5_HASH_SEED_LEN)) in
  let record := marshal_record tag now in
  let c1 := contents (snd (store_seed context w)) in
  exists ret w',
    store context junk tag now skew w = (Some ret, w')
    /\ (c1 = c
        \/ (Z.of_nat (length c) < K5_HASH_SEED_LEN
            /\ exists n,
                (n <= length seed)%nat
                /\ c1 = c ++ firstn n seed
                /\ ((n < length seed)%nat -> ret = EIO /\ contents w' = c1)))
    /\ (ret = 0 ->
        exists a,
          slot_offset a
          /\ length record = 16%nat
          /\ contents w' = file_write c1 (Z.to_nat a) record
          /\ forall i,
               (i < length c)%nat ->
               (i < Z.to_nat a \/ Z.to_nat a + 16 <= i)%nat ->
               nth_error (contents w') i = nth_error c i)
    /\ (ret <> 0 ->
        contents w' = c1
        \/ (ret = EIO
            /\ exists a n,
                slot_offset a /\ (n < 16)%nat
                /\ contents w' = file_put c1 (Z.to_nat a) (firstn n record)))
    /\ (no_short w -> ret <> 0 ->
        contents w' = c1 /\ (c1 = c \/ c1 = c ++ seed)).
Proof.
  intros Hlen Hpos c seed record c1.
  assert (Hlen' : (12 <= length tag)%nat) by lia.
  assert (Hsd : length seed = Z.to_nat K5_HASH_SEED_LEN)
    by (unfold seed; now rewrite length_map, length_seq).
  pose proof (store_seed_spec context c w (conj eq_refl Hpos)) as Hseed.
  pose proof (fun H => store_seed_quiet context c w (conj eq_refl H))
    as Hquiet.
  cbv beta in Hseed, Hquiet. fold c1 in Hseed, Hquiet. fold seed in Hseed.
  unfold store, mbind. subst c1.
  destruct (store_seed context w) as [[ret sd] w1]. cbn [fst snd] in *.
  destruct (Z.eqb_spec ret 0) as [->|Hret]; cbn [negb].
  { (* the seed step succeeded *)
    set (s0 := mkLoop (-1) 0 (-1) sd junk).
    pose proof (store_loop_spec table_bound (contents w1) tag now skew s0
                  Hlen' w1 eq_refl) as Hloop.
    pose proof (fun H => store_loop_quiet table_bound (contents w1) tag now
                           skew s0 Hlen' w1 (conj eq_refl H)) as Hlq.
    pose proof (store_loop_start_returns tag now skew s0 w1 eq_refl) as Hsome.
    destruct (store_loop table_bound tag now skew s0 w1) as [[r|] w2];
      cbn [fst snd] in *; [|contradiction].
    exists r, w2. split; [reflexivity|].
    assert (Hfull : contents w1 = c
                    \/ (Z.of_nat (length c) < K5_HASH_SEED_LEN
                        /\ contents w1 = c ++ seed)).
    { destruct Hseed as [E|(Hshort & n & Hn & E & Hio)]; [left; exact E|].
      right. split; [exact Hshort|].
      destruct (Nat.eq_dec n (Z.to_nat K5_HASH_SEED_LEN)) as [->|Hne].
      - now rewrite firstn_all2 in E by lia.
      - discriminate Hio. lia. }
    split; [|split; [|split]].
    - destruct Hfull as [E|[Hshort E]]; [left; exact E|right].
      split; [exact Hshort|]. exists (length seed).
      split; [lia|]. rewrite firstn_all. split; [exact E|lia].
    - intros ->.
      destruct Hloop as [[Hne _]|(_ & a & H0 & Hslot & _ & Hc)];
        [contradiction|].
      exists a. split; [apply Hslot, loop_inv_start|].
      split; [apply marshal_record_length, Hlen'|].
      split; [exact Hc|].
      intros i Hi Hout. rewrite Hc.
      assert (Hpre : nth_error (contents w1) i = nth_error c i
                     /\ (i < length (contents w1))%nat).
      { destruct Hfull as [->|[_ ->]]; [auto|].
        rewrite nth_error_app1 by exact Hi. rewrite length_app.
        split; [auto|lia]. }
      destruct Hpre as [<- Hi1]. apply file_write_frame; [exact Hi1|].
      unfold record. rewrite marshal_record_length by exact Hlen'. exact Hout.
    - intros Hne.
      destruct Hloop as [[_ [Hc|(E & a & H0 & Hslot & _ & n & Hn & Hc)]]
                        |[E _]]; [left; exact Hc| |contradiction].
      right. split; [exact E|]. exists a, n.
      split; [apply Hslot, loop_inv_start|].
      unfold record in *. rewrite marshal_record_length in Hn by exact Hlen'.
      split; [exact Hn|exact Hc].
    - intros Hq Hne.
      assert (Hq1 : no_short w1) by (apply Hquiet; exact Hq).
      split; [exact (Hlq Hq1 r eq_refl Hne)|].
      destruct Hfull as [E|[_ E]]; auto. }
  (* the seed step failed *)
  exists ret, w1. split; [reflexivity|]. split; [|split; [|split]].
  - destruct Hseed as [E|(Hshort & n & Hn & E & Hio)]; [left; exact E|right].
    split; [exact Hshort|]. exists n. split; [lia|]. split; [exact E|].
    intros Hlt. split; [apply Hio; lia|reflexivity].
  - intros E. contradiction.
  - intros _. left. reflexivity.
  - intros Hq _. split; [reflexivity|]. left. apply Hquiet; assumption.
Qed.

(** ** The slot kept for the record *)

Lemma store_loop_inv_returns (fuel : nat) (tag : list byte) (now skew : Z)
    (s : loop_state) (w : world) :
  loop_inv s -> (18 <= fuel)%nat ->
  fst (store_loop fuel tag now skew s w) <> None.
Proof.
  intros [[Hoff|(n & Hoff & Hcap)] _] Hfuel.
  - destruct fuel as [|[|fuel]]; [lia|lia|].
    change (store_loop (S (S fuel)) tag now skew s w)
      with (mbind (store_body tag now skew s)
              (fun o => match o with
                        | Return ret => mret (Some ret)
                        | Continue s' => store_loop (S fuel) tag now skew s'
                        end) w).
    unfold mbind.
    pose proof (store_body_continue tag now skew s w I) as Hb.
    destruct (store_body tag now skew s w) as [[ret|s'] w1];
      cbn [fst snd] in *; [discriminate|].
    destruct Hb as [Hb _].
    rewrite Hoff, next_table_start in Hb. injection Hb as _ H1 H2.
    apply (store_loop_returns fuel tag now skew 0); [auto|auto|lia].
  - destruct fuel as [|fuel]; [lia|].
    apply (store_loop_returns fuel tag now skew n); [auto|auto|lia].
Qed.

(** C7. The slot kept for the record is the one offered by the earliest
    level that offers one.  At every iteration the loop of [store] reaches,
    once the records are read and show no replay: a slot kept before is
    kept, whatever this level offers; when none was kept, the slot this
    level offers is (lines 174-177: its first slot when no record was read
    there or the first record has expired, else its second slot when one
    record was read or the second has expired).  The loop then comes to an
    end, at this level or a later one, and when a slot is kept the record
    is written there and nowhere else: on success the file is the old one
    with the record at that slot; on failure it is unchanged, or a [write]
    cut short has left the first bytes of the record at that slot. *)
Theorem avail_kept (fuel : nat) (tag : list byte) (now skew : Z)
    (s : loop_state) (w w1 : world) (offset n : Z) (r : records) (nread : Z) :
  length tag = 12%nat ->
  reached tag now skew s w ->
  (table_bound <= fuel)%nat ->
  next_table (table_offset s) (nrecords s) = (0, offset, n) ->
  let record_offset :=
    offset
    + ((k5_siphash24 (firstn (Z.to_nat TAG_LEN) tag) (seed s) mod 2 ^ 64)
       mod n) * RECORD_LEN in
  read_records record_offset (recs s) w = (0, r, nread, w1) ->
  is_repeat nread r tag = false ->
  let offered :=
    if (nread =? 0) || ts_after now (ts_incr (rec1_stamp r) skew) then
      record_offset
    else if (nread =? 1) || ts_after now (ts_incr (rec2_stamp r) skew) then
      record_offset + RECORD_LEN
    else -1 in
  let a := if avail_offset s =? -1 then offered else avail_offset s in
  (is_last nread r = false ->
   store_body tag now skew s w
   = (Continue (mkLoop offset n a (seed_incr (seed s)) r), w1))
  /\ (is_last nread r = true ->
      store_body tag now skew s w
      = (let (ret, w2) := write_record a tag now w1 in (Return ret, w2)))
  /\ (a <> -1 ->
      exists ret w',
        store_loop fuel tag now skew s w = (Some ret, w')
        /\ (ret = 0 ->
            contents w'
            = file_write (contents w) (Z.to_nat a) (marshal_record tag now))
        /\ (ret <> 0 ->
            contents w' = contents w
            \/ (ret = EIO
                /\ cut_short (contents w) a (marshal_record tag now)
                     (contents w')))
        /\ (no_short w -> ret <> 0 -> contents w' = contents w)).
Proof.
  intros Hlen Hreach Hfuel Hnt record_offset Hread Hrep offered a.
  assert (Hlen' : (12 <= length tag)%nat) by lia.
  pose proof (reached_inv tag now skew s w Hreach) as Hinv.
  assert (Ha : choose_avail (avail_offset s) record_offset nread r now skew
               = a).
  { unfold choose_avail, a, offered.
    destruct (Z.eqb_spec (avail_offset s) (-1)) as [E|E]; [|reflexivity].
    destruct ((nread =? 0) || ts_after now (ts_incr (rec1_stamp r) skew));
      [reflexivity|].
    destruct ((nread =? 1) || ts_after now (ts_incr (rec2_stamp r) skew));
      [reflexivity|exact E]. }
  assert (Hbody : store_body tag now skew s w
                  = if is_last nread r then
                      (let (ret, w2) := write_record a tag now w1 in
                       (Return ret, w2))
                    else
                      (Continue (mkLoop offset n a (seed_incr (seed s)) r),
                       w1)).
  { unfold store_body. rewrite Hnt. cbn [Z.eqb negb]. unfold mbind.
    fold record_offset. rewrite Hread. cbn [Z.eqb negb].
    rewrite Hrep, Ha. destruct (is_last nread r); reflexivity. }
  split; [intros Hlast; rewrite Hbody, Hlast; reflexivity|].
  split; [intros Hlast; rewrite Hbody, Hlast; reflexivity|].
  intros Hset.
  pose proof (store_loop_inv_returns fuel tag now skew s w Hinv) as Hsome.
  unfold table_bound in Hfuel. specialize (Hsome ltac:(lia)).
  destruct fuel as [|fuel]; [lia|].
  assert (Hc1 : contents w1 = contents w).
  { match type of Hread with
    | read_records ?ro _ _ = _ =>
        pose proof (read_records_spec (contents w) ro (recs s) w eq_refl) as H
    end.
    rewrite Hread in H. apply H. }
  assert (Hq1 : no_short w -> no_short w1).
  { intros Hq.
    match type of Hread with
    | read_records ?ro _ _ = _ =>
        pose proof (read_records_quiet (contents w) ro (recs s) w
                      (conj eq_refl Hq)) as H
    end.
    rewrite Hread in H. apply H. }
  cbn [store_loop] in Hsome |- *. unfold mbind in Hsome |- *.
  rewrite Hbody in Hsome |- *.
  destruct (is_last nread r).
  - (* the loop ends at this level *)
    pose proof (write_record_spec (contents w) a tag now Hlen' w1 Hc1) as Hw.
    pose proof (fun H => write_record_quiet (contents w) a tag now Hlen' w1
                           (conj Hc1 (Hq1 H))) as Hwq.
    destruct (write_record a tag now w1) as [ret w2]. cbn [fst snd] in *.
    exists ret, w2. split; [reflexivity|]. split; [|split].
    + intros ->. destruct Hw as [[Hne _]|(_ & _ & Hc)]; [contradiction|].
      exact Hc.
    + intros Hne.
      destruct Hw as [[_ [Hc|(E & _ & Hc)]]|[E _]];
        [left; exact Hc|right; auto|contradiction].
    + intros Hq Hne. exact (proj2 (Hwq Hq) Hne).
  - (* a later level ends the loop *)
    set (s' := mkLoop offset n a (seed_incr (seed s)) r) in *.
    pose proof (store_loop_spec fuel (contents w) tag now skew s' Hlen' w1
                  Hc1) as Hl.
    pose proof (fun H => store_loop_quiet fuel (contents w) tag now skew s'
                           Hlen' w1 (conj Hc1 (Hq1 H))) as Hlq.
    destruct (store_loop fuel tag now skew s' w1) as [[ret|] w2];
      cbn [fst snd] in *; [|contradiction].
    exists ret, w2. split; [reflexivity|]. split; [|split].
    + intros ->.
      destruct Hl as [[Hne _]|(_ & a0 & _ & _ & Hkeep & Hc)];
        [contradiction|].
      assert (E0 : a0 = a) by (apply Hkeep; exact Hset).
      rewrite <- E0. exact Hc.
    + intros Hne.
      destruct Hl as [[_ [Hc|(E & a0 & _ & _ & Hkeep & Hc)]]|[E _]];
        [left; exact Hc| |contradiction].
      assert (E0 : a0 = a) by (apply Hkeep; exact Hset).
      right. split; [exact E|]. rewrite <- E0. exact Hc.
    + intros Hq Hne. exact (Hlq Hq ret eq_refl Hne).
Qed.

Lemma memcmp_refl (n : nat) (a : list byte) :
  length a = n -> memcmp a a n = 0.
Proof.
  intros H. rewrite <- (app_nil_r a). now apply memcmp_same.
Qed.

(** C6. When a record read at the probed level carries the input tag, the
    iteration returns KRB5KRB_AP_ERR_REPEAT in the world left by that read:
    whatever [avail_offset], the time and the skew are, nothing is written
    and no further level is probed. *)
Theorem replay_returns_at_once (fuel : nat) (tag : list byte) (now skew : Z)
    (s : loop_state) (w w1 : world) (offset n : Z) (r : records) (nread : Z) :
  length tag = 12%nat ->
  next_table (table_offset s) (nrecords s) = (0, offset, n) ->
  read_records
    (offset
     + ((k5_siphash24 (firstn (Z.to_nat TAG_LEN) tag) (seed s) mod 2 ^ 64)
        mod n) * RECORD_LEN) (recs s) w
  = (0, r, nread, w1) ->
  (1 <= nread /\ rec1_tag r = tag) \/ (nread = 2 /\ rec2_tag r = tag) ->
  store_body tag now skew s w = (Return KRB5KRB_AP_ERR_REPEAT, w1)
  /\ store_loop (S fuel) tag now skew s w = (Some KRB5KRB_AP_ERR_REPEAT, w1)
  /\ contents w1 = contents w.
Proof.
  intros Hlen Hnt Hread Hdup.
  assert (Hrep : is_repeat nread r tag = true).
  { unfold is_repeat. change (Z.to_nat TAG_LEN) with 12%nat.
    destruct Hdup as [[Hn ->]|[-> ->]]; rewrite memcmp_refl by exact Hlen.
    - replace (nread >=? 1) with true; [reflexivity|].
      symmetry. apply Z.geb_le. lia.
    - apply orb_true_r. }
  assert (Hbody : store_body tag now skew s w
                  = (Return KRB5KRB_AP_ERR_REPEAT, w1)).
  { unfold store_body. rewrite Hnt. cbn [Z.eqb negb]. unfold mbind.
    rewrite Hread. cbn [Z.eqb negb]. rewrite Hrep. reflexivity. }
  split; [exact Hbody|]. split.
  - cbn [store_loop]. unfold mbind. rewrite Hbody. reflexivity.
  - match type of Hread with
    | read_records ?ro _ _ = _ =>
        pose proof (read_records_spec (contents w) ro (recs s) w eq_refl) as H
    end.
    rewrite Hread in H. apply H.
Qed.

(** What lines 174-177 do ensure.  With a skew smaller than the current
    time, whenever the stop condition holds in an iteration the loop of
    [store] reaches -- fewer than two records read, or a zero timestamp --
    [avail_offset] has been set in that iteration or before: [write_record]
    is called with a slot offset, never with -1.  The bound on the skew is
    needed: a zero timestamp plus a skew of [now] or more is not before
    [now]. *)
Theorem avail_set_at_stop (tag : list byte) (now skew : Z)
    (s : loop_state) (w w1 : world) (offset n : Z) (r : records) (nread : Z) :
  reached tag now skew s w -> 0 <= skew < now ->
  next_table (table_offset s) (nrecords s) = (0, offset, n) ->
  let record_offset :=
    offset
    + ((k5_siphash24 (firstn (Z.to_nat TAG_LEN) tag) (seed s) mod 2 ^ 64)
       mod n) * RECORD_LEN in
  read_records record_offset (recs s) w = (0, r, nread, w1) ->
  is_repeat nread r tag = false ->
  is_last nread r = true ->
  let a := choose_avail (avail_offset s) record_offset nread r now skew in
  a <> -1
  /\ slot_offset a
  /\ store_body tag now skew s w
     = (let (ret, w2) := write_record a tag now w1 in (Return ret, w2)).
Proof.
  intros Hreach Hskew Hnt record_offset Hread Hrep Hlast a.
  pose proof (reached_inv tag now skew s w Hreach) as Hinv.
  assert (Hbody : store_body tag now skew s w
                  = (let (ret, w2) := write_record a tag now w1 in
                     (Return ret, w2))).
  { unfold store_body. rewrite Hnt. cbn [Z.eqb negb]. unfold mbind.
    fold record_offset. rewrite Hread. cbn [Z.eqb negb].
    rewrite Hrep, Hlast. fold a. reflexivity. }
  assert (Hn : 0 <= nread <= 2).
  { pose proof (read_records_spec (contents w) record_offset (recs s) w
                  eq_refl) as H.
    rewrite Hread in H. apply H. }
  destruct (table_step_level s _ _ Hinv Hnt) as (m & E1 & E2).
  assert (Hslot : slot_offset a).
  { destruct (Z.eq_dec (avail_offset s) (-1)) as [E|E].
    - pose proof (level_capacity_lower m) as Hcap.
      assert (Hind : 0 <= (k5_siphash24 (firstn (Z.to_nat TAG_LEN) tag)
                             (seed s) mod 2 ^ 64) mod n)
        by (apply Z.mod_pos_bound; lia).
      destruct (choose_avail_at_stop (avail_offset s) record_offset nread r
                  now skew Hskew Hn Hlast E) as [Ha|Ha];
        fold a in Ha; rewrite Ha; unfold record_offset; rewrite E1.
      + rewrite Z.mul_comm. apply slot_in_level. auto.
      + replace (_ + _ * RECORD_LEN + RECORD_LEN)
          with (level_offset m + RECORD_LEN
                * ((k5_siphash24 (firstn (Z.to_nat TAG_LEN) tag) (seed s)
                    mod 2 ^ 64) mod n + 1)) by lia.
        apply slot_in_level. lia.
    - destruct (choose_avail_cases (avail_offset s) record_offset nread r
                  now skew) as [[_ Ha]|[Ha _]]; [|contradiction].
      fold a in Ha. rewrite Ha. destruct Hinv as [_ [E'|Hs]];
        [contradiction|exact Hs]. }
  split; [|split; [exact Hslot|exact Hbody]].
  destruct Hslot as (k & Hk & Ha). unfold RECORD_LEN, TAG_LEN in Ha. lia.
Qed.

(** ** The seed on a descriptor without failures *)

Lemma random_ok (context : krb5_context) c p e t (len : Z) :
  krb5_c_random_make_octets context len (mkWorld c p e [] t)
  = ((0, map (prng context) (seq 0 (Z.to_nat len))),
     mkWorld c p e [] (Call_random len :: t)).
Proof. reflexivity. Qed.

Lemma timeofday_ok (context : krb5_context) c p e t :
  krb5_timeofday context (mkWorld c p e [] t)
  = ((0, os_clock context), mkWorld c p e [] (Call_timeofday :: t)).
Proof. reflexivity. Qed.

Lemma lock_ok c p e t :
  krb5_lock_file (mkWorld c p e [] t)
  = (0, mkWorld c p e [] (Call_lock :: t)).
Proof. reflexivity. Qed.

Lemma fresh_seed_length (context : krb5_context) :
  Z.of_nat (length (map (prng context) (seq 0 (Z.to_nat K5_HASH_SEED_LEN))))
  = K5_HASH_SEED_LEN.
Proof. rewrite length_map, length_seq. lia. Qed.

Lemma store_seed_short (context : krb5_context) c e t :
  Z.of_nat (length c) < K5_HASH_SEED_LEN ->
  store_seed context (mkWorld c 0 e [] t)
  = (let seed := map (prng context) (seq 0 (Z.to_nat K5_HASH_SEED_LEN)) in
     ((0, seed),
      mkWorld (file_write c (length c) seed)
        (Z.of_nat (length c) + K5_HASH_SEED_LEN) e []
        (Call_write seed :: Call_random K5_HASH_SEED_LEN
           :: Call_read K5_HASH_SEED_LEN :: t))).
Proof.
  intros Hshort. unfold store_seed, mbind. rewrite read_ok.
  change (Z.to_nat 0) with 0%nat. unfold file_read. cbn [skipn].
  cbv beta iota zeta.
  rewrite firstn_all2 by lia.
  destruct (Z.ltb_spec (Z.of_nat (length c)) 0) as [H|_]; [lia|].
  destruct (Z.ltb_spec (Z.of_nat (length c)) K5_HASH_SEED_LEN) as [_|H];
    [|lia].
  rewrite random_ok. cbv beta iota zeta. cbn [Z.eqb negb].
  rewrite write_ok by (rewrite length_map, length_seq; lia).
  rewrite fresh_seed_length.
  destruct (Z.ltb_spec K5_HASH_SEED_LEN 0) as [H|_]; [lia|].
  rewrite Z.eqb_refl. cbn [negb]. unfold mret.
  rewrite Z.add_0_l, Nat2Z.id. reflexivity.
Qed.

Lemma store_seed_full (context : krb5_context) c e t :
  K5_HASH_SEED_LEN <= Z.of_nat (length c) ->
  store_seed context (mkWorld c 0 e [] t)
  = ((0, firstn (Z.to_nat K5_HASH_SEED_LEN) c),
     mkWorld c K5_HASH_SEED_LEN e [] (Call_read K5_HASH_SEED_LEN :: t)).
Proof.
  intros Hfull. unfold store_seed, mbind. rewrite read_ok.
  change (Z.to_nat 0) with 0%nat. unfold file_read. cbn [skipn].
  cbv beta iota zeta.
  rewrite length_firstn, Nat.min_l by lia. rewrite Z2Nat.id by lia.
  destruct (Z.ltb_spec K5_HASH_SEED_LEN 0) as [H|_]; [lia|].
  rewrite Z.ltb_irrefl. unfold mret. rewrite Z.add_0_l. reflexivity.
Qed.

(** C10. When the file holds [st] bytes, fewer than a seed, the read
    leaves the descriptor at offset [st] and the fresh seed is written
    there, after the bytes already in the file.  The first
    [K5_HASH_SEED_LEN] bytes of the file are then the old bytes followed by
    the head of the seed; they are the seed used for hashing, whatever the
    random generator returns, only when the file was empty. *)
Theorem seed_written_at_read_offset (context : krb5_context) (w : world) :
  pos w = 0 -> faults w = [] ->
  Z.of_nat (length (contents w)) < K5_HASH_SEED_LEN ->
  let st := length (contents w) in
  let seed := map (prng context) (seq 0 (Z.to_nat K5_HASH_SEED_LEN)) in
  let w' := snd (store_seed context w) in
  fst (read K5_HASH_SEED_LEN w) = (Z.of_nat st, contents w)
  /\ pos (snd (read K5_HASH_SEED_LEN w)) = Z.of_nat st
  /\ fst (store_seed context w) = (0, seed)
  /\ trace w'
     = Call_write seed :: Call_random K5_HASH_SEED_LEN
         :: Call_read K5_HASH_SEED_LEN :: trace w
  /\ contents w' = file_write (contents w) st seed
  /\ contents w' = contents w ++ seed
  /\ firstn (Z.to_nat K5_HASH_SEED_LEN) (contents w')
     = contents w ++ firstn (Z.to_nat K5_HASH_SEED_LEN - st) seed
  /\ ((forall context' : krb5_context,
         firstn (Z.to_nat K5_HASH_SEED_LEN)
           (contents (snd (store_seed context' w)))
         = snd (fst (store_seed context' w)))
      <-> st = 0%nat).
Proof.
  destruct w as [c p e f t]. intros Hp Hf Hshort st seed w'.
  cbn [pos faults contents trace] in *. subst p f w' st seed.
  assert (Hrun : forall context' : krb5_context,
             store_seed context' (mkWorld c 0 e [] t)
             = (let seed :=
                  map (prng context') (seq 0 (Z.to_nat K5_HASH_SEED_LEN)) in
                ((0, seed),
                 mkWorld (c ++ seed) (Z.of_nat (length c) + K5_HASH_SEED_LEN)
                   e []
                   (Call_write seed :: Call_random K5_HASH_SEED_LEN
                      :: Call_read K5_HASH_SEED_LEN :: t)))).
  { intros context'. rewrite store_seed_short by exact Hshort.
    cbv zeta. now rewrite file_write_at_end. }
  assert (Hseedlen : forall context' : krb5_context,
             length (map (prng context')
                       (seq 0 (Z.to_nat K5_HASH_SEED_LEN)))
             = Z.to_nat K5_HASH_SEED_LEN)
    by (intros; now rewrite length_map, length_seq).
  rewrite read_ok, Hrun. cbv zeta. cbn [fst snd pos contents trace].
  change (Z.to_nat 0) with 0%nat. unfold file_read. cbn [skipn].
  rewrite firstn_all2 by lia. rewrite Z.add_0_l.
  repeat (split; [reflexivity || (now rewrite file_write_at_end)|]).
  split.
  { rewrite firstn_app. rewrite firstn_all2 by lia. reflexivity. }
  split.
  - intros Hall.
    destruct c as [|b c']; [reflexivity|exfalso].
    set (b' := if Byte.eqb b x00 then x01 else x00).
    specialize (Hall (mkContext 0 0 (fun _ => b'))).
    rewrite Hrun in Hall. cbv zeta in Hall. cbn [fst snd contents prng] in Hall.
    destruct (Z.to_nat K5_HASH_SEED_LEN) as [|k] eqn:Hk;
      [cbn [length] in Hshort; lia|].
    cbn in Hall. injection Hall as Hb _.
    subst b'. destruct (Byte.eqb b x00) eqn:E.
    + apply Byte.byte_dec_bl in E. subst b. discriminate.
    + subst b. discriminate.
  - intros Hst context'.
    destruct c; [|discriminate].
    rewrite Hrun. cbv zeta. cbn [fst snd contents app].
    apply firstn_all2. rewrite Hseedlen. lia.
Qed.

(** C8. [k5_rcfile2_store] returns EINVAL on an empty tag without making
    any call, so before any lock is taken.  A tag that is not empty is
    copied into exactly 12 bytes -- its first 12 bytes, or all of it
    followed by zero bytes -- and that is the tag [store] is called with,
    once the time is known and the lock is held. *)
Theorem k5_rcfile2_store_tag (context : krb5_context) (junk : records)
    (rep : krb5_donot_replay) (w : world) :
  (tag rep = [] ->
   k5_rcfile2_store context junk rep w = (Some EINVAL, w))
  /\ (tag rep <> [] ->
      length (copy_tag (tag rep)) = 12%nat
      /\ copy_tag (tag rep) = firstn 12 (tag rep ++ repeat x00 12)
      /\ ((12 <= length (tag rep))%nat ->
          copy_tag (tag rep) = firstn 12 (tag rep))
      /\ ((length (tag rep) < 12)%nat ->
          copy_tag (tag rep)
          = tag rep ++ repeat x00 (12 - length (tag rep)))
      /\ (faults w = [] ->
          k5_rcfile2_store context junk rep w
          = (let locked :=
               mkWorld (contents w) (pos w) (errno w) []
                 (Call_lock :: Call_timeofday :: trace w) in
             let (ret, w') :=
               store context junk (copy_tag (tag rep))
                 (os_clock context mod 2 ^ 32)
                 (clockskew context mod 2 ^ 32) locked in
             (ret, snd (krb5_unlock_file w'))))).
Proof.
  split.
  - intros E. unfold k5_rcfile2_store. rewrite E. reflexivity.
  - intros Hne.
    assert (Hlong : (12 <= length (tag rep))%nat ->
                    copy_tag (tag rep) = firstn 12 (tag rep)).
    { intros H. unfold copy_tag. change TAG_LEN with 12.
      destruct (Z.geb_spec (Z.of_nat (length (tag rep))) 12); [reflexivity|lia]. }
    assert (Hshort : (length (tag rep) < 12)%nat ->
                     copy_tag (tag rep)
                     = tag rep ++ repeat x00 (12 - length (tag rep))).
    { intros H. unfold copy_tag. change TAG_LEN with 12.
      destruct (Z.geb_spec (Z.of_nat (length (tag rep))) 12); [lia|].
      rewrite Nat2Z.id, firstn_all. f_equal. f_equal. lia. }
    split; [|split; [|split; [exact Hlong|split; [exact Hshort|]]]].
    + destruct (Nat.le_gt_cases 12 (length (tag rep))) as [H|H].
      * rewrite (Hlong H), length_firstn. lia.
      * rewrite (Hshort H), length_app, repeat_length. lia.
    + destruct (Nat.le_gt_cases 12 (length (tag rep))) as [H|H].
      * rewrite (Hlong H), firstn_app.
        replace (12 - length (tag rep))%nat with 0%nat by lia.
        cbn [firstn]. now rewrite app_nil_r.
      * rewrite (Hshort H), firstn_app, firstn_all2 by lia. f_equal.
        assert (Hk : forall a b : nat, (a <= b)%nat ->
                       firstn a (repeat x00 b) = repeat x00 a).
        { induction a as [|a IH]; intros [|b] Hab; try reflexivity; [lia|].
          cbn. f_equal. apply IH. lia. }
        symmetry. apply Hk. lia.
    + intros Hf. destruct w as [c p e f t]. cbn in Hf. subst f.
      unfold k5_rcfile2_store.
      destruct (Z.eqb_spec (Z.of_nat (length (tag rep))) 0) as [E|_].
      { destruct (tag rep); [contradiction|discriminate]. }
      unfold mbind. rewrite timeofday_ok. cbn [Z.eqb negb].
      rewrite lock_ok. cbn [Z.eqb negb contents pos errno].
      destruct (store context junk (copy_tag (tag rep)) _ _ _) as [ret w'].
      destruct (krb5_unlock_file w') as [u w2]. reflexivity.
Qed.

(** ** Two insertions of one tag into a new cache *)

Lemma store_body_ok (tag : list byte) (now skew : Z) (s : loop_state)
    c p e t (offset n : Z) :
  next_table (table_offset s) (nrecords s) = (0, offset, n) ->
  0 <= offset -> 0 < n ->
  store_body tag now skew s (mkWorld c p e [] t)
  = (let ro :=
       offset
       + ((k5_siphash24 (firstn (Z.to_nat TAG_LEN) tag) (seed s) mod 2 ^ 64)
          mod n) * RECORD_LEN in
     let d := file_read c (Z.to_nat ro) 32 in
     let st := Z.of_nat (length d) in
     let pr := parse_records st d (recs s) 0 in
     let w1 :=
       mkWorld c (ro + st) e []
         (Call_read (RECORD_LEN * 2) :: Call_lseek ro :: t) in
     if is_repeat (snd pr) (fst pr) tag then
       (Return KRB5KRB_AP_ERR_REPEAT, w1)
     else
       let a := choose_avail (avail_offset s) ro (snd pr) (fst pr) now skew in
       if is_last (snd pr) (fst pr) then
         (let (ret, w2) := write_record a tag now w1 in (Return ret, w2))
       else
         (Continue (mkLoop offset n a (seed_incr (seed s)) (fst pr)), w1)).
Proof.
  intros Hnt Hoff Hn. unfold store_body. rewrite Hnt. cbn [Z.eqb negb].
  unfold mbind.
  assert (Hind : 0 <= (k5_siphash24 (firstn (Z.to_nat TAG_LEN) tag) (seed s)
                       mod 2 ^ 64) mod n)
    by (apply Z.mod_pos_bound; lia).
  rewrite read_records_ok by (change RECORD_LEN with 16; lia).
  cbv zeta. cbn [Z.eqb negb].
  destruct (is_repeat _ _ tag); [reflexivity|].
  destruct (is_last _ _); reflexivity.
Qed.

Lemma first_table_fits (nrecords : Z) :
  K5_HASH_SEED_LEN + 16368 <= MAX_SIZE ->
  next_table (-1) nrecords = (0, K5_HASH_SEED_LEN, 1023).
Proof.
  intros Hfit. rewrite next_table_first. unfold table_code.
  change (FIRST_TABLE_RECORDS * RECORD_LEN) with 16368.
  change FIRST_TABLE_RECORDS with 1023.
  destruct (Z.leb_spec 16368 MAX_SIZE) as [_|H];
    [|unfold MAX_SIZE, INT32_MAX in H; lia].
  destruct (Z.leb_spec (K5_HASH_SEED_LEN + 16368) MAX_SIZE) as [_|H];
    [reflexivity|lia].
Qed.

Lemma store_loop_unfold (fuel : nat) (tag : list byte) (now skew : Z)
    (s : loop_state) (w : world) :
  store_loop (S fuel) tag now skew s w
  = (let (o, w1) := store_body tag now skew s w in
     match o with
     | Return ret => (Some ret, w1)
     | Continue s' => store_loop fuel tag now skew s' w1
     end).
Proof.
  cbn [store_loop]. unfold mbind.
  destruct (store_body tag now skew s w) as [[ret|s'] w1]; reflexivity.
Qed.

Lemma store_fresh (context : krb5_context) (junk : records)
    (tag : list byte) (now skew : Z) e t :
  0 < K5_HASH_SEED_LEN -> K5_HASH_SEED_LEN + 16368 <= MAX_SIZE ->
  (12 <= length tag)%nat ->
  let sd := map (prng context) (seq 0 (Z.to_nat K5_HASH_SEED_LEN)) in
  let ro :=
    K5_HASH_SEED_LEN
    + ((k5_siphash24 (firstn (Z.to_nat TAG_LEN) tag) sd mod 2 ^ 64)
       mod 1023) * RECORD_LEN in
  exists w1,
    store context junk tag now skew (mkWorld [] 0 e [] t) = (Some 0, w1)
    /\ contents w1 = file_write sd (Z.to_nat ro) (marshal_record tag now).
Proof.
  intros Hpos Hfit Hlen sd ro.
  assert (Hseed : length sd = Z.to_nat K5_HASH_SEED_LEN)
    by (unfold sd; now rewrite length_map, length_seq).
  assert (Hind : 0 <= (k5_siphash24 (firstn (Z.to_nat TAG_LEN) tag) sd
                       mod 2 ^ 64) mod 1023)
    by (apply Z.mod_pos_bound; lia).
  assert (Hro : K5_HASH_SEED_LEN <= ro)
    by (unfold ro; change RECORD_LEN with 16; lia).
  unfold store, mbind.
  rewrite store_seed_short by (cbn [length]; lia).
  cbv zeta. cbn [Z.eqb negb]. fold sd.
  unfold table_bound. rewrite store_loop_unfold.
  rewrite (store_body_ok tag now skew _ _ _ _ _ K5_HASH_SEED_LEN 1023)
    by (cbn [table_offset nrecords]; try apply first_table_fits; lia).
  cbv zeta. cbn [seed recs avail_offset]. fold sd. fold ro.
  assert (Hd : file_read (file_write [] (length (@nil byte)) sd)
                 (Z.to_nat ro) 32 = []).
  { rewrite file_write_at_end. cbn [app]. unfold file_read.
    rewrite skipn_all2 by lia. apply firstn_nil. }
  rewrite Hd. cbn [length Z.of_nat].
  change (parse_records 0 [] junk 0) with (junk, 0). cbn [fst snd].
  change (is_repeat 0 junk tag) with false.
  change (is_last 0 junk) with true. cbv iota.
  change (choose_avail (-1) ro 0 junk now skew) with ro.
  rewrite write_record_ok by lia.
  eexists. split; [reflexivity|]. cbn [contents].
  now rewrite file_write_at_end.
Qed.

Lemma parse_records_first_tag (tag : list byte) (timestamp : Z)
    (rest : list byte) (out : records) :
  length tag = 12%nat ->
  let d := marshal_record tag timestamp ++ rest in
  let r := parse_records (Z.of_nat (length d)) d out 0 in
  rec1_tag (fst r) = tag /\ 1 <= snd r.
Proof.
  intros Hlen d r. subst r. unfold parse_records.
  assert (Hd : (16 <= length d)%nat).
  { subst d. rewrite length_app, marshal_record_length; lia. }
  change RECORD_LEN with 16. change (Z.to_nat TAG_LEN) with 12%nat.
  destruct (Z.geb_spec (Z.of_nat (length d)) 16) as [_|E]; [|lia].
  destruct (Z.of_nat (length d) =? 16 * 2); cbn [fst snd rec1_tag];
    subst d; rewrite marshal_record_tag by assumption; split; lia || reflexivity.
Qed.

Lemma store_again (context : krb5_context) (junk : records)
    (tag : list byte) (now now' skew : Z) (sd : list byte) e t :
  0 < K5_HASH_SEED_LEN -> K5_HASH_SEED_LEN + 16368 <= MAX_SIZE ->
  length tag = 12%nat -> length sd = Z.to_nat K5_HASH_SEED_LEN ->
  let ro :=
    K5_HASH_SEED_LEN
    + ((k5_siphash24 (firstn (Z.to_nat TAG_LEN) tag) sd mod 2 ^ 64)
       mod 1023) * RECORD_LEN in
  fst (store context junk tag now skew
         (mkWorld (file_write sd (Z.to_nat ro) (marshal_record tag now'))
            0 e [] t))
  = Some KRB5KRB_AP_ERR_REPEAT.
Proof.
  intros Hpos Hfit Hlen Hseed ro.
  assert (Hind : 0 <= (k5_siphash24 (firstn (Z.to_nat TAG_LEN) tag) sd
                       mod 2 ^ 64) mod 1023)
    by (apply Z.mod_pos_bound; lia).
  assert (Hro : K5_HASH_SEED_LEN <= ro)
    by (unfold ro; change RECORD_LEN with 16; lia).
  set (rec := marshal_record tag now').
  assert (Hrec : length rec = 16%nat)
    by (apply marshal_record_length; lia).
  unfold store, mbind.
  rewrite store_seed_full by (rewrite file_write_length; lia).
  rewrite file_write_firstn, firstn_all2 by lia.
  cbn [Z.eqb negb]. unfold table_bound. rewrite store_loop_unfold.
  rewrite (store_body_ok tag now skew _ _ _ _ _ K5_HASH_SEED_LEN 1023)
    by (cbn [table_offset nrecords]; try apply first_table_fits; lia).
  cbv zeta. cbn [seed recs avail_offset]. fold ro.
  rewrite file_read_write, skipn_all2, app_nil_r, firstn_all2 by lia.
  pose proof (parse_records_first_tag tag now' [] junk Hlen) as H.
  cbv zeta in H. rewrite app_nil_r in H. fold rec in H.
  destruct H as [Htag Hn].
  assert (Hrep : is_repeat (snd (parse_records (Z.of_nat (length rec)) rec
                                   junk 0))
                   (fst (parse_records (Z.of_nat (length rec)) rec junk 0))
                   tag = true).
  { unfold is_repeat. rewrite Htag. change (Z.to_nat TAG_LEN) with 12%nat.
    rewrite memcmp_refl by exact Hlen.
    replace (_ >=? 1) with true by (symmetry; apply Z.geb_le; lia).
    reflexivity. }
  rewrite Hrep. reflexivity.
Qed.

(** The descriptor of a newly created file, and a descriptor opened later
    on the file another one left: [file2_store] opens the file anew for each
    call, so the offset is 0; no call fails. *)
Lemma store_twice (context1 context2 : krb5_context) (junk1 junk2 : records)
    (tag : list byte) (t1 t2 skew1 skew2 : Z) (w1 w2 : world) :
  0 < K5_HASH_SEED_LEN -> K5_HASH_SEED_LEN + 16368 <= MAX_SIZE ->
  length tag = 12%nat ->
  new_cache w1 ->
  reopened (snd (store context1 junk1 tag t1 skew1 w1)) w2 ->
  fst (store context1 junk1 tag t1 skew1 w1) = Some 0
  /\ fst (store context2 junk2 tag t2 skew2 w2) = Some KRB5KRB_AP_ERR_REPEAT.
Proof.
  intros Hpos Hfit Hlen (Hc1 & Hp1 & Hf1) Hre.
  destruct w1 as [c1 p1 e1 f1 tr1]. cbn in Hc1, Hp1, Hf1. subst c1 p1 f1.
  destruct (store_fresh context1 junk1 tag t1 skew1 e1 tr1 Hpos Hfit)
    as (w & Hst & Hc); [lia|].
  rewrite Hst in Hre |- *. cbn [fst snd] in *. split; [reflexivity|].
  destruct Hre as (Hc2 & Hp2 & Hf2).
  destruct w2 as [c2 p2 e2 f2 tr2]. cbn in Hc2, Hp2, Hf2. subst c2 p2 f2.
  rewrite Hc. apply store_again; try assumption.
  now rewrite length_map, length_seq.
Qed.

(** C2. No false negatives: on a new cache and with no call failing,
    storing a tag at time [t1] succeeds, and storing the same tag again at
    a time [t2] with [t1 <= t2] and [t2 - t1 <= skew] returns
    KRB5KRB_AP_ERR_REPEAT. *)
Theorem replay_within_skew (context1 context2 : krb5_context)
    (junk1 junk2 : records) (tag : list byte) (t1 t2 skew : Z)
    (w1 w2 : world) :
  0 < K5_HASH_SEED_LEN -> K5_HASH_SEED_LEN + 16368 <= MAX_SIZE ->
  length tag = 12%nat ->
  t1 <= t2 -> t2 - t1 <= skew ->
  new_cache w1 ->
  reopened (snd (store context1 junk1 tag t1 skew w1)) w2 ->
  fst (store context1 junk1 tag t1 skew w1) = Some 0
  /\ fst (store context2 junk2 tag t2 skew w2) = Some KRB5KRB_AP_ERR_REPEAT.
Proof.
  intros Hpos Hfit Hlen _ _ Hnew Hre.
  exact (store_twice context1 context2 junk1 junk2 tag t1 t2 skew skew w1 w2
           Hpos Hfit Hlen Hnew Hre).
Qed.

(** C1 (amended). On a new cache and with no call failing, storing a tag
    at time [t1] succeeds, and storing the same tag again at time
    [t1 + skew + 1] returns KRB5KRB_AP_ERR_REPEAT: the test for a replay
    compares tags only, so a recorded tag is reported as a replay also after
    its validity window. *)
Theorem replay_after_expiry (context1 context2 : krb5_context)
    (junk1 junk2 : records) (tag : list byte) (t1 skew : Z)
    (w1 w2 : world) :
  0 < K5_HASH_SEED_LEN -> K5_HASH_SEED_LEN + 16368 <= MAX_SIZE ->
  length tag = 12%nat ->
  new_cache w1 ->
  reopened (snd (store context1 junk1 tag t1 skew w1)) w2 ->
  fst (store context1 junk1 tag t1 skew w1) = Some 0
  /\ fst (store context2 junk2 tag (t1 + skew + 1) skew w2)
     = Some KRB5KRB_AP_ERR_REPEAT.
Proof.
  intros Hpos Hfit Hlen Hnew Hre.
  exact (store_twice context1 context2 junk1 junk2 tag t1 (t1 + skew + 1)
           skew skew w1 w2 Hpos Hfit Hlen Hnew Hre).
Qed.

(** * Further properties of the code *)

(** ** The number of tables *)

Lemma level_offset_span (n : nat) :
  level_offset n = K5_HASH_SEED_LEN + level_span n.
Proof.
  induction n as [|n IH]; [cbn; lia|].
  rewrite level_offset_step, IH. cbn [level_span]. lia.
Qed.

Lemma level_sizes (n : nat) :
  (n <= 16)%nat ->
  level_capacity n * RECORD_LEN <= MAX_SIZE
  /\ level_span n + level_capacity n * RECORD_LEN <= 2147467248.
Proof.
  intros Hn.
  do 17 (destruct n as [|n];
         [vm_compute; split; intros H; discriminate H|]).
  lia.
Qed.




(** X1. With a seed of at most 16399 bytes, over the 18 calls that [store]
    can make from the sentinel, [next_table] accepts exactly 17 tables: its
    call number [n + 1] returns 0 when [n <= 16] and EOVERFLOW when
    [n = 17].  Every accepted table ends at most 2147467248 bytes after the
    seed, which is where the last one ends: in all 134216703 records of 16
    bytes. *)
Theorem next_table_count (n : nat) :
  K5_HASH_SEED_LEN <= 16399 ->
  (n <= 17)%nat ->
  (fst (fst (table_after (S n))) = 0 <-> (n <= 16)%nat)
  /\ (fst (fst (table_after (S n))) = EOVERFLOW <-> n = 17%nat)
  /\ ((n <= 16)%nat ->
      snd (fst (table_after (S n))) + snd (table_after (S n)) * RECORD_LEN
      <= K5_HASH_SEED_LEN + 2147467248)
  /\ snd (fst (table_after 17)) + snd (table_after 17) * RECORD_LEN
     = K5_HASH_SEED_LEN + 134216703 * 16.
Proof.
  intros HK Hcalls.
  assert (Hfit : level_fits n = true <-> (n <= 16)%nat).
  { split.
    - intros H. apply level_fits_bound in H. lia.
    - intros Hn. destruct (level_sizes n Hn) as [H1 H2].
      unfold level_fits. rewrite level_offset_span.
      apply andb_true_intro. split; apply Z.leb_le; [exact H1|].
      unfold MAX_SIZE, INT32_MAX. lia. }
  rewrite !table_after_level. cbn [fst snd].
  split; [|split; [|split]].
  - rewrite <- Hfit. destruct (level_fits n); unfold EOVERFLOW;
      split; intros H; try reflexivity; discriminate H.
  - assert (Hn : level_fits n = false <-> n = 17%nat).
    { destruct (level_fits n); split; intros H; try discriminate H;
        try reflexivity.
      - destruct Hfit as [Hf _]. specialize (Hf eq_refl). lia.
      - destruct (Nat.le_gt_cases n 16) as [Hle|Hgt]; [|lia].
        apply Hfit in Hle. discriminate Hle. }
    rewrite <- Hn. destruct (level_fits n); unfold EOVERFLOW;
      split; intros H; try reflexivity; discriminate H.
  - intros Hn. destruct (level_sizes n Hn) as [_ H2].
    rewrite level_offset_span. lia.
  - rewrite level_offset_span. vm_compute level_span.
    change (level_capacity 16) with 67108864. change RECORD_LEN with 16. lia.
Qed.

(** ** What [read_records] reads *)

Lemma lseek_negative c p e t (offset : Z) :
  offset < 0 ->
  lseek offset (mkWorld c p e [] t)
  = (-1, mkWorld c p EINVAL [] (Call_lseek offset :: t)).
Proof.
  intros H. unfold lseek, mbind, enter. cbn [faults contents pos errno trace].
  destruct (Z.ltb_spec offset 0); [reflexivity|lia].
Qed.

Lemma load_32_be_firstn (k : nat) (l : list byte) :
  (4 <= k)%nat -> load_32_be (firstn k l) = load_32_be l.
Proof.
  intros Hk. do 4 (destruct k as [|k]; [lia|]).
  destruct l as [|b0 [|b1 [|b2 [|b3 l]]]]; reflexivity.
Qed.

Lemma file_read_length (c : list byte) (off n : nat) :
  length (file_read c off n) = Nat.min n (length c - off).
Proof. unfold file_read. now rewrite length_firstn, length_skipn. Qed.

Lemma file_read_head (c : list byte) (off n k : nat) :
  (k <= n)%nat -> firstn k (file_read c off n) = file_read c off k.
Proof.
  intros Hk. unfold file_read. rewrite firstn_firstn.
  now rewrite Nat.min_l by exact Hk.
Qed.

Lemma file_read_tail (c : list byte) (off n k : nat) :
  skipn k (file_read c off n) = file_read c (off + k) (n - k).
Proof.
  unfold file_read. rewrite skipn_firstn_comm, skipn_skipn.
  now rewrite (Nat.add_comm k off).
Qed.

Lemma load_32_be_file_read (c : list byte) (off n : nat) :
  (4 <= n)%nat ->
  load_32_be (file_read c off n) = load_32_be (file_read c off 4).
Proof.
  intros Hn. unfold file_read. now rewrite !load_32_be_firstn by lia.
Qed.

(** X2. On a descriptor without failures [read_records] never changes the
    file.  At a negative offset it returns EINVAL with nothing read.
    Otherwise it returns 0 and reads as many whole records as the file
    holds from [offset], at most two: a record cut short by the end of the
    file is not read.  The records read are the tag bytes and big-endian
    timestamps found in the file, and the out-parameters of a record that is
    not read keep their values. *)
Theorem read_records_count (w : world) (offset : Z) (out : records) :
  faults w = [] ->
  let c := contents w in
  let r := read_records offset out w in
  let out' := snd (fst (fst r)) in
  let nread := snd (fst r) in
  contents (snd r) = c
  /\ (offset < 0 -> fst r = (EINVAL, out, 0))
  /\ (0 <= offset ->
      let avail := Z.max 0 (Z.of_nat (length c) - offset) in
      fst (fst (fst r)) = 0
      /\ nread = Z.min 2 (avail / RECORD_LEN)
      /\ (1 <= nread ->
          rec1_tag out' = file_read c (Z.to_nat offset) 12
          /\ rec1_stamp out'
             = load_32_be (file_read c (Z.to_nat offset + 12) 4))
      /\ (nread = 2 ->
          rec2_tag out' = file_read c (Z.to_nat offset + 16) 12
          /\ rec2_stamp out'
             = load_32_be (file_read c (Z.to_nat offset + 28) 4))
      /\ (nread = 0 -> out' = out)
      /\ (nread = 1 ->
          rec2_tag out' = rec2_tag out /\ rec2_stamp out' = rec2_stamp out)).
Proof.
  destruct w as [c0 p e f t]. intros Hf c r out' nread.
  cbn [faults] in Hf. subst f. cbn [contents] in c. subst c.
  destruct (Z.ltb_spec offset 0) as [Hneg|Hpos].
  - assert (Hr : r = (EINVAL, out, 0,
                      mkWorld c0 p EINVAL [] (Call_lseek offset :: t))).
    { subst r. unfold read_records, mbind. rewrite lseek_negative by exact Hneg.
      reflexivity. }
    subst out' nread. rewrite Hr. cbn [fst snd contents].
    split; [reflexivity|]. split; [reflexivity|]. intros H. lia.
  - assert (Hr : r = read_records offset out (mkWorld c0 p e [] t))
      by reflexivity.
    rewrite read_records_ok in Hr by exact Hpos. cbv zeta in Hr.
    set (d := file_read c0 (Z.to_nat offset) 32) in Hr.
    assert (Hd : length d = Nat.min 32 (length c0 - Z.to_nat offset))
      by apply file_read_length.
    subst out' nread. rewrite Hr. cbn [fst snd contents].
    split; [reflexivity|]. split; [intros H; lia|]. intros _.
    split; [reflexivity|].
    set (avail := Z.max 0 (Z.of_nat (length c0) - offset)).
    assert (Havail : avail = Z.of_nat (length c0 - Z.to_nat offset))
      by (unfold avail; lia).
    pose proof (Z.div_mod avail RECORD_LEN ltac:(discriminate)) as Hdm.
    pose proof (Z.mod_pos_bound avail RECORD_LEN ltac:(reflexivity)) as Hmb.
    change RECORD_LEN with 16 in Hdm, Hmb |- *.
    unfold parse_records. change RECORD_LEN with 16.
    change (Z.to_nat TAG_LEN) with 12%nat.
    change (Z.to_nat 16) with 16%nat.
    change (Z.to_nat (16 + TAG_LEN)) with 28%nat.
    destruct (Z.geb_spec (Z.of_nat (length d)) 16) as [H16|H16];
      destruct (Z.eqb_spec (Z.of_nat (length d)) (16 * 2)) as [H32|H32];
      cbn [fst snd rec1_tag rec1_stamp rec2_tag rec2_stamp];
      try lia.
    + split; [lia|]. split; [|split; [|split; [intros H; discriminate H|
                                              intros H; discriminate H]]].
      * intros _. unfold d. rewrite file_read_head, file_read_tail by lia.
        split; [reflexivity|]. apply load_32_be_file_read. lia.
      * intros _. unfold d. rewrite !file_read_tail.
        rewrite file_read_head by lia.
        split; [reflexivity|]. apply load_32_be_file_read. lia.
    + split; [lia|]. split; [|split; [intros H; discriminate H|
                                      split; [intros H; discriminate H|]]].
      * intros _. unfold d. rewrite file_read_head, file_read_tail by lia.
        split; [reflexivity|]. apply load_32_be_file_read. lia.
      * intros _. split; reflexivity.
    + split; [lia|]. split; [intros H; lia|].
      split; [intros H; discriminate H|]. split; [reflexivity|].
      intros H; discriminate H.
Qed.

(** ** Error codes are not negative *)

Lemma hoare_conj {A : Type} (P1 P2 : world -> Prop) (m : M A)
    (Q1 Q2 : A -> world -> Prop) :
  hoare P1 m Q1 -> hoare P2 m Q2 ->
  hoare (fun w => P1 w /\ P2 w) m (fun a w => Q1 a w /\ Q2 a w).
Proof. intros H1 H2 w [HP1 HP2]. split; [apply H1|apply H2]; assumption. Qed.

Lemma lseek_full (c : list byte) (offset : Z) :
  hoare (fun w => contents w = c) (lseek offset)
    (fun st w' =>
       contents w' = c
       /\ ((st = -1 /\ 0 < errno w')
           \/ (st = offset /\ 0 <= offset /\ pos w' = offset))).
Proof.
  intros w Hc. unfold lseek, mbind.
  destruct (enter_spec (Call_lseek offset) w) as (f & fs & ->).
  destruct f as [[e|n]|]; cbn;
    [split; [exact Hc|]; left; split; [reflexivity|lia]| |];
    (destruct (Z.ltb_spec offset 0); cbn;
     [split; [exact Hc|]; left; split; [reflexivity|unfold EINVAL; lia]
     |split; [exact Hc|]; right; repeat split; assumption]).
Qed.

Lemma read_full (c : list byte) (p count : Z) :
  hoare (fun w => contents w = c /\ pos w = p) (read count)
    (fun r w' =>
       contents w' = c
       /\ ((fst r = -1 /\ 0 < errno w')
           \/ (snd r = file_read c (Z.to_nat p) (Z.to_nat count)
               /\ fst r = Z.of_nat (length (snd r))))).
Proof.
  intros w [Hc Hp]. unfold read, mbind.
  destruct (enter_spec (Call_read count) w) as (f & fs & ->).
  destruct f as [[e|n]|]; cbn;
    [split; [exact Hc|]; left; split; [reflexivity|lia]| |];
    (split; [exact Hc|]; right; rewrite Hc, Hp; repeat split).
Qed.

Lemma read_sign (count : Z) :
  hoare (fun _ => True) (read count)
    (fun r w' => (fst r = -1 /\ 0 < errno w') \/ 0 <= fst r).
Proof.
  intros w _. unfold read, mbind.
  destruct (enter_spec (Call_read count) w) as (f & fs & ->).
  destruct f as [[e|n]|]; cbn;
    [left; split; [reflexivity|lia]|right; lia|right; lia].
Qed.

Lemma lseek_sign (offset : Z) :
  hoare (fun _ => True) (lseek offset)
    (fun st w' => (st = -1 /\ 0 < errno w') \/ 0 <= st).
Proof.
  intros w _.
  destruct (lseek_full (contents w) offset w eq_refl) as [_ [H|[-> [H _]]]];
    [left; exact H|right; exact H].
Qed.

Lemma write_sign (buf : list byte) :
  hoare (fun _ => True) (write buf)
    (fun st w' => (st = -1 /\ 0 < errno w') \/ 0 <= st).
Proof.
  intros w _. unfold write, mbind.
  destruct (enter_spec (Call_write buf) w) as (f & fs & ->).
  destruct f as [[e|n]|]; cbn;
    [left; split; [reflexivity|lia]|right; lia|right; lia].
Qed.

Lemma random_sign (context : krb5_context) (len : Z) :
  hoare (fun _ => True) (krb5_c_random_make_octets context len)
    (fun r _ => 0 <= fst r).
Proof.
  intros w _. unfold krb5_c_random_make_octets, mbind.
  destruct (enter_spec (Call_random len) w) as (f & fs & ->).
  destruct f as [[e|n]|]; cbn; lia.
Qed.

Lemma errno_after_failure (st : Z) :
  hoare (fun w => (st = -1 /\ 0 < errno w) \/ 0 <= st) get_errno
    (fun e _ => st < 0 -> 0 < e).
Proof. intros w [[_ H]|H] Hst; cbn; lia. Qed.

Lemma write_record_sign (offset : Z) (tag : list byte) (timestamp : Z) :
  hoare (fun _ => True) (write_record offset tag timestamp)
    (fun ret _ => 0 <= ret).
Proof.
  unfold write_record.
  eapply hoare_bind; [apply lseek_sign|]. intros st.
  destruct (Z.eqb_spec st (-1)) as [Hst|Hst].
  - eapply hoare_weaken;
      [apply (errno_after_failure st)|intros w H; exact H|].
    cbn beta. intros e w H. lia.
  - eapply hoare_bind;
      [eapply hoare_weaken;
         [apply write_sign|intros w0 _; exact I|intros a w H; exact H]|].
    intros st2. destruct (Z.eqb_spec st2 (-1)) as [Hst2|Hst2].
    + eapply hoare_weaken;
        [apply (errno_after_failure st2)|intros w H; exact H|].
      cbn beta. intros e w H. lia.
    + destruct (negb (st2 =? RECORD_LEN)); apply hoare_ret; intros;
        unfold EIO; lia.
Qed.

Lemma store_seed_sign (context : krb5_context) :
  hoare (fun _ => True) (store_seed context) (fun r _ => 0 <= fst r).
Proof.
  unfold store_seed.
  eapply hoare_bind; [apply read_sign|]. intros [st seed]. cbn [fst].
  destruct (Z.ltb_spec st 0) as [Hneg|Hpos].
  { eapply hoare_bind; [apply (errno_after_failure st)|]. intros e.
    apply hoare_ret. intros w H. cbn [fst]. lia. }
  destruct (st <? K5_HASH_SEED_LEN); [|apply hoare_ret; intros; cbn; lia].
  eapply hoare_bind;
    [eapply hoare_weaken;
       [apply random_sign|intros w0 _; exact I|intros a w H; exact H]|].
  intros [ret seed2]. cbn [fst].
  destruct (negb (ret =? 0)); [apply hoare_ret; intros w H; exact H|].
  eapply hoare_bind;
    [eapply hoare_weaken; [apply write_sign|intros w0 _; exact I|intros a w H; exact H]|].
  intros st3. destruct (Z.ltb_spec st3 0) as [Hneg3|Hpos3].
  { eapply hoare_bind; [apply (errno_after_failure st3)|]. intros e.
    apply hoare_ret. intros w H. cbn [fst]. lia. }
  destruct (negb (st3 =? K5_HASH_SEED_LEN)); apply hoare_ret; intros;
    cbn [fst]; unfold EIO; lia.
Qed.

Lemma read_records_parse (c : list byte) (offset : Z) (out : records) :
  hoare (fun w => contents w = c) (read_records offset out)
    (fun r w' =>
       contents w' = c
       /\ 0 <= fst (fst r)
       /\ (fst (fst r) = 0 ->
           0 <= offset
           /\ (snd (fst r), snd r)
              = (let d := file_read c (Z.to_nat offset) 32 in
                 parse_records (Z.of_nat (length d)) d out 0))).
Proof.
  unfold read_records.
  eapply hoare_bind; [apply lseek_full|]. intros st.
  destruct (Z.eqb_spec st (-1)) as [Hst|Hst].
  - eapply hoare_bind; [apply get_errno_spec|]. intros e.
    apply hoare_ret. intros w [[Hc [[_ He]|[E [H0 _]]]] ->]; [|lia].
    cbn [fst snd]. split; [exact Hc|]. split; [lia|]. intros H. lia.
  - apply (hoare_assume (0 <= offset)).
    { intros w [_ [[E _]|[_ [H0 _]]]]; [contradiction|exact H0]. }
    intros Hoff. eapply hoare_bind.
    + eapply hoare_weaken;
        [apply (read_full c offset)| |intros a w H; exact H].
      cbn beta. intros w [Hc [[E _]|[_ [_ Hp]]]]; [contradiction|auto].
    + intros [st2 buf]. cbn [fst snd].
      destruct (Z.eqb_spec st2 (-1)) as [Hst2|Hst2].
      * eapply hoare_bind; [apply get_errno_spec|]. intros e.
        apply hoare_ret. intros w [[Hc [[_ He]|[_ E]]] ->]; [|lia].
        cbn [fst snd]. split; [exact Hc|]. split; [lia|]. intros H. lia.
      * apply (hoare_assume
                 (buf = file_read c (Z.to_nat offset) 32
                  /\ st2 = Z.of_nat (length buf))).
        { intros w [_ [[E _]|H]]; [contradiction|exact H]. }
        intros [-> ->].
        destruct (parse_records _ _ out 0) as [out1 nread] eqn:Hp.
        apply hoare_ret. intros w [Hc _]. cbn [fst snd].
        split; [exact Hc|]. split; [lia|]. intros _.
        split; [exact Hoff|]. reflexivity.
Qed.

(** ** A replay is only reported for a tag found in the file *)

Lemma repeat_found (c : list byte) (ro : Z) (out : records)
    (tag : list byte) :
  length tag = 12%nat -> 0 <= ro ->
  let d := file_read c (Z.to_nat ro) 32 in
  let pr := parse_records (Z.of_nat (length d)) d out 0 in
  is_repeat (snd pr) (fst pr) tag = true ->
  holds_tag c ro tag \/ holds_tag c (ro + RECORD_LEN) tag.
Proof.
  intros Hlen Hro d pr Hrep.
  assert (Hd : length d = Nat.min 32 (length c - Z.to_nat ro))
    by apply file_read_length.
  assert (Hfirst : (16 <= length d)%nat ->
                   memcmp (firstn 12 d) tag 12 = 0 -> holds_tag c ro tag).
  { intros H16 Hm. apply memcmp_zero in Hm;
      [|rewrite length_firstn; lia|lia].
    rewrite firstn_firstn in Hm. cbn [Nat.min] in Hm.
    rewrite (@firstn_all2 _ 12 tag) in Hm by lia.
    unfold holds_tag. change RECORD_LEN with 16.
    split; [exact Hro|]. split; [lia|].
    rewrite <- Hm. unfold d. now rewrite file_read_head by lia. }
  assert (Hsecond : length d = 32%nat ->
                    memcmp (firstn 12 (skipn 16 d)) tag 12 = 0 ->
                    holds_tag c (ro + RECORD_LEN) tag).
  { intros H32 Hm. apply memcmp_zero in Hm;
      [|rewrite length_firstn, length_skipn; lia|lia].
    rewrite firstn_firstn in Hm. cbn [Nat.min] in Hm.
    rewrite (@firstn_all2 _ 12 tag) in Hm by lia.
    unfold holds_tag. change RECORD_LEN with 16.
    split; [lia|]. split; [lia|].
    rewrite <- Hm. unfold d. rewrite file_read_tail, file_read_head by lia.
    f_equal. lia. }
  revert Hrep. subst pr. unfold parse_records, is_repeat.
  change RECORD_LEN with 16. change (Z.to_nat TAG_LEN) with 12%nat.
  change (Z.to_nat 16) with 16%nat.
  destruct (Z.geb_spec (Z.of_nat (length d)) 16) as [H16|H16];
    destruct (Z.eqb_spec (Z.of_nat (length d)) (16 * 2)) as [H32|H32];
    cbn [fst snd rec1_tag rec2_tag Z.geb Z.eqb Z.compare Pos.compare
         Pos.compare_cont Pos.eqb andb orb];
    intros Hrep; try discriminate Hrep; try lia.
  - apply orb_prop in Hrep. destruct Hrep as [Hrep|Hrep];
      apply Z.eqb_eq in Hrep; [left; apply Hfirst|right; apply Hsecond];
      lia || assumption.
  - rewrite orb_false_r in Hrep. apply Z.eqb_eq in Hrep.
    left. apply Hfirst; lia || assumption.
Qed.

Lemma next_table_sign (offset nrecords : Z) :
  0 <= fst (fst (next_table offset nrecords)).
Proof.
  rewrite next_table_code. unfold table_code, EOVERFLOW.
  destruct (_ && _); lia.
Qed.

Lemma store_body_repeat (c tag : list byte) (now skew : Z) (s : loop_state) :
  length tag = 12%nat ->
  hoare (fun w => contents w = c) (store_body tag now skew s)
    (fun o _ =>
       forall ret, o = Return ret -> ret < 0 ->
       exists offset n i,
         next_table (table_offset s) (nrecords s) = (0, offset, n)
         /\ (0 < n -> 0 <= i)
         /\ holds_tag c (offset + RECORD_LEN * i) tag).
Proof.
  intros Hlen. unfold store_body.
  pose proof (next_table_sign (table_offset s) (nrecords s)) as Hsign.
  destruct (next_table (table_offset s) (nrecords s)) as [[ret offset] n]
    eqn:Hnt.
  cbn [fst] in Hsign.
  destruct (Z.eqb_spec ret 0) as [->|Hret]; cbn [negb].
  2:{ apply hoare_ret. intros w _ r [= <-] Hneg. lia. }
  set (ind := (k5_siphash24 (firstn (Z.to_nat TAG_LEN) tag) (seed s)
               mod 2 ^ 64) mod n).
  assert (Hind : 0 < n -> 0 <= ind) by (intros Hn; apply Z.mod_pos_bound, Hn).
  clearbody ind.
  eapply hoare_bind; [apply (read_records_parse c)|].
  intros [[ret r] nread]. cbn [fst snd].
  destruct (Z.eqb_spec ret 0) as [->|Hret]; cbn [negb].
  2:{ apply hoare_ret. intros w (_ & H0 & _) r0 [= <-] Hneg. lia. }
  destruct (is_repeat nread r tag) eqn:Hrep.
  - apply hoare_ret. intros w (_ & _ & Hp) r0 _ _.
    destruct (Hp eq_refl) as [Hro Hpr]. cbv zeta in Hpr.
    pose proof (repeat_found c (offset + ind * RECORD_LEN) (recs s) tag
                  Hlen Hro) as Hf.
    cbv zeta in Hf. rewrite <- Hpr in Hf. cbn [fst snd] in Hf.
    exists offset, n.
    destruct (Hf Hrep) as [H|H].
    + exists ind. split; [reflexivity|]. split; [exact Hind|].
      now rewrite (Z.mul_comm RECORD_LEN).
    + exists (ind + 1). split; [reflexivity|].
      split; [intros Hn; specialize (Hind Hn); lia|].
      replace (offset + RECORD_LEN * (ind + 1))
        with (offset + ind * RECORD_LEN + RECORD_LEN) by lia.
      exact H.
  - destruct (is_last nread r).
    + eapply hoare_bind;
        [eapply hoare_weaken;
           [apply write_record_sign|intros w0 _; exact I
           |intros a w H; exact H]|].
      intros ret. apply hoare_ret. intros w H r0 [= <-] Hneg. lia.
    + apply hoare_ret. intros w _ r0 H. discriminate H.
Qed.

Lemma store_loop_repeat (fuel : nat) (c tag : list byte) (now skew : Z)
    (s : loop_state) :
  length tag = 12%nat ->
  hoare (fun w => contents w = c) (store_loop fuel tag now skew s)
    (fun r _ =>
       forall ret, r = Some ret -> ret < 0 -> loop_inv s ->
       exists a, slot_offset a /\ holds_tag c a tag).
Proof.
  intros Hlen. assert (Hlen' : (12 <= length tag)%nat) by lia.
  revert s. induction fuel as [|fuel IH]; intros s.
  - apply hoare_ret. intros w _ ret H. discriminate H.
  - cbn [store_loop]. eapply hoare_bind.
    + eapply hoare_weaken;
        [apply (hoare_conj _ _ _ _ _
                  (store_body_spec c tag now skew s Hlen')
                  (store_body_repeat c tag now skew s Hlen))
        |intros w Hc; split; exact Hc|intros a w H; exact H].
    + intros [ret|s'].
      * apply hoare_ret. intros w [_ Hrep] r0 [= <-] Hneg Hinv.
        destruct (Hrep ret eq_refl Hneg) as (offset & n & i & Hnt & Hi & Hh).
        destruct (table_step_level s _ _ Hinv Hnt) as (m & E1 & E2).
        exists (offset + RECORD_LEN * i). split; [|exact Hh].
        rewrite E1. apply slot_in_level. now rewrite <- E2.
      * apply (hoare_assume (continue_rel s s'));
          [intros w [[_ H] _]; exact H|].
        intros Hrel.
        eapply hoare_weaken;
          [apply (IH s')|intros w [[Hc _] _]; exact Hc|].
        cbn beta. intros r w H ret Hr Hneg Hinv.
        apply (H ret Hr Hneg). exact (loop_inv_step s s' Hinv Hrel).
Qed.

(** X3. [store] never reports a replay that the file does not show: when it
    returns KRB5KRB_AP_ERR_REPEAT, whatever calls failed, some whole record
    slot of the file holds the 12 bytes of the tag.  No record has been
    written by that call: the file is as the seed step left it, and
    unchanged when it already held a whole seed. *)
Theorem store_repeat_sound (context : krb5_context) (junk : records)
    (tag : list byte) (now skew : Z) (w : world) :
  length tag = 12%nat -> pos w = 0 ->
  fst (store context junk tag now skew w) = Some KRB5KRB_AP_ERR_REPEAT ->
  let w' := snd (store context junk tag now skew w) in
  (exists a, slot_offset a /\ holds_tag (contents w') a tag)
  /\ contents w' = contents (snd (store_seed context w))
  /\ (K5_HASH_SEED_LEN <= Z.of_nat (length (contents w)) ->
      contents w' = contents w).
Proof.
  intros Hlen Hpos Hret w'. subst w'. revert Hret.
  assert (Hlen' : (12 <= length tag)%nat) by lia.
  pose proof (store_seed_spec context (contents w) w (conj eq_refl Hpos))
    as Hseed.
  pose proof (store_seed_sign context w I) as Hsign.
  cbv beta in Hseed, Hsign.
  unfold store, mbind.
  destruct (store_seed context w) as [[ret seed] w1]. cbn [fst snd] in *.
  destruct (Z.eqb_spec ret 0) as [->|Hret]; cbn [negb].
  { set (s0 := mkLoop (-1) 0 (-1) seed junk).
    pose proof (store_loop_spec table_bound (contents w1) tag now skew s0
                  Hlen' w1 eq_refl) as Hloop.
    pose proof (store_loop_repeat table_bound (contents w1) tag now skew s0
                  Hlen w1 eq_refl) as Hrep.
    destruct (store_loop table_bound tag now skew s0 w1) as [r w2].
    cbn [fst snd] in *. intros ->.
    assert (Hc : contents w2 = contents w1).
    { cbn in Hloop. destruct Hloop as [[_ [H|[H _]]]|[H _]];
        [exact H|discriminate H|discriminate H]. }
    split; [|split; [exact Hc|]].
    - rewrite Hc.
      apply (Hrep _ eq_refl); [unfold KRB5KRB_AP_ERR_REPEAT; lia|].
      apply loop_inv_start.
    - intros HK. rewrite Hc. destruct Hseed as [H|[H _]]; [exact H|lia]. }
  cbn [fst]. intros [= E]. unfold KRB5KRB_AP_ERR_REPEAT in E. lia.
Qed.

(** ** A stored tag is found again, whatever the file held *)

Lemma choose_avail_second (ro nread : Z) (r : records) (now skew : Z) :
  choose_avail (-1) ro nread r now skew = ro + RECORD_LEN -> nread <> 0.
Proof.
  unfold choose_avail. change (-1 =? -1) with true. cbv iota.
  change RECORD_LEN with 16.
  destruct (Z.eqb_spec nread 0) as [E|E]; cbn [orb]; [intros H; lia|auto].
Qed.

Lemma parse_records_some (st : Z) (buf : list byte) (out : records) :
  snd (parse_records st buf out 0) <> 0 -> 16 <= st.
Proof.
  unfold parse_records. change RECORD_LEN with 16.
  destruct (Z.geb_spec st 16) as [H|H];
    destruct (Z.eqb_spec st (16 * 2)) as [E|E]; cbn [snd]; lia.
Qed.

Lemma parse_records_two (st : Z) (buf : list byte) (out : records) :
  snd (parse_records st buf out 0) = 2 -> st = 32.
Proof.
  unfold parse_records. change RECORD_LEN with 16.
  destruct (Z.geb_spec st 16) as [H|H];
    destruct (Z.eqb_spec st (16 * 2)) as [E|E]; cbn [snd]; lia.
Qed.

Lemma parse_records_full (buf : list byte) (out out' : records) :
  parse_records 32 buf out 0 = parse_records 32 buf out' 0.
Proof. reflexivity. Qed.

Lemma is_last_false (nread : Z) (r : records) :
  is_last nread r = false -> 2 <= nread.
Proof.
  unfold is_last. destruct (Z.ltb_spec nread 2); [discriminate|auto].
Qed.

Lemma parse_records_second_tag (first tag : list byte) (timestamp : Z)
    (out : records) :
  length first = 16%nat -> length tag = 12%nat ->
  let d := first ++ marshal_record tag timestamp in
  let r := parse_records (Z.of_nat (length d)) d out 0 in
  rec2_tag (fst r) = tag /\ snd r = 2.
Proof.
  intros Hfirst Hlen d r. subst r. unfold parse_records.
  assert (Hd : length d = 32%nat).
  { subst d. rewrite length_app, marshal_record_length; lia. }
  rewrite Hd. change (Z.of_nat 32 >=? RECORD_LEN) with true.
  change (Z.of_nat 32 =? RECORD_LEN * 2) with true.
  cbn [fst snd rec2_tag].
  change (Z.to_nat TAG_LEN) with 12%nat.
  change (Z.to_nat RECORD_LEN) with 16%nat.
  subst d. rewrite skipn_app_exact by exact Hfirst.
  rewrite <- (app_nil_r (marshal_record tag timestamp)).
  rewrite marshal_record_tag by assumption. split; reflexivity.
Qed.

Lemma file_read_before_write (c : list byte) (ro n a : nat) (d : list byte) :
  (ro + n <= a)%nat -> (ro + n <= length c)%nat ->
  file_read (file_write c a d) ro n = file_read c ro n.
Proof.
  intros Ha Hc. unfold file_read, file_write.
  rewrite skipn_app, firstn_app.
  rewrite length_skipn, !length_firstn.
  replace (ro - Nat.min a (length c))%nat with 0%nat by lia.
  replace (n - (Nat.min a (length c) - ro))%nat with 0%nat by lia.
  cbn [skipn firstn]. rewrite app_nil_r.
  rewrite skipn_firstn_comm, firstn_firstn.
  f_equal. lia.
Qed.

Lemma is_repeat_first (nread : Z) (r : records) (tag : list byte) :
  length tag = 12%nat -> rec1_tag r = tag -> 1 <= nread ->
  is_repeat nread r tag = true.
Proof.
  intros Hlen Ht Hn. unfold is_repeat. rewrite Ht.
  change (Z.to_nat TAG_LEN) with 12%nat. rewrite memcmp_refl by exact Hlen.
  replace (nread >=? 1) with true by (symmetry; apply Z.geb_le; lia).
  reflexivity.
Qed.

Lemma is_repeat_second (r : records) (tag : list byte) :
  length tag = 12%nat -> rec2_tag r = tag -> is_repeat 2 r tag = true.
Proof.
  intros Hlen Ht. unfold is_repeat. rewrite Ht.
  change (Z.to_nat TAG_LEN) with 12%nat. rewrite memcmp_refl by exact Hlen.
  apply orb_true_r.
Qed.

Lemma probe_after_write (c : list byte) (ro a : Z) (tag : list byte)
    (timestamp : Z) (out : records) :
  length tag = 12%nat -> 0 <= ro ->
  a = ro \/ (a = ro + RECORD_LEN
             /\ ro + RECORD_LEN <= Z.of_nat (length c)) ->
  let d := file_read (file_write c (Z.to_nat a)
                        (marshal_record tag timestamp))
             (Z.to_nat ro) 32 in
  let pr := parse_records (Z.of_nat (length d)) d out 0 in
  is_repeat (snd pr) (fst pr) tag = true.
Proof.
  intros Hlen Hro Ha d pr.
  set (rec := marshal_record tag timestamp) in *.
  assert (Hrec : length rec = 16%nat) by (apply marshal_record_length; lia).
  destruct Ha as [->|[-> Hc]].
  - assert (Hd : d = rec ++ firstn 16 (skipn (Z.to_nat ro + 16) c)).
    { unfold d. rewrite file_read_write, firstn_app, Hrec.
      now rewrite (@firstn_all2 _ 32 rec) by lia. }
    destruct (parse_records_first_tag tag timestamp
                (firstn 16 (skipn (Z.to_nat ro + 16) c)) out Hlen)
      as [Ht Hn].
    fold rec in Ht, Hn. rewrite <- Hd in Ht, Hn. fold pr in Ht, Hn.
    now apply is_repeat_first.
  - change RECORD_LEN with 16 in *.
    set (P := firstn (Z.to_nat (ro + 16)) c
              ++ repeat x00 (Z.to_nat (ro + 16) - length c)).
    assert (HP : length P = Z.to_nat (ro + 16))
      by apply file_write_pad_length.
    assert (Hd : d = skipn (Z.to_nat ro) P ++ rec).
    { unfold d, file_read, file_write. rewrite app_assoc. fold P.
      rewrite skipn_app.
      replace (Z.to_nat ro - length P)%nat with 0%nat by lia.
      cbn [skipn]. rewrite app_assoc.
      apply firstn_app_exact.
      rewrite length_app, length_skipn, Hrec. lia. }
    assert (Hx : length (skipn (Z.to_nat ro) P) = 16%nat)
      by (rewrite length_skipn; lia).
    destruct (parse_records_second_tag _ tag timestamp out Hx Hlen)
      as [Ht Hn].
    fold rec in Ht, Hn. rewrite <- Hd in Ht, Hn. fold pr in Ht, Hn.
    rewrite Hn. now apply is_repeat_second.
Qed.

Lemma next_offset_level (s : loop_state) (m : nat) :
  table_offset s = level_offset m -> nrecords s = level_capacity m ->
  snd (fst (next_table (table_offset s) (nrecords s)))
  = level_offset m + level_capacity m * RECORD_LEN.
Proof.
  intros -> ->. rewrite next_table_level. cbn [fst snd].
  apply level_offset_step.
Qed.

Lemma store_loop_writes_later (fuel : nat) (c tag : list byte)
    (now skew : Z) :
  (12 <= length tag)%nat ->
  forall s : loop_state,
    loop_inv s -> avail_offset s = -1 ->
    hoare (fun w => contents w = c) (store_loop fuel tag now skew s)
      (fun r w' =>
         r = Some 0 ->
         exists a,
           slot_offset a
           /\ snd (fst (next_table (table_offset s) (nrecords s))) <= a
           /\ contents w'
              = file_write c (Z.to_nat a) (marshal_record tag now)).
Proof.
  intros Hlen. induction fuel as [|fuel IH]; intros s Hinv Hav.
  - apply hoare_ret. intros w _ H. discriminate H.
  - cbn [store_loop].
    eapply hoare_bind; [apply (store_body_spec c tag now skew s Hlen)|].
    intros [ret|s'].
    + apply hoare_ret. intros w Hpost [= ->].
      destruct Hpost as [[Hne _]|(_ & a & Hrel & Hc)]; [contradiction|].
      exists a. split; [exact (return_slot s a Hinv Hrel)|].
      split; [|exact Hc].
      destruct Hrel as (offset & n & Hnt & _ & _ & Hnew).
      destruct (table_step_level s _ _ Hinv Hnt) as (m & E1 & E2).
      destruct (Hnew Hav) as (i & -> & Hi).
      rewrite Hnt. cbn [fst snd]. pose proof (level_capacity_lower m).
      change RECORD_LEN with 16. lia.
    + apply (hoare_assume (continue_rel s s'));
        [intros w [_ H]; exact H|].
      intros Hrel.
      pose proof (loop_inv_step s s' Hinv Hrel) as Hinv'.
      destruct Hrel as (Hnt & _ & Hnew).
      destruct (table_step_level s _ _ Hinv Hnt) as (m & E1 & E2).
      pose proof (level_capacity_lower m) as Hcap.
      destruct (Z.eq_dec (avail_offset s') (-1)) as [E|E].
      * eapply hoare_weaken;
          [apply (IH s' Hinv' E)|intros w [Hc _]; exact Hc|].
        cbn beta. intros r w H Hr.
        destruct (H Hr) as (a & Hs & Hge & Hc).
        exists a. split; [exact Hs|]. split; [|exact Hc].
        rewrite Hnt. cbn [fst snd].
        rewrite (next_offset_level s' m E1 E2) in Hge.
        change RECORD_LEN with 16 in Hge. lia.
      * eapply hoare_weaken;
          [apply (store_loop_spec fuel c tag now skew s' Hlen)
          |intros w [Hc _]; exact Hc|].
        cbn beta. intros r w H ->. cbn in H.
        destruct H as [[Hne _]|(_ & a & _ & Hs & Hk & Hc)]; [contradiction|].
        exists a. split; [exact (Hs Hinv')|]. split; [|exact Hc].
        rewrite Hnt. cbn [fst snd]. rewrite (Hk E).
        destruct (Hnew Hav) as [E'|(i & -> & Hi)]; [contradiction|].
        change RECORD_LEN with 16. lia.
Qed.

Lemma write_record_negative c p e t (offset : Z) (tag : list byte)
    (timestamp : Z) :
  offset < 0 ->
  write_record offset tag timestamp (mkWorld c p e [] t)
  = (EINVAL, mkWorld c p EINVAL [] (Call_lseek offset :: t)).
Proof.
  intros H. unfold write_record, mbind.
  rewrite lseek_negative by exact H. reflexivity.
Qed.

Lemma store_body_refused (tag : list byte) (now skew : Z) (s : loop_state)
    (w : world) (ret offset n : Z) :
  next_table (table_offset s) (nrecords s) = (ret, offset, n) ->
  ret <> 0 ->
  store_body tag now skew s w = (Return ret, w).
Proof.
  intros Hnt Hret. unfold store_body. rewrite Hnt.
  destruct (Z.eqb_spec ret 0) as [E|_]; [contradiction|reflexivity].
Qed.

Lemma slot_offsets_apart (a b : Z) :
  slot_offset a -> slot_offset b -> b + RECORD_LEN <= a ->
  a = b + RECORD_LEN \/ b + 2 * RECORD_LEN <= a.
Proof.
  intros (k & _ & ->) (k' & _ & ->). change RECORD_LEN with 16. lia.
Qed.

Lemma store_loop_finds (fuel : nat) (tag : list byte) (now skew : Z)
    (s : loop_state) c p e t (offset n : Z) :
  next_table (table_offset s) (nrecords s) = (0, offset, n) ->
  0 <= offset -> 0 < n ->
  let ro :=
    offset
    + ((k5_siphash24 (firstn (Z.to_nat TAG_LEN) tag) (seed s) mod 2 ^ 64)
       mod n) * RECORD_LEN in
  let d := file_read c (Z.to_nat ro) 32 in
  let pr := parse_records (Z.of_nat (length d)) d (recs s) 0 in
  is_repeat (snd pr) (fst pr) tag = true ->
  fst (store_loop (S fuel) tag now skew s (mkWorld c p e [] t))
  = Some KRB5KRB_AP_ERR_REPEAT.
Proof.
  intros Hnt Hoff Hn ro d pr Hrep.
  rewrite store_loop_unfold.
  rewrite (store_body_ok tag now skew s _ _ _ _ offset n Hnt) by lia.
  cbv zeta. fold ro. fold d. fold pr. rewrite Hrep. reflexivity.
Qed.

Lemma store_loop_passes (fuel : nat) (tag : list byte) (now skew : Z)
    (s : loop_state) c p e t (offset n : Z) :
  next_table (table_offset s) (nrecords s) = (0, offset, n) ->
  0 <= offset -> 0 < n ->
  let ro :=
    offset
    + ((k5_siphash24 (firstn (Z.to_nat TAG_LEN) tag) (seed s) mod 2 ^ 64)
       mod n) * RECORD_LEN in
  let d := file_read c (Z.to_nat ro) 32 in
  let pr := parse_records (Z.of_nat (length d)) d (recs s) 0 in
  is_repeat (snd pr) (fst pr) tag = false ->
  is_last (snd pr) (fst pr) = false ->
  store_loop (S fuel) tag now skew s (mkWorld c p e [] t)
  = store_loop fuel tag now skew
      (mkLoop offset n
         (choose_avail (avail_offset s) ro (snd pr) (fst pr) now skew)
         (seed_incr (seed s)) (fst pr))
      (mkWorld c (ro + Z.of_nat (length d)) e []
         (Call_read (RECORD_LEN * 2) :: Call_lseek ro :: t)).
Proof.
  intros Hnt Hoff Hn ro d pr Hrep Hlast.
  rewrite store_loop_unfold.
  rewrite (store_body_ok tag now skew s _ _ _ _ offset n Hnt) by lia.
  cbv zeta. fold ro. fold d. fold pr. rewrite Hrep, Hlast. reflexivity.
Qed.

Lemma store_loop_again (fuel : nat) (tag : list byte)
    (now1 skew1 now2 skew2 : Z) :
  length tag = 12%nat ->
  forall (s1 : loop_state) c p1 e1 t1 (w1' : world),
    loop_inv s1 -> avail_offset s1 = -1 ->
    store_loop fuel tag now1 skew1 s1 (mkWorld c p1 e1 [] t1) = (Some 0, w1') ->
    forall (s2 : loop_state) p2 e2 t2,
      table_offset s2 = table_offset s1 -> nrecords s2 = nrecords s1 ->
      seed s2 = seed s1 ->
      fst (store_loop fuel tag now2 skew2 s2
             (mkWorld (contents w1') p2 e2 [] t2))
      = Some KRB5KRB_AP_ERR_REPEAT.
Proof.
  intros Hlen. assert (Hlen' : (12 <= length tag)%nat) by lia.
  induction fuel as [|fuel IH];
    intros s1 c p1 e1 t1 w1' Hinv Hav Hrun s2 p2 e2 t2 Eoff En Eseed.
  { discriminate Hrun. }
  destruct (next_table (table_offset s1) (nrecords s1)) as [[ret offset] n]
    eqn:Hnt.
  destruct (Z.eq_dec ret 0) as [->|Hret].
  2:{ rewrite store_loop_unfold in Hrun.
      rewrite (store_body_refused _ _ _ _ _ _ _ _ Hnt Hret) in Hrun.
      injection Hrun as E _. contradiction. }
  destruct (table_step_level s1 _ _ Hinv Hnt) as (m & E1 & E2).
  pose proof (level_capacity_lower m) as Hcap.
  destruct (level_offset_lower m) as [Hlow _].
  assert (Hoff : 0 <= offset) by lia.
  assert (Hn : 0 < n) by lia.
  assert (Hnt2 : next_table (table_offset s2) (nrecords s2) = (0, offset, n))
    by (rewrite Eoff, En; exact Hnt).
  pose proof (store_loop_finds fuel tag now2 skew2 s2 (contents w1') p2 e2 t2
                offset n Hnt2 Hoff Hn) as Hfinds.
  pose proof (store_loop_passes fuel tag now2 skew2 s2 (contents w1') p2 e2
                t2 offset n Hnt2 Hoff Hn) as Hpasses2.
  pose proof (store_loop_passes fuel tag now1 skew1 s1 c p1 e1 t1 offset n
                Hnt Hoff Hn) as Hpasses1.
  rewrite store_loop_unfold in Hrun.
  rewrite (store_body_ok tag now1 skew1 s1 _ _ _ _ offset n Hnt) in Hrun
    by lia.
  cbv zeta in Hrun, Hfinds, Hpasses1, Hpasses2. rewrite Eseed in Hfinds, Hpasses2.
  set (ind := (k5_siphash24 (firstn (Z.to_nat TAG_LEN) tag) (seed s1)
               mod 2 ^ 64) mod n) in *.
  assert (Hind : 0 <= ind < n) by (apply Z.mod_pos_bound; lia).
  set (ro := offset + ind * RECORD_LEN) in *.
  assert (Hro : 0 <= ro) by (unfold ro; change RECORD_LEN with 16; lia).
  assert (Hroslot : slot_offset ro).
  { unfold ro. rewrite E1, Z.mul_comm. apply slot_in_level. lia. }
  set (d1 := file_read c (Z.to_nat ro) 32) in *.
  assert (Hd1 : length d1 = Nat.min 32 (length c - Z.to_nat ro))
    by apply file_read_length.
  set (pr1 := parse_records (Z.of_nat (length d1)) d1 (recs s1) 0) in *.
  assert (Hn1 : 0 <= snd pr1 <= 2) by apply parse_records_nread.
  destruct (is_repeat (snd pr1) (fst pr1) tag) eqn:Hrep1;
    [discriminate Hrun|].
  rewrite Hav in Hrun, Hpasses1.
  set (a1 := choose_avail (-1) ro (snd pr1) (fst pr1) now1 skew1) in *.
  assert (Ha1 : a1 = -1 \/ a1 = ro
                \/ (a1 = ro + RECORD_LEN
                    /\ ro + RECORD_LEN <= Z.of_nat (length c))).
  { destruct (choose_avail_cases (-1) ro (snd pr1) (fst pr1) now1 skew1)
      as [[H _]|[_ [H|[H|H]]]]; fold a1 in H; auto; [contradiction|].
    right. right. split; [exact H|].
    apply choose_avail_second in H. apply parse_records_some in H.
    change RECORD_LEN with 16. lia. }
  assert (Hfound : forall a : Z,
             a = ro \/ (a = ro + RECORD_LEN
                        /\ ro + RECORD_LEN <= Z.of_nat (length c)) ->
             contents w1'
             = file_write c (Z.to_nat a) (marshal_record tag now1) ->
             fst (store_loop (S fuel) tag now2 skew2 s2
                    (mkWorld (contents w1') p2 e2 [] t2))
             = Some KRB5KRB_AP_ERR_REPEAT).
  { intros a Ha Hc. apply Hfinds.
    pose proof (probe_after_write c ro a tag now1 (recs s2) Hlen Hro Ha)
      as Hp.
    cbv zeta in Hp. rewrite <- Hc in Hp. exact Hp. }
  destruct (is_last (snd pr1) (fst pr1)) eqn:Hlast.
  - (* the first run ends at this level *)
    destruct (Z.ltb_spec a1 0) as [Hneg|Hpos].
    { rewrite write_record_negative in Hrun by exact Hneg.
      injection Hrun as E _. discriminate E. }
    rewrite write_record_ok in Hrun by lia.
    injection Hrun as <-.
    apply (Hfound a1); [|reflexivity].
    destruct Ha1 as [E|[E|E]]; [lia|left; exact E|right; exact E].
  - (* the first run goes on *)
    assert (Hlen1 : length d1 = 32%nat).
    { apply is_last_false in Hlast.
      assert (E : snd pr1 = 2) by lia.
      apply parse_records_two in E. lia. }
    assert (Hclen : ro + 2 * RECORD_LEN <= Z.of_nat (length c))
      by (change RECORD_LEN with 16; lia).
    specialize (Hpasses1 eq_refl eq_refl).
    set (s1' := mkLoop offset n a1 (seed_incr (seed s1)) (fst pr1)) in *.
    assert (Hinv' : loop_inv s1').
    { split; [right; exists m; auto|].
      destruct Ha1 as [E|[E|[E _]]]; [left; exact E|right|right];
        cbn [avail_offset s1']; rewrite E; [exact Hroslot|].
      unfold ro. rewrite E1.
      replace (level_offset m + ind * RECORD_LEN + RECORD_LEN)
        with (level_offset m + RECORD_LEN * (ind + 1)) by lia.
      apply slot_in_level. lia. }
    destruct (Z.eq_dec a1 (-1)) as [Eset|Eset].
    + (* no slot kept yet: the record is written at a later level *)
      cbv beta iota in Hrun.
      match type of Hrun with
      | store_loop _ _ _ _ _ ?W = _ =>
          pose proof (store_loop_writes_later fuel c tag now1 skew1 Hlen' s1'
                        Hinv' Eset W eq_refl) as Hlater
      end.
      rewrite Hrun in Hlater. cbn [fst snd] in Hlater.
      destruct (Hlater eq_refl) as (a & Haslot & Hge & Hc).
      rewrite (next_offset_level s1' m E1 E2) in Hge.
      assert (Hgap : ro + RECORD_LEN <= a)
        by (unfold ro; rewrite E1; change RECORD_LEN with 16 in *; lia).
      destruct (slot_offsets_apart a ro Haslot Hroslot Hgap) as [Ea|Ea].
      * apply (Hfound a); [|exact Hc]. right. split; [exact Ea|].
        change RECORD_LEN with 16 in *. lia.
      * assert (Hd2 : file_read (contents w1') (Z.to_nat ro) 32 = d1).
        { rewrite Hc. apply file_read_before_write;
            change RECORD_LEN with 16 in *; lia. }
        rewrite Hd2, Hlen1 in Hpasses2.
        assert (Epr : parse_records (Z.of_nat 32) d1 (recs s2) 0 = pr1).
        { unfold pr1. rewrite Hlen1. apply parse_records_full. }
        rewrite Epr in Hpasses2.
        rewrite (Hpasses2 Hrep1 Hlast).
        apply (IH s1' c _ e1 _ w1' Hinv' Eset Hrun); reflexivity.
    + (* a slot is kept at this level: the record is written there *)
      cbv beta iota in Hrun.
      match type of Hrun with
      | store_loop _ _ _ _ _ ?W = _ =>
          pose proof (store_loop_spec fuel c tag now1 skew1 s1' Hlen' W
                        eq_refl) as Hspec
      end.
      rewrite Hrun in Hspec. cbn in Hspec.
      destruct Hspec as [[Hne _]|(_ & a & _ & _ & Hk & Hc)]; [contradiction|].
      rewrite (Hk Eset) in Hc.
      apply (Hfound a1); [|exact Hc].
      destruct Ha1 as [E|[E|[E _]]]; [contradiction|left; exact E|].
      right. split; [exact E|]. change RECORD_LEN with 16 in *. lia.
Qed.

Lemma store_again_any (context1 context2 : krb5_context)
    (junk1 junk2 : records) (tag : list byte) (t1 t2 skew1 skew2 : Z)
    (c0 : list byte) (e1 : Z) (tr1 : list call) (w1' : world) (e2 : Z)
    (tr2 : list call) :
  length tag = 12%nat ->
  c0 = [] \/ K5_HASH_SEED_LEN <= Z.of_nat (length c0) ->
  store context1 junk1 tag t1 skew1 (mkWorld c0 0 e1 [] tr1) = (Some 0, w1') ->
  fst (store context2 junk2 tag t2 skew2 (mkWorld (contents w1') 0 e2 [] tr2))
  = Some KRB5KRB_AP_ERR_REPEAT.
Proof.
  intros Hlen Hseed Hret.
  assert (Hlen' : (12 <= length tag)%nat) by lia.
  (* the seed step of the first call *)
  assert (Hstep : exists sd c1 p e tr,
             store_seed context1 (mkWorld c0 0 e1 [] tr1)
             = ((0, sd), mkWorld c1 p e [] tr)
             /\ firstn (Z.to_nat K5_HASH_SEED_LEN) c1 = sd
             /\ K5_HASH_SEED_LEN <= Z.of_nat (length c1)).
  { destruct (Z.lt_ge_cases (Z.of_nat (length c0)) K5_HASH_SEED_LEN)
      as [Hshort|Hfull].
    - destruct Hseed as [->|H]; [|lia].
      rewrite store_seed_short by exact Hshort. cbv zeta.
      do 5 eexists. split; [reflexivity|].
      rewrite file_write_at_end. cbn [app].
      rewrite length_map, length_seq.
      split; [|lia]. apply firstn_all2.
      rewrite length_map, length_seq. lia.
    - rewrite store_seed_full by exact Hfull.
      do 5 eexists. split; [reflexivity|]. split; [reflexivity|exact Hfull]. }
  destruct Hstep as (sd & c1 & p & e & tr & Hs & Hsd & Hc1).
  revert Hret. unfold store at 1, mbind. rewrite Hs.
  cbn [Z.eqb negb].
  set (s0 := mkLoop (-1) 0 (-1) sd junk1).
  intros Hrun.
  (* the file the first call left still starts with the seed *)
  pose proof (store_loop_spec table_bound c1 tag t1 skew1 s0 Hlen') as Hspec.
  unfold hoare in Hspec.
  specialize (Hspec (mkWorld c1 p e [] tr) eq_refl).
  rewrite Hrun in Hspec. cbn [fst snd loop_post] in Hspec.
  destruct Hspec as [[Hne _]|(_ & a & Ha & Hslot & _ & Hc)]; [contradiction|].
  destruct (Hslot (loop_inv_start sd junk1)) as (k & Hk & Hak).
  assert (Hkeep : firstn (Z.to_nat K5_HASH_SEED_LEN) (contents w1') = sd).
  { rewrite Hc, file_write_firstn; [exact Hsd| |lia].
    change RECORD_LEN with 16 in Hak. lia. }
  assert (Hlong : K5_HASH_SEED_LEN <= Z.of_nat (length (contents w1'))).
  { rewrite Hc, file_write_length. lia. }
  (* the second call *)
  unfold store, mbind. rewrite store_seed_full by exact Hlong.
  rewrite Hkeep. cbn [Z.eqb negb].
  apply (store_loop_again table_bound tag t1 skew1 t2 skew2 Hlen s0 c1 p e tr
           w1' (loop_inv_start sd junk1) eq_refl Hrun); reflexivity.
Qed.

(** X4. No false negatives, whatever the file holds.  On a descriptor at
    offset 0 of a file that is empty or holds a whole seed, and with no call
    failing: when [store] succeeds for a tag, a later [store] of the same
    tag on the file it left returns KRB5KRB_AP_ERR_REPEAT, at any time and
    with any skew. *)
Theorem store_again_repeat (context1 context2 : krb5_context)
    (junk1 junk2 : records) (tag : list byte) (t1 t2 skew1 skew2 : Z)
    (w1 w2 : world) :
  length tag = 12%nat ->
  pos w1 = 0 -> faults w1 = [] ->
  contents w1 = []
  \/ K5_HASH_SEED_LEN <= Z.of_nat (length (contents w1)) ->
  fst (store context1 junk1 tag t1 skew1 w1) = Some 0 ->
  reopened (snd (store context1 junk1 tag t1 skew1 w1)) w2 ->
  fst (store context2 junk2 tag t2 skew2 w2) = Some KRB5KRB_AP_ERR_REPEAT.
Proof.
  intros Hlen Hp1 Hf1 Hseed.
  destruct w1 as [c0 p1 e1 f1 tr1]. cbn [pos faults contents] in *.
  subst p1 f1.
  destruct (store context1 junk1 tag t1 skew1 (mkWorld c0 0 e1 [] tr1))
    as [r w1'] eqn:Hrun.
  cbn [fst snd]. intros -> (Hc2 & Hp2 & Hf2).
  destruct w2 as [c2 p2 e2 f2 tr2]. cbn [pos faults contents] in *.
  subst c2 p2 f2.
  exact (store_again_any context1 context2 junk1 junk2 tag t1 t2 skew1 skew2
           c0 e1 tr1 w1' e2 tr2 Hlen Hseed Hrun).
Qed.

(** ** Replays through the entry point *)

Lemma copy_tag_length (data : list byte) : length (copy_tag data) = 12%nat.
Proof.
  unfold copy_tag. change TAG_LEN with 12.
  destruct (Z.geb_spec (Z.of_nat (length data)) 12).
  - rewrite length_firstn. lia.
  - rewrite length_app, length_firstn, repeat_length. lia.
Qed.

Lemma unlock_keeps (w : world) :
  contents (snd (krb5_unlock_file w)) = contents w.
Proof.
  unfold krb5_unlock_file, mbind, enter.
  destruct (faults w) as [|[[e|n]|] f]; reflexivity.
Qed.

Lemma k5_rcfile2_store_ok (context : krb5_context) (junk : records)
    (rep : krb5_donot_replay) c p e t :
  tag rep <> [] ->
  k5_rcfile2_store context junk rep (mkWorld c p e [] t)
  = (let r :=
       store context junk (copy_tag (tag rep)) (os_clock context mod 2 ^ 32)
         (clockskew context mod 2 ^ 32)
         (mkWorld c p e [] (Call_lock :: Call_timeofday :: t)) in
     (fst r, snd (krb5_unlock_file (snd r)))).
Proof.
  intros Hne. unfold k5_rcfile2_store.
  destruct (Z.eqb_spec (Z.of_nat (length (tag rep))) 0) as [E|_].
  { destruct (tag rep); [contradiction|discriminate]. }
  unfold mbind. rewrite timeofday_ok. cbn [Z.eqb negb].
  rewrite lock_ok. cbn [Z.eqb negb contents pos errno]. cbv zeta.
  destruct (store context junk (copy_tag (tag rep)) _ _ _) as [ret w'].
  cbn [fst snd]. destruct (krb5_unlock_file w') as [u w2]. reflexivity.
Qed.

Lemma k5_rcfile2_store_again (context1 context2 : krb5_context)
    (junk1 junk2 : records) (rep1 rep2 : krb5_donot_replay)
    (c0 : list byte) (e1 : Z) (tr1 : list call) (w1' : world) (e2 : Z)
    (tr2 : list call) :
  tag rep2 <> [] ->
  copy_tag (tag rep2) = copy_tag (tag rep1) ->
  c0 = [] \/ K5_HASH_SEED_LEN <= Z.of_nat (length c0) ->
  k5_rcfile2_store context1 junk1 rep1 (mkWorld c0 0 e1 [] tr1)
  = (Some 0, w1') ->
  fst (k5_rcfile2_store context2 junk2 rep2
         (mkWorld (contents w1') 0 e2 [] tr2))
  = Some KRB5KRB_AP_ERR_REPEAT.
Proof.
  intros Hne2 Hsame Hseed Hret.
  assert (Hne1 : tag rep1 <> []).
  { intros E. unfold k5_rcfile2_store in Hret. rewrite E in Hret.
    discriminate Hret. }
  rewrite (k5_rcfile2_store_ok context1 junk1 rep1 _ _ _ _ Hne1) in Hret.
  cbv zeta in Hret.
  destruct (store context1 junk1 (copy_tag (tag rep1)) _ _ _)
    as [r w1] eqn:Hrun.
  cbn [fst snd] in Hret. injection Hret as -> <-.
  rewrite unlock_keeps.
  rewrite (k5_rcfile2_store_ok context2 junk2 rep2 _ _ _ _ Hne2). cbv zeta.
  cbn [fst]. rewrite Hsame.
  exact (store_again_any context1 context2 junk1 junk2 (copy_tag (tag rep1))
           _ _ _ _ c0 e1 _ w1 e2 _ (copy_tag_length _) Hseed Hrun).
Qed.

(** X8. Replays are recognised through the entry point by the 12 bytes
    kept of the tag.  With no call failing, on a file that is empty or
    holds a whole seed: once [k5_rcfile2_store] has accepted a tag, a later
    call on the file it left returns KRB5KRB_AP_ERR_REPEAT for every tag
    that is not empty and is copied to the same 12 bytes -- the same first
    12 bytes, or the same bytes up to trailing zero bytes -- whatever the
    two clocks and skews are. *)
Theorem k5_rcfile2_store_replay (context1 context2 : krb5_context)
    (junk1 junk2 : records) (rep1 rep2 : krb5_donot_replay) (w1 w2 : world) :
  tag rep2 <> [] ->
  copy_tag (tag rep2) = copy_tag (tag rep1) ->
  pos w1 = 0 -> faults w1 = [] ->
  contents w1 = []
  \/ K5_HASH_SEED_LEN <= Z.of_nat (length (contents w1)) ->
  fst (k5_rcfile2_store context1 junk1 rep1 w1) = Some 0 ->
  reopened (snd (k5_rcfile2_store context1 junk1 rep1 w1)) w2 ->
  fst (k5_rcfile2_store context2 junk2 rep2 w2)
  = Some KRB5KRB_AP_ERR_REPEAT.
Proof.
  intros Hne2 Hsame Hp1 Hf1 Hseed.
  destruct w1 as [c0 p1 e1 f1 tr1]. cbn [pos faults contents] in *.
  subst p1 f1.
  destruct (k5_rcfile2_store context1 junk1 rep1 (mkWorld c0 0 e1 [] tr1))
    as [r w1'] eqn:Hrun.
  cbn [fst snd]. intros -> (Hc2 & Hp2 & Hf2).
  destruct w2 as [c2 p2 e2 f2 tr2]. cbn [pos faults contents] in *.
  subst c2 p2 f2.
  exact (k5_rcfile2_store_again context1 context2 junk1 junk2 rep1 rep2 c0 e1
           tr1 w1' e2 tr2 Hne2 Hsame Hseed Hrun).
Qed.

(** ** The record stays below the maximum size *)

Lemma level_end_bound (s : loop_state) (offset n : Z) :
  loop_inv s ->
  next_table (table_offset s) (nrecords s) = (0, offset, n) ->
  0 < n
  /\ offset + n * RECORD_LEN
     <= Z.min MAX_SIZE (K5_HASH_SEED_LEN + 2147467248).
Proof.
  intros Hinv Hnt.
  pose proof (next_table_accepts _ _ _ _ Hnt) as [_ Hmax].
  assert (Hm : exists m, level_fits m = true
                         /\ offset = level_offset m
                         /\ n = level_capacity m).
  { destruct Hinv as [[E|(k & E1 & E2)] _].
    - rewrite E, next_table_start in Hnt. exists 0%nat.
      destruct (level_fits 0); [|discriminate Hnt].
      injection Hnt as <- <-. auto.
    - rewrite E1, E2, next_table_level in Hnt. exists (S k).
      destruct (level_fits (S k)); [|discriminate Hnt].
      injection Hnt as <- <-. auto. }
  destruct Hm as (m & Hfit & -> & ->).
  pose proof (level_capacity_lower m) as Hcap.
  apply level_fits_bound in Hfit.
  destruct (level_sizes m ltac:(lia)) as [_ Hspan].
  rewrite level_offset_span. split; [lia|].
  rewrite level_offset_span in Hmax. lia.
Qed.

Lemma store_body_bound (c tag : list byte) (now skew : Z) (s : loop_state)
    (B : Z) :
  (12 <= length tag)%nat ->
  (forall offset n,
      next_table (table_offset s) (nrecords s) = (0, offset, n) ->
      0 < n /\ offset + n * RECORD_LEN <= B) ->
  avail_offset s <= B ->
  hoare (fun w => contents w = c) (store_body tag now skew s)
    (fun o w' =>
       match o with
       | Continue s' => avail_offset s' <= B
       | Return ret =>
           ret = 0 ->
           exists a,
             return_rel s a /\ a <= B
             /\ contents w'
                = file_write c (Z.to_nat a) (marshal_record tag now)
       end).
Proof.
  intros Hlen Hend Hav0. unfold store_body.
  destruct (next_table (table_offset s) (nrecords s)) as [[ret offset] n]
    eqn:Hnt.
  destruct (Z.eqb_spec ret 0) as [Hret|Hret]; cbn [negb];
    [subst ret|apply hoare_ret; intros w _ E; contradiction].
  destruct (Hend offset n eq_refl) as [Hn Hfit].
  set (ind := (k5_siphash24 (firstn (Z.to_nat TAG_LEN) tag) (seed s)
               mod 2 ^ 64) mod n).
  assert (Hind : 0 <= ind < n) by (apply Z.mod_pos_bound, Hn).
  clearbody ind.
  eapply hoare_bind; [apply (read_records_spec c)|].
  intros [[ret r] nread]. cbn [snd].
  destruct (Z.eqb_spec ret 0) as [Hret|Hret]; cbn [negb];
    [subst ret|apply hoare_ret; intros w _ E; contradiction].
  destruct (is_repeat nread r tag);
    [apply hoare_ret; intros w _ E; discriminate E|].
  pose proof (choose_avail_cases (avail_offset s) (offset + ind * RECORD_LEN)
                nread r now skew) as Hav.
  cbv zeta in Hav.
  set (a := choose_avail (avail_offset s) (offset + ind * RECORD_LEN)
              nread r now skew) in *.
  clearbody a.
  assert (Hbound : a <= B).
  { change RECORD_LEN with 16 in *.
    destruct Hav as [[_ E]|[E0 [E|[E|E]]]]; lia. }
  destruct (is_last nread r).
  - eapply hoare_bind.
    + eapply hoare_weaken;
        [apply (write_record_spec c a tag now Hlen)| |intros x w H; exact H].
      cbn beta. intros w [Hc _]. exact Hc.
    + intros ret. apply hoare_ret.
      intros w [[Hne Hc]|[_ [H0 Hc]]] E; [contradiction|].
      exists a. split; [|split; assumption].
      exists offset, n. split; [exact Hnt|]. split; [exact H0|].
      split.
      * intros Hne. destruct Hav as [[_ Ea]|[Ea _]]; [exact Ea|contradiction].
      * intros He. destruct Hav as [[Ea _]|[_ [Ea|[Ea|Ea]]]];
          [contradiction|lia| |].
        -- exists ind. split; [lia|]. intros _. lia.
        -- exists (ind + 1). split; [lia|]. intros _. lia.
  - apply hoare_ret. intros w _. cbn [avail_offset]. exact Hbound.
Qed.

Lemma store_loop_bound (fuel : nat) (c tag : list byte) (now skew : Z) :
  (12 <= length tag)%nat ->
  forall s : loop_state,
    loop_inv s ->
    avail_offset s <= Z.min MAX_SIZE (K5_HASH_SEED_LEN + 2147467248) ->
    hoare (fun w => contents w = c) (store_loop fuel tag now skew s)
      (fun r w' =>
         r = Some 0 ->
         exists a,
           slot_offset a
           /\ a <= Z.min MAX_SIZE (K5_HASH_SEED_LEN + 2147467248)
           /\ contents w'
              = file_write c (Z.to_nat a) (marshal_record tag now)).
Proof.
  intros Hlen. induction fuel as [|fuel IH]; intros s Hinv Hav.
  - apply hoare_ret. intros w _ E. discriminate E.
  - cbn [store_loop]. eapply hoare_bind.
    + eapply hoare_weaken;
        [apply (hoare_conj _ _ _ _ _
                  (store_body_spec c tag now skew s Hlen)
                  (store_body_bound c tag now skew s _ Hlen
                     (fun offset n => level_end_bound s offset n Hinv)
                     Hav))
        |intros w Hc; split; exact Hc|intros a w H; exact H].
    + intros [ret|s'].
      * apply hoare_ret. intros w [_ Hb] [= ->].
        destruct (Hb eq_refl) as (a & Hrel & Ha & Hc).
        exists a. split; [exact (return_slot s a Hinv Hrel)|].
        split; assumption.
      * apply (hoare_assume (continue_rel s s' /\ avail_offset s'
                             <= Z.min MAX_SIZE
                                  (K5_HASH_SEED_LEN + 2147467248)));
          [intros w [[_ H1] H2]; split; assumption|].
        intros [Hrel Hav'].
        eapply hoare_weaken;
          [apply (IH s' (loop_inv_step s s' Hinv Hrel) Hav')
          |intros w [[Hc _] _]; exact Hc|intros a w H; exact H].
Qed.

(** X5. A record is never written past the maximum size.  When [store]
    succeeds, whichever calls failed on the way, its record went to a slot
    offset no greater than [MAX_SIZE] and ends at most 2147467264 bytes
    after the seed, one record after the end of the last table that fits;
    the file is then no longer than that, unless it already was. *)
Theorem store_below_max_size (context : krb5_context) (junk : records)
    (tag : list byte) (now skew : Z) (w : world) :
  length tag = 12%nat -> pos w = 0 ->
  fst (store context junk tag now skew w) = Some 0 ->
  let c1 := contents (snd (store_seed context w)) in
  let w' := snd (store context junk tag now skew w) in
  exists a,
    slot_offset a
    /\ a <= MAX_SIZE
    /\ a + RECORD_LEN <= K5_HASH_SEED_LEN + 2147467264
    /\ contents w' = file_write c1 (Z.to_nat a) (marshal_record tag now)
    /\ Z.of_nat (length (contents w'))
       <= Z.max (Z.of_nat (length c1)) (K5_HASH_SEED_LEN + 2147467264).
Proof.
  intros Hlen Hpos. assert (Hlen' : (12 <= length tag)%nat) by lia.
  unfold store, mbind.
  destruct (store_seed context w) as [[ret sd] w1] eqn:Hs. cbn [snd].
  destruct (Z.eqb_spec ret 0) as [->|Hret]; cbn [negb].
  2:{ cbn. intros [= E]. contradiction. }
  intros Hret.
  assert (Hav : avail_offset (mkLoop (-1) 0 (-1) sd junk)
                <= Z.min MAX_SIZE (K5_HASH_SEED_LEN + 2147467248)).
  { cbn [avail_offset]. unfold MAX_SIZE, INT32_MAX. lia. }
  pose proof (store_loop_bound table_bound (contents w1) tag now skew Hlen'
                _ (loop_inv_start sd junk) Hav w1 eq_refl Hret)
    as (a & Hslot & Ha & Hc).
  exists a. split; [exact Hslot|].
  assert (Hrec : length (marshal_record tag now) = 16%nat)
    by (apply marshal_record_length, Hlen').
  destruct Hslot as (k & Hk & Hak).
  change RECORD_LEN with 16 in *.
  repeat split; try lia; try exact Hc.
  rewrite Hc, file_write_length, Hrec. lia.
Qed.

(** ** The calls made under the lock *)

Lemma calls_of_store_start (w : world) : calls_of_store (trace w) w.
Proof. exists []. split; reflexivity. Qed.

Lemma enter_calls (t0 : list call) (c : call) :
  store_call c = true ->
  hoare (calls_of_store t0) (enter c) (fun _ => calls_of_store t0).
Proof.
  intros Hc [ct p e f t] (made & Ht & Hall). cbn [trace] in Ht. subst t.
  exists (c :: made). unfold enter. cbn [faults].
  destruct f as [|o fs]; cbn [snd trace forallb]; rewrite Hc, Hall; auto.
Qed.

Lemma set_errno_calls (t0 : list call) (e : Z) :
  hoare (calls_of_store t0) (set_errno e) (fun _ => calls_of_store t0).
Proof. intros w H. exact H. Qed.

Lemma get_errno_calls (t0 : list call) :
  hoare (calls_of_store t0) get_errno (fun _ => calls_of_store t0).
Proof. intros w H. exact H. Qed.

Lemma lseek_calls (t0 : list call) (offset : Z) :
  hoare (calls_of_store t0) (lseek offset) (fun _ => calls_of_store t0).
Proof.
  unfold lseek. eapply hoare_bind; [apply enter_calls; reflexivity|].
  intros [[e|n]|]; intros w H; [exact H| |];
    (destruct (offset <? 0); exact H).
Qed.

Lemma read_calls (t0 : list call) (count : Z) :
  hoare (calls_of_store t0) (read count) (fun _ => calls_of_store t0).
Proof.
  unfold read. eapply hoare_bind; [apply enter_calls; reflexivity|].
  intros [[e|n]|]; intros w H; exact H.
Qed.

Lemma write_calls (t0 : list call) (buf : list byte) :
  hoare (calls_of_store t0) (write buf) (fun _ => calls_of_store t0).
Proof.
  unfold write. eapply hoare_bind; [apply enter_calls; reflexivity|].
  intros [[e|n]|]; intros w H; exact H.
Qed.

Lemma random_calls (t0 : list call) (context : krb5_context) (len : Z) :
  hoare (calls_of_store t0) (krb5_c_random_make_octets context len)
    (fun _ => calls_of_store t0).
Proof.
  unfold krb5_c_random_make_octets.
  eapply hoare_bind; [apply enter_calls; reflexivity|].
  intros [[e|n]|]; apply hoare_ret; auto.
Qed.

Create HintDb calls.

#[local] Hint Resolve lseek_calls read_calls write_calls random_calls
  get_errno_calls : calls.

(** Walks through a computation made of the calls above. *)
Ltac calls_only :=
  repeat first
    [ apply hoare_ret; intros ? ?; assumption
    | eapply hoare_bind; [solve [auto with calls]|intros ?]
    | match goal with
      | |- hoare _ (if ?b then _ else _) _ => destruct b
      | |- hoare _ (match ?x with _ => _ end) _ => destruct x
      end ].

Lemma read_records_calls (t0 : list call) (offset : Z) (out : records) :
  hoare (calls_of_store t0) (read_records offset out)
    (fun _ => calls_of_store t0).
Proof. unfold read_records. calls_only. Qed.

Lemma write_record_calls (t0 : list call) (offset : Z) (tag : list byte)
    (timestamp : Z) :
  hoare (calls_of_store t0) (write_record offset tag timestamp)
    (fun _ => calls_of_store t0).
Proof. unfold write_record. calls_only. Qed.

Lemma store_seed_calls (t0 : list call) (context : krb5_context) :
  hoare (calls_of_store t0) (store_seed context) (fun _ => calls_of_store t0).
Proof. unfold store_seed. calls_only. Qed.

#[local] Hint Resolve read_records_calls write_record_calls store_seed_calls
  : calls.

Lemma store_body_calls (t0 : list call) (tag : list byte) (now skew : Z)
    (s : loop_state) :
  hoare (calls_of_store t0) (store_body tag now skew s)
    (fun _ => calls_of_store t0).
Proof. unfold store_body. calls_only. Qed.

Lemma store_loop_calls (t0 : list call) (fuel : nat) (tag : list byte)
    (now skew : Z) (s : loop_state) :
  hoare (calls_of_store t0) (store_loop fuel tag now skew s)
    (fun _ => calls_of_store t0).
Proof.
  revert s. induction fuel as [|fuel IH]; intros s; cbn [store_loop].
  - apply hoare_ret. auto.
  - eapply hoare_bind; [apply store_body_calls|].
    intros [ret|s']; [apply hoare_ret; auto|apply IH].
Qed.

Lemma store_calls (t0 : list call) (context : krb5_context) (junk : records)
    (tag : list byte) (now skew : Z) :
  hoare (calls_of_store t0) (store context junk tag now skew)
    (fun _ => calls_of_store t0).
Proof.
  unfold store. eapply hoare_bind; [apply store_seed_calls|].
  intros [ret sd]. destruct (negb (ret =? 0));
    [apply hoare_ret; auto|apply store_loop_calls].
Qed.


Lemma unlock_trace (w : world) :
  trace (snd (krb5_unlock_file w)) = Call_unlock :: trace w.
Proof.
  unfold krb5_unlock_file, mbind, enter.
  destruct (faults w) as [|[[e|n]|] f]; reflexivity.
Qed.

Lemma store_under_lock (context : krb5_context) (junk : records)
    (tag : list byte) (now skew : Z) (locked : world) :
  let r :=
    (ret <- store context junk tag now skew ;;
     _ <- krb5_unlock_file ;; mret ret) locked in
  exists under,
    trace (snd r) = Call_unlock :: under ++ trace locked
    /\ forallb store_call under = true
    /\ fst r = fst (store context junk tag now skew locked)
    /\ contents (snd r) = contents (snd (store context junk tag now skew locked)).
Proof.
  pose proof (store_calls _ context junk tag now skew locked
                (calls_of_store_start locked)) as (under & Hu & Hall).
  exists under. unfold mbind.
  destruct (store context junk tag now skew locked) as [ret w1].
  pose proof (unlock_trace w1) as Ht. pose proof (unlock_keeps w1) as Hc.
  destruct (krb5_unlock_file w1) as [u w2].
  cbn [fst snd mret] in *. rewrite Ht, Hu. auto.
Qed.

Lemma timeofday_run (context : krb5_context) (w : world) :
  krb5_timeofday context w
  = (match hd None (faults w) with
     | Some (Errno e) => (Zpos e, 0)
     | _ => (0, os_clock context)
     end,
     mkWorld (contents w) (pos w) (errno w) (tl (faults w))
       (Call_timeofday :: trace w)).
Proof.
  unfold krb5_timeofday, mbind, enter.
  destruct (faults w) as [|[[e|n]|] f]; reflexivity.
Qed.

Lemma lock_run (w : world) :
  krb5_lock_file w
  = (match hd None (faults w) with
     | Some (Errno e) => Zpos e
     | _ => 0
     end,
     mkWorld (contents w) (pos w) (errno w) (tl (faults w))
       (Call_lock :: trace w)).
Proof.
  unfold krb5_lock_file, mbind, enter.
  destruct (faults w) as [|[[e|n]|] f]; reflexivity.
Qed.

Lemma k5_rcfile2_store_run (context : krb5_context) (junk : records)
    (rep : krb5_donot_replay) (w : world) :
  tag rep <> [] ->
  k5_rcfile2_store context junk rep w
  = match hd None (faults w) with
    | Some (Errno e) =>
        (Some (Zpos e),
         mkWorld (contents w) (pos w) (errno w) (tl (faults w))
           (Call_timeofday :: trace w))
    | _ =>
        match hd None (tl (faults w)) with
        | Some (Errno e) =>
            (Some (Zpos e),
             mkWorld (contents w) (pos w) (errno w) (tl (tl (faults w)))
               (Call_lock :: Call_timeofday :: trace w))
        | _ =>
            (ret <- store context junk (copy_tag (tag rep))
                      (os_clock context mod 2 ^ 32)
                      (clockskew context mod 2 ^ 32) ;;
             _ <- krb5_unlock_file ;; mret ret)
              (mkWorld (contents w) (pos w) (errno w) (tl (tl (faults w)))
                 (Call_lock :: Call_timeofday :: trace w))
        end
    end.
Proof.
  intros Hne. unfold k5_rcfile2_store.
  destruct (Z.eqb_spec (Z.of_nat (length (tag rep))) 0) as [E|_].
  { destruct (tag rep); [contradiction|discriminate]. }
  unfold mbind at 1. rewrite timeofday_run.
  destruct (hd None (faults w)) as [[e|n]|]; cbv beta iota;
    cbn [Z.eqb negb]; [reflexivity| |];
    (unfold mbind at 1; rewrite lock_run;
     cbn [faults contents pos errno trace];
     destruct (hd None (tl (faults w))) as [[e|n']|]; cbv beta iota;
     cbn [Z.eqb negb]; reflexivity).
Qed.

(** X6. The lock discipline of [k5_rcfile2_store], whichever calls fail.
    An empty tag makes no call at all.  When the clock fails, or the clock
    is read and the lock fails, that error is returned and the file has not
    been touched.  Otherwise the lock is taken once and [store] is called
    on the descriptor as it was, with the tag copied, the time read and the
    skew of the context; every call made under the lock is one on the
    descriptor or the one to the random generator; the lock is released
    once, as the last call, also when [store] failed; the value returned
    and the file left are those of that call of [store], whatever the
    release returned. *)
Theorem k5_rcfile2_store_locking (context : krb5_context) (junk : records)
    (rep : krb5_donot_replay) (w : world) :
  let r := k5_rcfile2_store context junk rep w in
  let clock := hd None (faults w) in
  let lock := hd None (tl (faults w)) in
  let locked :=
    mkWorld (contents w) (pos w) (errno w) (tl (tl (faults w)))
      (Call_lock :: Call_timeofday :: trace w) in
  let stored :=
    store context junk (copy_tag (tag rep)) (os_clock context mod 2 ^ 32)
      (clockskew context mod 2 ^ 32) locked in
  (tag rep = [] /\ r = (Some EINVAL, w))
  \/ (tag rep <> []
      /\ ((exists e,
              clock = Some (Errno e)
              /\ fst r = Some (Zpos e)
              /\ trace (snd r) = Call_timeofday :: trace w
              /\ contents (snd r) = contents w)
          \/ (exists e,
                (forall e0, clock <> Some (Errno e0))
                /\ lock = Some (Errno e)
                /\ fst r = Some (Zpos e)
                /\ trace (snd r) = Call_lock :: Call_timeofday :: trace w
                /\ contents (snd r) = contents w)
          \/ ((forall e0, clock <> Some (Errno e0))
              /\ (forall e0, lock <> Some (Errno e0))
              /\ fst r = fst stored
              /\ contents (snd r) = contents (snd stored)
              /\ exists under,
                  trace (snd r)
                  = Call_unlock :: under ++ Call_lock :: Call_timeofday
                      :: trace w
                  /\ forallb store_call under = true))).
Proof.
  intros r clock lock locked stored. subst r clock lock.
  assert (Hcase : tag rep = [] \/ tag rep <> [])
    by (destruct (tag rep); [left; reflexivity|right; discriminate]).
  destruct Hcase as [E|Hne].
  { left. split; [exact E|].
    unfold k5_rcfile2_store. rewrite E. reflexivity. }
  right. split; [exact Hne|].
  rewrite (k5_rcfile2_store_run _ _ _ _ Hne). fold locked.
  destruct (hd None (faults w)) as [[e|n]|] eqn:Hclock;
    [left; exists e; cbn; auto| |];
    (right;
     destruct (hd None (tl (faults w))) as [[e|n']|] eqn:Hlock;
     [left; exists e; cbn; repeat split; discriminate || reflexivity| |];
     (right;
      destruct (store_under_lock context junk (copy_tag (tag rep))
                  (os_clock context mod 2 ^ 32)
                  (clockskew context mod 2 ^ 32) locked)
        as (under & Hu & Hall & Hret & Hc);
      split; [discriminate|]; split; [discriminate|];
      split; [exact Hret|]; split; [exact Hc|];
      exists under; split; [exact Hu|exact Hall])).
Qed.

(** ** The first call that fails *)

Lemma hoare_or {A : Type} (P1 P2 : world -> Prop) (m : M A)
    (Q : A -> world -> Prop) :
  hoare P1 m Q -> hoare P2 m Q -> hoare (fun w => P1 w \/ P2 w) m Q.
Proof. intros H1 H2 w [H|H]; [apply H1|apply H2]; exact H. Qed.

Section Failure.

Variable t0 : list call.
Variable k : nat.
Variable e : positive.
Variable rest : list (option failure).

Lemma enter_failure (c : call) :
  hoare (before_failure t0 k e rest) (enter c)
    (fun f w' =>
       (f = None /\ before_failure t0 k e rest w')
       \/ (f = Some (Errno e) /\ at_failure t0 k rest w')).
Proof.
  intros [ct p er f t] (j & Hj & Hf & Ht). cbn [faults trace] in Hf, Ht.
  unfold enter. cbn [faults]. subst f.
  destruct (k - j)%nat as [|d] eqn:Hd; cbn [repeat app fst snd].
  - right. split; [reflexivity|]. split; cbn [faults trace length]; [auto|].
    rewrite Ht. lia.
  - left. split; [reflexivity|]. exists (S j).
    cbn [faults trace length]. replace (k - S j)%nat with d by lia.
    repeat split; lia || auto.
Qed.

Lemma running_frame (w w' : world) :
  faults w' = faults w -> trace w' = trace w ->
  before_failure t0 k e rest w -> before_failure t0 k e rest w'.
Proof.
  intros Hf Ht (j & Hj & H1 & H2). exists j. rewrite Hf, Ht. auto.
Qed.

Lemma failed_frame (w w' : world) :
  faults w' = faults w -> trace w' = trace w ->
  at_failure t0 k rest w -> at_failure t0 k rest w'.
Proof. intros Hf Ht [H1 H2]. split; [rewrite Hf|rewrite Ht]; assumption. Qed.

Lemma lseek_failure (offset : Z) :
  hoare (before_failure t0 k e rest) (lseek offset)
    (fun st w' =>
       before_failure t0 k e rest w'
       \/ (at_failure t0 k rest w' /\ st = -1 /\ errno w' = Zpos e)).
Proof.
  unfold lseek. eapply hoare_bind; [apply enter_failure|].
  intros [[e'|n']|].
  - intros w [[H _]|[[= ->] Hat]]; [discriminate H|].
    right. split; [|split; reflexivity].
    apply (failed_frame w); auto.
  - intros w [[H _]|[H _]]; discriminate H.
  - intros w [[_ H]|[H _]]; [|discriminate H]. left.
    destruct (offset <? 0); apply (running_frame w); auto.
Qed.

Lemma read_failure (count : Z) :
  hoare (before_failure t0 k e rest) (read count)
    (fun r w' =>
       before_failure t0 k e rest w'
       \/ (at_failure t0 k rest w' /\ fst r = -1 /\ errno w' = Zpos e)).
Proof.
  unfold read. eapply hoare_bind; [apply enter_failure|].
  intros [[e'|n']|].
  - intros w [[H _]|[[= ->] Hat]]; [discriminate H|].
    right. split; [|split; reflexivity].
    apply (failed_frame w); auto.
  - intros w [[H _]|[H _]]; discriminate H.
  - intros w [[_ H]|[H _]]; [|discriminate H]. left.
    apply (running_frame w); auto.
Qed.

Lemma write_failure (buf : list byte) :
  hoare (before_failure t0 k e rest) (write buf)
    (fun st w' =>
       before_failure t0 k e rest w'
       \/ (at_failure t0 k rest w' /\ st = -1 /\ errno w' = Zpos e)).
Proof.
  unfold write. eapply hoare_bind; [apply enter_failure|].
  intros [[e'|n']|].
  - intros w [[H _]|[[= ->] Hat]]; [discriminate H|].
    right. split; [|split; reflexivity].
    apply (failed_frame w); auto.
  - intros w [[H _]|[H _]]; discriminate H.
  - intros w [[_ H]|[H _]]; [|discriminate H]. left.
    apply (running_frame w); auto.
Qed.

Lemma random_failure (context : krb5_context) (len : Z) :
  hoare (before_failure t0 k e rest) (krb5_c_random_make_octets context len)
    (fun r w' =>
       before_failure t0 k e rest w'
       \/ (at_failure t0 k rest w' /\ fst r = Zpos e)).
Proof.
  unfold krb5_c_random_make_octets.
  eapply hoare_bind; [apply enter_failure|].
  intros [[e'|n']|].
  - intros w [[H _]|[[= ->] Hat]]; [discriminate H|].
    right. split; [exact Hat|reflexivity].
  - intros w [[H _]|[H _]]; discriminate H.
  - intros w [[_ H]|[H _]]; [|discriminate H]. left. exact H.
Qed.

Lemma read_records_failure (offset : Z) (out : records) :
  hoare (before_failure t0 k e rest) (read_records offset out)
    (fun r w' =>
       before_failure t0 k e rest w'
       \/ (at_failure t0 k rest w' /\ fst (fst r) = Zpos e)).
Proof.
  unfold read_records. eapply hoare_bind; [apply lseek_failure|].
  intros st. apply hoare_or.
  2:{ intros w (Hat & -> & He). right. cbn. auto. }
  destruct (st =? -1); [intros w H; left; exact H|].
  eapply hoare_bind; [apply read_failure|].
  intros [st' buf]. cbn [fst]. apply hoare_or.
  2:{ intros w (Hat & -> & He). right. cbn. auto. }
  destruct (st' =? -1); [intros w H; left; exact H|].
  destruct (parse_records st' buf out 0). intros w H. left. exact H.
Qed.

Lemma write_record_failure (offset : Z) (tag : list byte) (timestamp : Z) :
  hoare (before_failure t0 k e rest) (write_record offset tag timestamp)
    (fun ret w' =>
       before_failure t0 k e rest w'
       \/ (at_failure t0 k rest w' /\ ret = Zpos e)).
Proof.
  unfold write_record. eapply hoare_bind; [apply lseek_failure|].
  intros st. apply hoare_or.
  2:{ intros w (Hat & -> & He). right. cbn. auto. }
  destruct (st =? -1); [intros w H; left; exact H|].
  eapply hoare_bind; [apply write_failure|].
  intros st'. apply hoare_or.
  2:{ intros w (Hat & -> & He). right. cbn. auto. }
  destruct (st' =? -1); [intros w H; left; exact H|].
  destruct (negb (st' =? RECORD_LEN)); intros w H; left; exact H.
Qed.

Lemma store_seed_failure (context : krb5_context) :
  hoare (before_failure t0 k e rest) (store_seed context)
    (fun r w' =>
       before_failure t0 k e rest w'
       \/ (at_failure t0 k rest w' /\ fst r = Zpos e)).
Proof.
  unfold store_seed. eapply hoare_bind; [apply read_failure|].
  intros [st sd]. cbn [fst]. apply hoare_or.
  2:{ intros w (Hat & -> & He). right. cbn. auto. }
  destruct (st <? 0); [intros w H; left; exact H|].
  destruct (st <? K5_HASH_SEED_LEN); [|intros w H; left; exact H].
  eapply hoare_bind; [apply random_failure|].
  intros [ret sd']. cbn [fst]. apply hoare_or.
  2:{ intros w (Hat & ->). right. cbn. auto. }
  destruct (negb (ret =? 0)); [intros w H; left; exact H|].
  eapply hoare_bind; [apply write_failure|].
  intros st'. apply hoare_or.
  2:{ intros w (Hat & -> & He). right. cbn. auto. }
  destruct (st' <? 0); [intros w H; left; exact H|].
  destruct (negb (st' =? K5_HASH_SEED_LEN)); intros w H; left; exact H.
Qed.

Lemma store_body_failure (tag : list byte) (now skew : Z) (s : loop_state) :
  hoare (before_failure t0 k e rest) (store_body tag now skew s)
    (fun o w' =>
       before_failure t0 k e rest w'
       \/ (at_failure t0 k rest w' /\ o = Return (Zpos e))).
Proof.
  unfold store_body.
  destruct (next_table (table_offset s) (nrecords s)) as [[ret offset] n].
  destruct (negb (ret =? 0)); [intros w H; left; exact H|].
  eapply hoare_bind; [apply read_records_failure|].
  intros [[ret' r] nread]. cbn [fst]. apply hoare_or.
  2:{ intros w (Hat & ->). right. cbn. auto. }
  destruct (negb (ret' =? 0)); [intros w H; left; exact H|].
  destruct (is_repeat nread r tag); [intros w H; left; exact H|].
  destruct (is_last nread r); [|intros w H; left; exact H].
  eapply hoare_bind; [apply write_record_failure|].
  intros ret''. apply hoare_or.
  - intros w H. left. exact H.
  - intros w (Hat & ->). right. cbn. auto.
Qed.

Lemma store_loop_failure (fuel : nat) (tag : list byte) (now skew : Z)
    (s : loop_state) :
  hoare (before_failure t0 k e rest) (store_loop fuel tag now skew s)
    (fun r w' =>
       before_failure t0 k e rest w'
       \/ (at_failure t0 k rest w' /\ r = Some (Zpos e))).
Proof.
  revert s. induction fuel as [|fuel IH]; intros s; cbn [store_loop].
  - intros w H. left. exact H.
  - eapply hoare_bind; [apply store_body_failure|].
    intros o. apply hoare_or.
    + destruct o as [ret|s']; [intros w H; left; exact H|apply IH].
    + intros w (Hat & ->). right. cbn. auto.
Qed.

Lemma store_failure (context : krb5_context) (junk : records)
    (tag : list byte) (now skew : Z) :
  hoare (before_failure t0 k e rest) (store context junk tag now skew)
    (fun r w' =>
       before_failure t0 k e rest w'
       \/ (at_failure t0 k rest w' /\ r = Some (Zpos e))).
Proof.
  unfold store. eapply hoare_bind; [apply store_seed_failure|].
  intros [ret sd]. cbn [fst]. apply hoare_or.
  - destruct (negb (ret =? 0)); [intros w H; left; exact H|].
    apply store_loop_failure.
  - intros w (Hat & ->). right. cbn. auto.
Qed.

End Failure.

(** X7. [store] stops at the first call that fails.  When the outcomes
    decided let [k] calls complete and make the next one fail with [e],
    then either [store] returns within its first [k] calls, or the failing
    call is the last one it makes and the value returned is [e]. *)
Theorem store_stops_at_failure (context : krb5_context) (junk : records)
    (tag : list byte) (now skew : Z) (w : world) (k : nat) (e : positive)
    (rest : list (option failure)) :
  faults w = repeat None k ++ Some (Errno e) :: rest ->
  let r := store context junk tag now skew w in
  (exists j,
      (j <= k)%nat
      /\ length (trace (snd r)) = (length (trace w) + j)%nat
      /\ faults (snd r) = repeat None (k - j) ++ Some (Errno e) :: rest)
  \/ (length (trace (snd r)) = (length (trace w) + S k)%nat
      /\ faults (snd r) = rest
      /\ fst r = Some (Zpos e)).
Proof.
  intros Hf r.
  assert (Hrun : before_failure (trace w) k e rest w).
  { exists 0%nat. rewrite Nat.sub_0_r, Nat.add_0_r. auto with arith. }
  destruct (store_failure (trace w) k e rest context junk tag now skew w Hrun)
    as [(j & Hj & Hfj & Htj)|[[Hfr Htr] Hret]].
  - left. exists j. auto.
  - right. auto.
Qed.

(** ** Only expired records are overwritten *)

Lemma parse_records_stamps (c : list byte) (ro : Z) (out : records) :
  0 <= ro ->
  let d := file_read c (Z.to_nat ro) 32 in
  let pr := parse_records (Z.of_nat (length d)) d out 0 in
  0 <= snd pr <= 2
  /\ (snd pr = 0 -> Z.of_nat (length c) < ro + 16)
  /\ (1 <= snd pr ->
      rec1_stamp (fst pr) = load_32_be (file_read c (Z.to_nat (ro + 12)) 4))
  /\ (snd pr = 1 -> Z.of_nat (length c) < ro + 32)
  /\ (snd pr = 2 ->
      rec2_stamp (fst pr) = load_32_be (file_read c (Z.to_nat (ro + 28)) 4)).
Proof.
  intros Hro d pr.
  assert (Hd : length d = Nat.min 32 (length c - Z.to_nat ro))
    by apply file_read_length.
  assert (H1 : load_32_be (skipn 12 d)
               = load_32_be (file_read c (Z.to_nat (ro + 12)) 4)).
  { unfold d. rewrite file_read_tail, load_32_be_file_read by lia.
    do 2 f_equal. lia. }
  assert (H2 : load_32_be (skipn 28 d)
               = load_32_be (file_read c (Z.to_nat (ro + 28)) 4)).
  { unfold d. rewrite file_read_tail. cbn [Nat.sub].
    do 2 f_equal. lia. }
  subst pr. unfold parse_records.
  change RECORD_LEN with 16. change (Z.to_nat TAG_LEN) with 12%nat.
  change (Z.to_nat (16 + TAG_LEN)) with 28%nat.
  destruct (Z.geb_spec (Z.of_nat (length d)) 16) as [H16|H16];
    destruct (Z.eqb_spec (Z.of_nat (length d)) (16 * 2)) as [H32|H32];
    cbn [fst snd rec1_stamp rec2_stamp];
    repeat split; intros; try lia; assumption.
Qed.

Lemma choose_avail_free (ro nread : Z) (r : records) (now skew : Z) :
  0 <= nread <= 2 ->
  let a := choose_avail (-1) ro nread r now skew in
  a = -1
  \/ (a = ro
      /\ (nread = 0
          \/ (1 <= nread
              /\ ts_after now (ts_incr (rec1_stamp r) skew) = true)))
  \/ (a = ro + RECORD_LEN
      /\ (nread = 1
          \/ (nread = 2
              /\ ts_after now (ts_incr (rec2_stamp r) skew) = true))).
Proof.
  intros Hn. unfold choose_avail. change (-1 =? -1) with true. cbv iota.
  destruct (Z.eqb_spec nread 0) as [E0|E0]; cbn [orb].
  { right. left. auto. }
  destruct (ts_after now (ts_incr (rec1_stamp r) skew)) eqn:T1.
  { right. left. split; [reflexivity|]. right. split; [lia|reflexivity]. }
  destruct (Z.eqb_spec nread 1) as [E1|E1]; cbn [orb].
  { right. right. auto. }
  destruct (ts_after now (ts_incr (rec2_stamp r) skew)) eqn:T2.
  { right. right. split; [reflexivity|]. right. split; [lia|reflexivity]. }
  left. reflexivity.
Qed.

Lemma store_body_expired (c tag : list byte) (now skew : Z)
    (s : loop_state) :
  (12 <= length tag)%nat ->
  (forall offset n,
      next_table (table_offset s) (nrecords s) = (0, offset, n) ->
      0 <= offset /\ 0 < n) ->
  avail_offset s = -1 \/ slot_expired c now skew (avail_offset s) ->
  hoare (fun w => contents w = c) (store_body tag now skew s)
    (fun o w' =>
       match o with
       | Continue s' =>
           avail_offset s' = -1 \/ slot_expired c now skew (avail_offset s')
       | Return ret =>
           ret = 0 ->
           exists a,
             return_rel s a /\ slot_expired c now skew a
             /\ contents w'
                = file_write c (Z.to_nat a) (marshal_record tag now)
       end).
Proof.
  intros Hlen Hlev Hav0. unfold store_body.
  destruct (next_table (table_offset s) (nrecords s)) as [[ret offset] n]
    eqn:Hnt.
  destruct (Z.eqb_spec ret 0) as [Hret|Hret]; cbn [negb];
    [subst ret|apply hoare_ret; intros w _ E; contradiction].
  destruct (Hlev offset n eq_refl) as [Hoff Hn].
  set (ind := (k5_siphash24 (firstn (Z.to_nat TAG_LEN) tag) (seed s)
               mod 2 ^ 64) mod n).
  assert (Hind : 0 <= ind < n) by (apply Z.mod_pos_bound, Hn).
  clearbody ind.
  assert (Hro : 0 <= offset + ind * RECORD_LEN)
    by (change RECORD_LEN with 16; lia).
  eapply hoare_bind; [apply (read_records_parse c)|].
  intros [[ret r] nread]. cbn [fst snd].
  destruct (Z.eqb_spec ret 0) as [Hret|Hret]; cbn [negb];
    [subst ret|apply hoare_ret; intros w _ E; contradiction].
  apply (hoare_assume
           ((r, nread)
            = (let d := file_read c (Z.to_nat (offset + ind * RECORD_LEN)) 32 in
               parse_records (Z.of_nat (length d)) d (recs s) 0))).
  { intros w (_ & _ & H). exact (proj2 (H eq_refl)). }
  cbv zeta. intros Hpr.
  pose proof (parse_records_stamps c (offset + ind * RECORD_LEN) (recs s) Hro)
    as Hst.
  cbv zeta in Hst. rewrite <- Hpr in Hst. cbn [fst snd] in Hst.
  destruct Hst as (Hnr & Hn0 & Hs1 & Hn1 & Hs2).
  destruct (is_repeat nread r tag);
    [apply hoare_ret; intros w _ E; discriminate E|].
  assert (Hfree :
            let a := choose_avail (avail_offset s)
                       (offset + ind * RECORD_LEN) nread r now skew in
            a = -1 \/ slot_expired c now skew a).
  { cbv zeta. destruct (Z.eq_dec (avail_offset s) (-1)) as [E|E].
    - rewrite E.
      destruct (choose_avail_free (offset + ind * RECORD_LEN) nread r now
                  skew Hnr) as [Ha|[[Ha Hw]|[Ha Hw]]];
        cbv zeta in Ha; rewrite Ha; [left; reflexivity| |]; right;
        unfold slot_expired; change RECORD_LEN with 16 in *;
        change TAG_LEN with 12.
      + destruct Hw as [E0|[H1 T]]; [left; lia|right].
        rewrite <- (Hs1 H1). exact T.
      + destruct Hw as [E1|[E2 T]]; [left; lia|right].
        replace (offset + ind * 16 + 16 + 12) with (offset + ind * 16 + 28)
          by lia.
        rewrite <- (Hs2 E2). exact T.
    - destruct Hav0 as [E0|Hex]; [contradiction|].
      unfold choose_avail. destruct (Z.eqb_spec (avail_offset s) (-1));
        [contradiction|]. right. exact Hex. }
  pose proof (choose_avail_cases (avail_offset s) (offset + ind * RECORD_LEN)
                nread r now skew) as Hav.
  cbv zeta in Hav, Hfree.
  set (a := choose_avail (avail_offset s) (offset + ind * RECORD_LEN)
              nread r now skew) in *.
  clearbody a.
  destruct (is_last nread r).
  - eapply hoare_bind.
    + eapply hoare_weaken;
        [apply (write_record_spec c a tag now Hlen)| |intros x w H; exact H].
      cbn beta. intros w [Hc _]. exact Hc.
    + intros ret. apply hoare_ret.
      intros w [[Hne Hc]|[_ [H0 Hc]]] E; [contradiction|].
      exists a. split; [|split; [|exact Hc]].
      * exists offset, n. split; [exact Hnt|]. split; [exact H0|].
        split.
        -- intros Hne.
           destruct Hav as [[_ Ea]|[Ea _]]; [exact Ea|contradiction].
        -- intros He. destruct Hav as [[Ea _]|[_ [Ea|[Ea|Ea]]]];
             [contradiction|lia| |].
           ++ exists ind. split; [lia|]. intros _. lia.
           ++ exists (ind + 1). split; [lia|]. intros _. lia.
      * destruct Hfree as [Ea|Hex]; [lia|exact Hex].
  - apply hoare_ret. intros w _. cbn [avail_offset]. exact Hfree.
Qed.

Lemma level_start_bound (s : loop_state) (offset n : Z) :
  loop_inv s ->
  next_table (table_offset s) (nrecords s) = (0, offset, n) ->
  0 <= offset /\ 0 < n.
Proof.
  intros Hinv Hnt.
  destruct (table_step_level s offset n Hinv Hnt) as (m & -> & ->).
  pose proof (level_capacity_lower m).
  pose proof (level_offset_lower m). lia.
Qed.

Lemma store_loop_expired (fuel : nat) (c tag : list byte) (now skew : Z) :
  (12 <= length tag)%nat ->
  forall s : loop_state,
    loop_inv s ->
    avail_offset s = -1 \/ slot_expired c now skew (avail_offset s) ->
    hoare (fun w => contents w = c) (store_loop fuel tag now skew s)
      (fun r w' =>
         r = Some 0 ->
         exists a,
           slot_offset a /\ slot_expired c now skew a
           /\ contents w'
              = file_write c (Z.to_nat a) (marshal_record tag now)).
Proof.
  intros Hlen. induction fuel as [|fuel IH]; intros s Hinv Hav.
  - apply hoare_ret. intros w _ E. discriminate E.
  - cbn [store_loop]. eapply hoare_bind.
    + eapply hoare_weaken;
        [apply (hoare_conj _ _ _ _ _
                  (store_body_spec c tag now skew s Hlen)
                  (store_body_expired c tag now skew s Hlen
                     (fun offset n => level_start_bound s offset n Hinv)
                     Hav))
        |intros w Hc; split; exact Hc|intros a w H; exact H].
    + intros [ret|s'].
      * apply hoare_ret. intros w [_ Hb] [= ->].
        destruct (Hb eq_refl) as (a & Hrel & Ha & Hc).
        exists a. split; [exact (return_slot s a Hinv Hrel)|].
        split; assumption.
      * apply (hoare_assume
                 (continue_rel s s'
                  /\ (avail_offset s' = -1
                      \/ slot_expired c now skew (avail_offset s'))));
          [intros w [[_ H1] H2]; split; assumption|].
        intros [Hrel Hav'].
        eapply hoare_weaken;
          [apply (IH s' (loop_inv_step s s' Hinv Hrel) Hav')
          |intros w [[Hc _] _]; exact Hc|intros a w H; exact H].
Qed.

(** X9. A record that has not expired is never overwritten.  When [store]
    succeeds, whichever calls failed on the way, the slot that received the
    record either was not wholly inside the file, or held a timestamp that,
    incremented by the skew, was before [now]. *)
Theorem store_overwrites_expired (context : krb5_context) (junk : records)
    (tag : list byte) (now skew : Z) (w : world) :
  length tag = 12%nat ->
  fst (store context junk tag now skew w) = Some 0 ->
  let c1 := contents (snd (store_seed context w)) in
  let w' := snd (store context junk tag now skew w) in
  exists a,
    slot_offset a
    /\ contents w' = file_write c1 (Z.to_nat a) (marshal_record tag now)
    /\ (Z.of_nat (length c1) < a + RECORD_LEN
        \/ ts_after now
             (ts_incr (load_32_be (file_read c1 (Z.to_nat (a + TAG_LEN)) 4))
                skew)
           = true).
Proof.
  intros Hlen. assert (Hlen' : (12 <= length tag)%nat) by lia.
  unfold store, mbind.
  destruct (store_seed context w) as [[ret sd] w1] eqn:Hs. cbn [snd].
  destruct (Z.eqb_spec ret 0) as [->|Hret]; cbn [negb].
  2:{ cbn. intros [= E]. contradiction. }
  intros Hret.
  pose proof (store_loop_expired table_bound (contents w1) tag now skew Hlen'
                _ (loop_inv_start sd junk) (or_introl eq_refl) w1 eq_refl
                Hret)
    as (a & Hslot & Ha & Hc).
  exists a. split; [exact Hslot|]. split; [exact Hc|exact Ha].
Qed.

(** ** What [store] returns when no call fails *)

Lemma level_fits_small (m : nat) :
  K5_HASH_SEED_LEN <= 16399 -> (m <= 16)%nat -> level_fits m = true.
Proof.
  intros HK Hm. destruct (level_sizes m Hm) as [H1 H2].
  unfold level_fits. rewrite level_offset_span.
  apply andb_true_intro. split; apply Z.leb_le;
    unfold MAX_SIZE, INT32_MAX in *; lia.
Qed.

Lemma level_offset_mono (m n : nat) :
  (m <= n)%nat -> level_offset m <= level_offset n.
Proof.
  induction 1 as [|n Hle IH]; [lia|].
  pose proof (level_offset_grows n). lia.
Qed.

Lemma store_loop_result (tag : list byte) (now skew : Z) (c : list byte) :
  (12 <= length tag)%nat -> 0 <= skew < now ->
  forall (fuel : nat) (s : loop_state) p e t,
    loop_inv s ->
    table_offset s = -1
    \/ table_offset s + 2 * RECORD_LEN <= Z.of_nat (length c) ->
    let r := fst (store_loop fuel tag now skew s (mkWorld c p e [] t)) in
    r = None \/ r = Some 0 \/ r = Some KRB5KRB_AP_ERR_REPEAT
    \/ (r = Some EOVERFLOW
        /\ exists m,
            level_fits m = false
            /\ (m = 0%nat
                \/ exists m',
                    m = S m'
                    /\ level_offset m' + 2 * RECORD_LEN
                       <= Z.of_nat (length c))).
Proof.
  intros Hlen Hskew.
  induction fuel as [|fuel IH]; intros s p e t Hinv Hpassed; cbv zeta.
  { left. reflexivity. }
  destruct (next_table (table_offset s) (nrecords s)) as [[ret offset] n]
    eqn:Hnt.
  destruct (Z.eq_dec ret 0) as [->|Hret].
  2:{ rewrite store_loop_unfold.
      rewrite (store_body_refused _ _ _ _ _ _ _ _ Hnt Hret). cbn [fst].
      right. right. right.
      destruct Hinv as [[E|(k & E1 & E2)] _].
      - rewrite E, next_table_start in Hnt.
        destruct (level_fits 0) eqn:F; injection Hnt as <- _ _;
          [contradiction|].
        split; [reflexivity|]. exists 0%nat. auto.
      - rewrite E1, E2, next_table_level in Hnt.
        destruct (level_fits (S k)) eqn:F; injection Hnt as <- _ _;
          [contradiction|].
        split; [reflexivity|]. exists (S k). split; [exact F|].
        right. exists k. split; [reflexivity|].
        destruct (level_offset_lower k) as [Hlow _].
        destruct Hpassed as [Hp|Hp]; [lia|]. rewrite <- E1. exact Hp. }
  destruct (table_step_level s _ _ Hinv Hnt) as (m & E1 & E2).
  pose proof (level_capacity_lower m) as Hcap.
  destruct (level_offset_lower m) as [Hlow _].
  assert (Hoff : 0 <= offset) by lia.
  assert (Hn : 0 < n) by lia.
  pose proof (store_loop_passes fuel tag now skew s c p e t offset n Hnt Hoff
                Hn) as Hpasses.
  rewrite store_loop_unfold.
  rewrite (store_body_ok tag now skew s _ _ _ _ offset n Hnt) by lia.
  cbv zeta in Hpasses |- *.
  set (ind := (k5_siphash24 (firstn (Z.to_nat TAG_LEN) tag) (seed s)
               mod 2 ^ 64) mod n) in *.
  assert (Hind : 0 <= ind < n) by (apply Z.mod_pos_bound; lia).
  set (ro := offset + ind * RECORD_LEN) in *.
  assert (Hro : 0 <= ro) by (unfold ro; change RECORD_LEN with 16; lia).
  assert (Hroslot : slot_offset ro).
  { unfold ro. rewrite E1, Z.mul_comm. apply slot_in_level. lia. }
  set (d := file_read c (Z.to_nat ro) 32) in *.
  assert (Hd : length d = Nat.min 32 (length c - Z.to_nat ro))
    by apply file_read_length.
  set (pr := parse_records (Z.of_nat (length d)) d (recs s) 0) in *.
  assert (Hnr : 0 <= snd pr <= 2) by apply parse_records_nread.
  destruct (is_repeat (snd pr) (fst pr) tag) eqn:Hrep.
  { right. right. left. reflexivity. }
  set (a := choose_avail (avail_offset s) ro (snd pr) (fst pr) now skew) in *.
  assert (Ha : a = -1 \/ slot_offset a).
  { destruct (choose_avail_cases (avail_offset s) ro (snd pr) (fst pr) now
                skew) as [[Hne H]|[_ [H|[H|H]]]]; fold a in H.
    - destruct Hinv as [_ [E|Hs]]; [contradiction|]. right. now rewrite H.
    - left. exact H.
    - right. now rewrite H.
    - right. rewrite H. unfold ro. rewrite E1.
      replace (level_offset m + ind * RECORD_LEN + RECORD_LEN)
        with (level_offset m + RECORD_LEN * (ind + 1)) by lia.
      apply slot_in_level. lia. }
  destruct (is_last (snd pr) (fst pr)) eqn:Hlast.
  - (* the search ends here: a slot has been kept *)
    assert (Hpos : 0 <= a).
    { destruct Ha as [Ea|(i & Hi & Ea)];
        [|change RECORD_LEN with 16 in Ea; lia].
      destruct (Z.eq_dec (avail_offset s) (-1)) as [E|E].
      - pose proof (choose_avail_at_stop (avail_offset s) ro (snd pr)
                      (fst pr) now skew Hskew Hnr Hlast E) as H.
        cbv zeta in H. fold a in H. change RECORD_LEN with 16 in H. lia.
      - destruct (choose_avail_cases (avail_offset s) ro (snd pr) (fst pr)
                    now skew) as [[_ H]|[H _]]; [|contradiction].
        fold a in H. lia. }
    rewrite write_record_ok by assumption. cbn [fst].
    right. left. reflexivity.
  - (* two records were read: on to the next table *)
    assert (Hlen32 : length d = 32%nat).
    { apply is_last_false in Hlast.
      assert (E : snd pr = 2) by lia.
      apply parse_records_two in E. lia. }
    specialize (Hpasses eq_refl eq_refl).
    rewrite store_loop_unfold in Hpasses.
    rewrite (store_body_ok tag now skew s _ _ _ _ offset n Hnt) in Hpasses
      by lia.
    cbv zeta in Hpasses. fold ind ro d pr in Hpasses.
    rewrite Hrep, Hlast in Hpasses. fold a in Hpasses.
    apply (IH (mkLoop offset n a (seed_incr (seed s)) (fst pr))).
    + split; [right; exists m; auto|exact Ha].
    + right. cbn [table_offset]. change RECORD_LEN with 16 in *. lia.
Qed.

(** X10. What [store] returns when no call fails and the time is later
    than the skew, for a seed of at most 16399 bytes: 0,
    KRB5KRB_AP_ERR_REPEAT or EOVERFLOW.  A replay is reported only when a
    slot of the file holds the tag, and EOVERFLOW only when the file
    reaches the second slot of the last table; so a tag that no slot holds
    is stored in every smaller file. *)
Theorem store_accepts (context : krb5_context) (junk : records)
    (tag : list byte) (now skew : Z) (w : world) :
  length tag = 12%nat -> pos w = 0 -> faults w = [] ->
  0 <= skew < now -> K5_HASH_SEED_LEN <= 16399 ->
  let c1 := contents (snd (store_seed context w)) in
  let r := fst (store context junk tag now skew w) in
  (r = Some 0 \/ r = Some KRB5KRB_AP_ERR_REPEAT \/ r = Some EOVERFLOW)
  /\ (r = Some KRB5KRB_AP_ERR_REPEAT ->
      exists a, slot_offset a /\ holds_tag c1 a tag)
  /\ (r = Some EOVERFLOW ->
      K5_HASH_SEED_LEN + 1073725456 <= Z.of_nat (length c1))
  /\ ((forall a, slot_offset a -> ~ holds_tag c1 a tag) ->
      Z.of_nat (length c1) < K5_HASH_SEED_LEN + 1073725456 ->
      r = Some 0).
Proof.
  intros Hlen Hpos Hf Hskew HK. assert (Hlen' : (12 <= length tag)%nat) by lia.
  destruct w as [c0 p e f t]. cbn [pos faults] in Hpos, Hf. subst p f.
  assert (Hseed : exists sd c1 p1 t1,
             store_seed context (mkWorld c0 0 e [] t)
             = ((0, sd), mkWorld c1 p1 e [] t1)).
  { destruct (Z.lt_ge_cases (Z.of_nat (length c0)) K5_HASH_SEED_LEN)
      as [Hshort|Hfull].
    - rewrite store_seed_short by exact Hshort. cbv zeta.
      do 4 eexists. reflexivity.
    - rewrite store_seed_full by exact Hfull.
      do 4 eexists. reflexivity. }
  destruct Hseed as (sd & c1 & p1 & t1 & Hs).
  unfold store, mbind. rewrite Hs. cbn [snd contents Z.eqb negb].
  set (s0 := mkLoop (-1) 0 (-1) sd junk).
  pose proof (store_loop_result tag now skew c1 Hlen' Hskew table_bound s0 p1
                e t1 (loop_inv_start sd junk) (or_introl eq_refl)) as Hres.
  pose proof (store_loop_start_returns tag now skew s0
                (mkWorld c1 p1 e [] t1) eq_refl) as Hsome.
  pose proof (store_loop_repeat table_bound c1 tag now skew s0 Hlen
                (mkWorld c1 p1 e [] t1) eq_refl) as Hrepeat.
  cbv zeta in Hres. cbv beta in Hrepeat.
  set (r := fst (store_loop table_bound tag now skew s0
                   (mkWorld c1 p1 e [] t1))) in *.
  assert (Hfound : r = Some KRB5KRB_AP_ERR_REPEAT ->
                   exists a, slot_offset a /\ holds_tag c1 a tag).
  { intros E. apply (Hrepeat _ E); [unfold KRB5KRB_AP_ERR_REPEAT; lia|].
    apply loop_inv_start. }
  assert (Hover : r = Some EOVERFLOW ->
                  K5_HASH_SEED_LEN + 1073725456 <= Z.of_nat (length c1)).
  { intros E.
    destruct Hres as [H|[H|[H|[_ (m & Hfit & Hm)]]]];
      try (rewrite E in H; discriminate H).
    destruct (Nat.le_gt_cases m 16) as [Hle|Hgt].
    { rewrite (level_fits_small m HK Hle) in Hfit. discriminate Hfit. }
    destruct Hm as [->|(m' & -> & Hm')]; [lia|].
    pose proof (level_offset_mono 16 m' ltac:(lia)) as Hmono.
    rewrite (level_offset_span 16) in Hmono.
    change (level_span 16) with 1073725424 in Hmono.
    change RECORD_LEN with 16 in Hm'. lia. }
  split; [|split; [exact Hfound|split; [exact Hover|]]].
  - destruct Hres as [H|[H|[H|[H _]]]]; auto. contradiction.
  - intros Hnone Hsmall.
    destruct Hres as [H|[H|[H|[H _]]]]; [contradiction|exact H| |].
    + destruct (Hfound H) as (a & Hslot & Hh).
      destruct (Hnone a Hslot Hh).
    + specialize (Hover H). lia.
Qed.

(** ** The cache by name *)

Lemma name_eqb_eq (a b : list byte) : name_eqb a b = true <-> a = b.
Proof.
  revert b. induction a as [|x a IH]; intros [|y b]; cbn [name_eqb];
    try (split; [discriminate|discriminate]); [tauto|].
  rewrite andb_true_iff, IH. split.
  - intros [H ->]. apply Byte.byte_dec_bl in H. now subst.
  - intros [= -> ->]. split; [apply byte_eqb_refl|reflexivity].
Qed.

Lemma lookup_update_same (filename c : list byte) (d : directory) :
  lookup_file filename (update_file filename c d) = Some c.
Proof.
  induction d as [|[n c0] d IH]; cbn [update_file lookup_file].
  - replace (name_eqb filename filename) with true; [reflexivity|].
    symmetry. now apply name_eqb_eq.
  - destruct (name_eqb filename n) eqn:E; cbn [lookup_file]; rewrite E;
      [reflexivity|exact IH].
Qed.

Lemma lookup_update_other (filename other c : list byte) (d : directory) :
  other <> filename ->
  lookup_file other (update_file filename c d) = lookup_file other d.
Proof.
  intros Hne.
  assert (Hoff : name_eqb other filename = false).
  { destruct (name_eqb other filename) eqn:E; [|reflexivity].
    apply name_eqb_eq in E. contradiction. }
  induction d as [|[n c0] d IH]; cbn [update_file lookup_file].
  - now rewrite Hoff.
  - destruct (name_eqb filename n) eqn:E; cbn [lookup_file].
    + apply name_eqb_eq in E. subst n. now rewrite Hoff.
    + now rewrite IH.
Qed.

(** X11. Replays are recognised across calls of [file2_store] on one name.
    With no call failing, for a cache file that does not exist yet, is
    empty or holds a whole seed: once a call has accepted a tag, a later
    call on that name -- whatever happened to other files in between --
    returns KRB5KRB_AP_ERR_REPEAT for every tag that is not empty and is
    copied to the same 12 bytes. *)
Theorem file2_store_replay (context1 context2 : krb5_context)
    (junk1 junk2 : records) (filename : list byte)
    (rep1 rep2 : krb5_donot_replay) (p1 p2 : process) :
  tag rep2 <> [] ->
  copy_tag (tag rep2) = copy_tag (tag rep1) ->
  proc_faults p1 = [] ->
  (forall c, lookup_file filename (files p1) = Some c ->
             c = [] \/ K5_HASH_SEED_LEN <= Z.of_nat (length c)) ->
  fst (file2_store context1 junk1 filename rep1 p1) = Some 0 ->
  lookup_file filename (files p2)
  = lookup_file filename
      (files (snd (file2_store context1 junk1 filename rep1 p1))) ->
  proc_faults p2 = [] ->
  fst (file2_store context2 junk2 filename rep2 p2)
  = Some KRB5KRB_AP_ERR_REPEAT.
Proof.
  intros Hne2 Hsame Hf1 Hold.
  destruct p1 as [d1 e1 f1 t1]. cbn [proc_faults files] in Hf1, Hold.
  subst f1. unfold file2_store at 1 2.
  cbn [proc_faults files proc_errno proc_trace tl].
  set (c0 := match lookup_file filename d1 with
             | Some c => c
             | None => []
             end).
  assert (Hseed : c0 = [] \/ K5_HASH_SEED_LEN <= Z.of_nat (length c0)).
  { unfold c0. destruct (lookup_file filename d1) as [c|];
      [apply Hold; reflexivity|left; reflexivity]. }
  destruct (k5_rcfile2_store context1 junk1 rep1 (mkWorld c0 0 e1 [] t1))
    as [r w1'] eqn:Hrun.
  cbn [fst snd files]. intros -> Hlook Hf2.
  rewrite lookup_update_same in Hlook.
  destruct p2 as [d2 e2 f2 t2]. cbn [proc_faults files] in Hf2, Hlook.
  subst f2. unfold file2_store.
  cbn [proc_faults files proc_errno proc_trace tl]. rewrite Hlook.
  pose proof (k5_rcfile2_store_again context1 context2 junk1 junk2 rep1 rep2
                c0 e1 t1 w1' e2 t2 Hne2 Hsame Hseed Hrun) as Hagain.
  destruct (k5_rcfile2_store context2 junk2 rep2
              (mkWorld (contents w1') 0 e2 [] t2)) as [r2 w2'].
  exact Hagain.
Qed.

Lemma k5_rcfile2_store_empty (context : krb5_context) (junk : records)
    (rep : krb5_donot_replay) (w : world) :
  tag rep = [] -> k5_rcfile2_store context junk rep w = (Some EINVAL, w).
Proof. intros E. unfold k5_rcfile2_store. rewrite E. reflexivity. Qed.

(** X12. [file2_store] at its edges, whichever calls fail.  No other file
    is touched.  When [open] fails, its errno is returned, the files are as
    they were and no call has been made on a descriptor.  When [open]
    succeeds, the file exists afterwards, also when the tag is empty: the
    call then returns EINVAL and leaves a file that was missing empty, and
    one that existed as it was. *)
Theorem file2_store_edges (context : krb5_context) (junk : records)
    (filename : list byte) (rep : krb5_donot_replay) (p : process) :
  let r := file2_store context junk filename rep p in
  (forall other,
      other <> filename ->
      lookup_file other (files (snd r)) = lookup_file other (files p))
  /\ (forall e fs,
        proc_faults p = Some (Errno e) :: fs ->
        fst r = Some (Zpos e)
        /\ files (snd r) = files p
        /\ proc_trace (snd r) = proc_trace p
        /\ proc_errno (snd r) = Zpos e)
  /\ ((forall e fs, proc_faults p <> Some (Errno e) :: fs) ->
      lookup_file filename (files (snd r)) <> None
      /\ (tag rep = [] ->
          fst r = Some EINVAL
          /\ proc_trace (snd r) = proc_trace p
          /\ lookup_file filename (files (snd r))
             = Some match lookup_file filename (files p) with
                    | Some c => c
                    | None => []
                    end)).
Proof.
  intros r. subst r. unfold file2_store.
  destruct p as [d e f t]. cbn [proc_faults files proc_errno proc_trace].
  set (c0 := match lookup_file filename d with
             | Some c => c
             | None => []
             end).
  assert (Hopen : forall fs,
            let r :=
              (let (ret, fd') :=
                 k5_rcfile2_store context junk rep (mkWorld c0 0 e fs t) in
               (ret,
                mkProcess (update_file filename (contents fd') d) (errno fd')
                  (faults fd') (trace fd'))) in
            (forall other,
                other <> filename ->
                lookup_file other (files (snd r)) = lookup_file other d)
            /\ lookup_file filename (files (snd r)) <> None
            /\ (tag rep = [] ->
                fst r = Some EINVAL
                /\ proc_trace (snd r) = t
                /\ lookup_file filename (files (snd r)) = Some c0)).
  { intros fs.
    pose proof (k5_rcfile2_store_empty context junk rep (mkWorld c0 0 e fs t))
      as Hempty.
    destruct (k5_rcfile2_store context junk rep (mkWorld c0 0 e fs t))
      as [ret fd'].
    cbv zeta. cbn [fst snd files proc_trace].
    split; [intros other Hne; apply lookup_update_other, Hne|].
    rewrite lookup_update_same. split; [discriminate|].
    intros E. injection (Hempty E) as -> ->. auto. }
  destruct f as [|[[e1|n1]|] f].
  - destruct (Hopen (tl [])) as (H1 & H2 & H3).
    split; [exact H1|]. split; [intros e0 fs H; discriminate H|].
    intros _. split; assumption.
  - cbn [fst snd files proc_trace proc_errno].
    split; [reflexivity|].
    split; [intros e0 fs [= <- <-]; auto|].
    intros H. destruct (H e1 f eq_refl).
  - destruct (Hopen (tl (Some (Short n1) :: f))) as (H1 & H2 & H3).
    split; [exact H1|]. split; [intros e0 fs H; discriminate H|].
    intros _. split; assumption.
  - destruct (Hopen (tl (None :: f))) as (H1 & H2 & H3).
    split; [exact H1|]. split; [intros e0 fs H; discriminate H|].
    intros _. split; assumption.
Qed.

End Model.


(** * The properties at sample inputs *)


(** A record of the sample tag written at offset 16 of a new file is read
    back from there. *)
Lemma record_round_trip_witness :
  exists w1,
    write_record 16 sample_tag 1000 new_file = (0, w1)
    /\ (exists out1 nread w2,
          read_records 16 sample_junk w1 = (0, out1, nread, w2)
          /\ 1 <= nread
          /\ rec1_tag out1 = sample_tag /\ rec1_stamp out1 = 1000).
Proof.
  destruct (record_round_trip new_file 16 sample_tag 1000 sample_junk
              eq_refl ltac:(unfold UINT32_MAX; lia) ltac:(lia) eq_refl)
    as (_ & w1 & H1 & H2 & _).
  exists w1. split; assumption.
Defined.

(** The sample tag is found at its slot of the sample cache: the iteration
    returns KRB5KRB_AP_ERR_REPEAT in the world the read left. *)
Lemma replay_returns_at_once_witness :
  let s := mkLoop (-1) 0 (-1) sample_seed sample_junk in
  let w1 := mkWorld (contents sample_cache) 1088 0 []
              [Call_read 32; Call_lseek 1072] in
  store_body 16 sample_siphash sample_tag 2000 300 s sample_cache
  = (Return KRB5KRB_AP_ERR_REPEAT, w1)
  /\ store_loop 16 sample_siphash 1 sample_tag 2000 300 s sample_cache
     = (Some KRB5KRB_AP_ERR_REPEAT, w1)
  /\ contents w1 = contents sample_cache.
Proof.
  intros s w1.
  apply (replay_returns_at_once 16 sample_siphash 0 sample_tag 2000 300 s
           sample_cache w1 16 1023 (mkRecords sample_tag 1000 [] 0) 1).
  - reflexivity.
  - vm_compute. reflexivity.
  - vm_compute. reflexivity.
  - left. split; [lia|reflexivity].
Defined.

(** On the seeded file, at time 1000 with a skew of 300, the first level
    reads no record and the slot kept is the probed one, at offset 1072. *)
Lemma avail_set_at_stop_witness :
  let s := mkLoop (-1) 0 (-1) sample_seed sample_junk in
  let a := choose_avail (-1) 1072 0 sample_junk 1000 300 in
  a <> -1 /\ slot_offset 16 a.
Proof.
  intros s a.
  destruct (avail_set_at_stop 16 sample_siphash ltac:(lia) sample_tag 1000 300
              s seeded_file
              (mkWorld sample_seed 1072 0 [] [Call_read 32; Call_lseek 1072])
              16 1023 sample_junk 0) as (H1 & H2 & _).
  - apply reached_first.
  - lia.
  - vm_compute. reflexivity.
  - vm_compute. reflexivity.
  - vm_compute. reflexivity.
  - vm_compute. reflexivity.
  - split; assumption.
Defined.

(** C3. The stop condition of the loop of [store] can hold while no slot
    has been kept: line 180 takes a zero timestamp for an empty slot, but
    lines 174-177 keep a slot only when its timestamp plus the skew is
    before [now], which a zero timestamp is not once the skew is at least
    [now].  After the other tag has been stored at index 91 of a new cache,
    the slots before it read as zero bytes.  Storing the sample tag at time
    200 with a skew of 300 reads two such records at offset 1072: the stop
    condition holds, [avail_offset] is still -1 and [write_record] is called
    with it; [lseek] refuses the offset, [store] returns EINVAL and the
    record is not stored.  [k5_rcfile2_store] does the same with a clock at
    200 and a clock skew of 300, and with a clock at 1700000000 and a clock
    skew of -1 or of 2000000000. *)
Lemma stop_with_avail_unset :
  let first :=
    store 16 sample_siphash sample_context sample_junk other_tag 100 300
      new_file in
  let second :=
    store 16 sample_siphash sample_context sample_junk sample_tag 200 300
      (reopen (snd first)) in
  let zeros := mkRecords (repeat x00 12) 0 (repeat x00 12) 0 in
  let entry (skew clock : Z) :=
    k5_rcfile2_store 16 sample_siphash
      (mkContext skew clock (prng sample_context)) sample_junk
      (mkReplay sample_tag) (reopen (snd first)) in
  fst first = Some 0
  /\ fst (read_records 1072 sample_junk
            (mkWorld (contents (snd first)) 16 0 [] []))
     = (0, zeros, 2)
  /\ is_repeat 2 zeros sample_tag = false
  /\ is_last 2 zeros = true
  /\ choose_avail (-1) 1072 2 zeros 200 300 = -1
  /\ fst second = Some EINVAL
  /\ rev (trace (snd second))
     = [Call_read 16; Call_lseek 1072; Call_read 32; Call_lseek (-1)]
  /\ contents (snd second) = contents (snd first)
  /\ fst (entry 300 200) = Some EINVAL
  /\ fst (entry (-1) 1700000000) = Some EINVAL
  /\ fst (entry 2000000000 1700000000) = Some EINVAL
  /\ rev (trace (snd (entry 2000000000 1700000000)))
     = [Call_timeofday; Call_lock; Call_read 16; Call_lseek 1072;
        Call_read 32; Call_lseek (-1); Call_unlock].
Proof. vm_compute. repeat split. Qed.

(** The first table holds two records at the slots probed for the sample
    tag, the first one expired at time 2000 and none with a zero timestamp:
    the first slot, at offset 1072, is kept, the second table is probed at
    offset 17456, beyond the end of the file, and the record is written at
    offset 1072. *)
Lemma avail_kept_witness :
  let c :=
    sample_seed ++ repeat x00 1056 ++ (other_tag ++ store_32_be 100)
      ++ (other_tag ++ store_32_be 1900) in
  let s := mkLoop (-1) 0 (-1) sample_seed sample_junk in
  exists w',
    store_loop 16 sample_siphash table_bound sample_tag 2000 300 s
      (mkWorld c 16 0 [] [])
    = (Some 0, w')
    /\ contents w' = file_write c 1072 (marshal_record sample_tag 2000)
    /\ rev (trace w')
       = [Call_lseek 1072; Call_read 32; Call_lseek 17456; Call_read 32;
          Call_lseek 1072; Call_write (marshal_record sample_tag 2000)].
Proof.
  intros c s.
  set (w := mkWorld c 16 0 [] []).
  set (rd := read_records 1072 sample_junk w).
  destruct (avail_kept 16 sample_siphash ltac:(lia) table_bound sample_tag
              2000 300 s w (snd rd) 16 1023 (snd (fst (fst rd))) 2)
    as (_ & _ & Hend).
  - reflexivity.
  - apply reached_first.
  - apply le_n.
  - vm_compute. reflexivity.
  - vm_compute. reflexivity.
  - vm_compute. reflexivity.
  - destruct Hend as (ret & w' & Hrun & Hok & _);
      [vm_compute; discriminate|].
    remember (snd (store_loop 16 sample_siphash table_bound sample_tag 2000
                     300 s w)) as w2 eqn:Hw2.
    assert (E : store_loop 16 sample_siphash table_bound sample_tag 2000 300
                  s w
                = (Some 0, w2))
      by (rewrite Hw2; vm_compute; reflexivity).
    rewrite Hrun in E. injection E as -> ->.
    exists w2. split; [exact Hrun|]. split.
    + rewrite (Hok eq_refl). vm_compute. reflexivity.
    + rewrite Hw2. vm_compute. reflexivity.
Defined.

(** Storing the sample tag into a new file succeeds, having written the
    seed and one record at a slot offset. *)
Lemma store_atomic_witness :
  exists a w',
    store 16 sample_siphash sample_context sample_junk sample_tag 1000 300
      new_file = (Some 0, w')
    /\ slot_offset 16 a
    /\ contents w'
       = file_write sample_seed (Z.to_nat a) (marshal_record sample_tag 1000).
Proof.
  destruct (store_atomic 16 sample_siphash ltac:(lia) sample_context
              sample_junk sample_tag 1000 300 new_file eq_refl eq_refl)
    as (ret & w' & Hrun & _ & Hok & _).
  assert (E : store 16 sample_siphash sample_context sample_junk sample_tag
                1000 300 new_file
              = (Some 0,
                 snd (store 16 sample_siphash sample_context sample_junk
                        sample_tag 1000 300 new_file)))
    by (vm_compute; reflexivity).
  rewrite Hrun in E. injection E as ->.
  destruct (Hok eq_refl) as (a & Hslot & _ & Hc & _).
  exists a, w'. split; [exact Hrun|]. split; [exact Hslot|exact Hc].
Defined.

(** C9, as stated, fails.  On a file that holds the seed, the [write] of
    the record of the sample tag is cut short after 12 bytes: [store]
    returns EIO and the 12 bytes of the tag are in the file, at offset
    1072. *)
Lemma store_cut_short :
  let w :=
    mkWorld sample_seed 0 0 [None; None; None; None; Some (Short 12)] [] in
  let r :=
    store 16 sample_siphash sample_context sample_junk sample_tag 1000 300
      w in
  fst r = Some EIO
  /\ contents (snd r) = sample_seed ++ repeat x00 1056 ++ sample_tag
  /\ contents (snd r) <> contents (snd (store_seed 16 sample_context w)).
Proof. vm_compute. repeat split. discriminate. Qed.

(** On a file of three bytes the seed is written at offset 3. *)
Lemma seed_written_at_read_offset_witness :
  let w := mkWorld [x0a; x0b; x0c] 0 0 [] [] in
  pos (snd (read 16 w)) = 3
  /\ contents (snd (store_seed 16 sample_context w))
     = [x0a; x0b; x0c] ++ sample_seed.
Proof.
  intros w.
  destruct (seed_written_at_read_offset 16 ltac:(lia) sample_context w
              eq_refl eq_refl ltac:(cbn; lia))
    as (_ & H1 & _ & _ & _ & H2 & _).
  split; assumption.
Defined.

(** A tag of three bytes is padded with nine zero bytes, and an empty tag is
    refused without any call. *)
Lemma k5_rcfile2_store_tag_witness :
  k5_rcfile2_store 16 sample_siphash sample_context sample_junk
    (mkReplay []) new_file = (Some EINVAL, new_file)
  /\ copy_tag [x41; x42; x43] = [x41; x42; x43] ++ repeat x00 9.
Proof.
  split.
  - apply (k5_rcfile2_store_tag 16 sample_siphash sample_context sample_junk
             (mkReplay []) new_file). reflexivity.
  - destruct (k5_rcfile2_store_tag 16 sample_siphash sample_context
                sample_junk (mkReplay [x41; x42; x43]) new_file) as [_ H].
    destruct (H ltac:(discriminate)) as (_ & _ & _ & H3 & _).
    apply H3. cbn. lia.
Defined.

(** The sample tag stored at time 1000 and again at time 1200, with a skew
    of 300. *)
Lemma replay_within_skew_witness :
  let first :=
    store 16 sample_siphash sample_context sample_junk sample_tag 1000 300
      new_file in
  fst first = Some 0
  /\ fst (store 16 sample_siphash sample_context sample_junk sample_tag 1200
            300 (reopen (snd first)))
     = Some KRB5KRB_AP_ERR_REPEAT.
Proof.
  intros first.
  apply (replay_within_skew 16 sample_siphash ltac:(lia) sample_context
           sample_context sample_junk sample_junk sample_tag 1000 1200 300
           new_file (reopen (snd first))).
  - lia.
  - unfold MAX_SIZE, INT32_MAX. lia.
  - reflexivity.
  - lia.
  - lia.
  - repeat split.
  - vm_compute. repeat split.
Defined.

(** C1, as stated, fails: the sample tag stored at time 1000 and again at
    time 1000 + 300 + 1 is refused the second time. *)
Lemma expired_tag_refused :
  let first :=
    store 16 sample_siphash sample_context sample_junk sample_tag 1000 300
      new_file in
  let second :=
    store 16 sample_siphash sample_context sample_junk sample_tag
      (1000 + 300 + 1) 300 (reopen (snd first)) in
  fst first = Some 0
  /\ fst second = Some KRB5KRB_AP_ERR_REPEAT
  /\ ~ (fst first = Some 0 /\ fst second = Some 0).
Proof.
  vm_compute. repeat split. intros [_ H]. discriminate H.
Qed.

(** The sample tag stored at time 1000 and again at time 1301, with a skew
    of 300. *)
Lemma replay_after_expiry_witness :
  let first :=
    store 16 sample_siphash sample_context sample_junk sample_tag 1000 300
      new_file in
  fst first = Some 0
  /\ fst (store 16 sample_siphash sample_context sample_junk sample_tag
            (1000 + 300 + 1) 300 (reopen (snd first)))
     = Some KRB5KRB_AP_ERR_REPEAT.
Proof.
  intros first.
  apply (replay_after_expiry 16 sample_siphash ltac:(lia) sample_context
           sample_context sample_junk sample_junk sample_tag 1000 300
           new_file (reopen (snd first))).
  - lia.
  - unfold MAX_SIZE, INT32_MAX. lia.
  - reflexivity.
  - repeat split.
  - vm_compute. repeat split.
Defined.

(** * The further properties at sample inputs *)

(** With a 16-byte seed the seventeenth table is accepted and ends at
    offset 2147467264; the eighteenth is refused. *)
Lemma next_table_count_witness :
  fst (fst (table_after 16 17)) = 0
  /\ fst (fst (table_after 16 18)) = EOVERFLOW.
Proof.
  destruct (next_table_count 16 ltac:(lia) 16 ltac:(lia) ltac:(lia))
    as ([_ H1] & _).
  destruct (next_table_count 16 ltac:(lia) 17 ltac:(lia) ltac:(lia))
    as (_ & [_ H2] & _).
  split; [apply H1|apply H2]; lia.
Defined.

(** In the sample cache a whole record lies at offset 1072 and none after
    it: one record is read there, none at offset 1088. *)
Lemma read_records_count_witness :
  snd (fst (read_records 1072 sample_junk sample_cache)) = 1
  /\ rec1_tag (snd (fst (fst (read_records 1072 sample_junk sample_cache))))
     = sample_tag
  /\ snd (fst (read_records 1088 sample_junk sample_cache)) = 0.
Proof.
  destruct (read_records_count sample_cache 1072 sample_junk eq_refl)
    as (_ & _ & H1).
  destruct (H1 ltac:(lia)) as (_ & Hn & Hrec & _).
  destruct (read_records_count sample_cache 1088 sample_junk eq_refl)
    as (_ & _ & H2).
  destruct (H2 ltac:(lia)) as (_ & Hn2 & _).
  split; [rewrite Hn; reflexivity|].
  split; [|rewrite Hn2; reflexivity].
  destruct Hrec as [Ht _]; [rewrite Hn; vm_compute; discriminate|].
  rewrite Ht. reflexivity.
Defined.

(** The sample tag is refused on the sample cache reopened, and the slot at
    offset 1072 holds it. *)
Lemma store_repeat_sound_witness :
  exists a,
    slot_offset 16 a
    /\ holds_tag
         (contents
            (snd (store 16 sample_siphash sample_context sample_junk
                    sample_tag 2000 300 (reopen sample_cache))))
         a sample_tag.
Proof.
  destruct (store_repeat_sound 16 sample_siphash ltac:(lia) sample_context
              sample_junk sample_tag 2000 300 (reopen sample_cache)
              eq_refl eq_refl) as (H & _).
  - vm_compute. reflexivity.
  - exact H.
Defined.

(** The sample tag is stored into a file that already holds another tag,
    and refused when stored again an hour later. *)
Lemma store_again_repeat_witness :
  let w0 :=
    reopen (snd (store 16 sample_siphash sample_context sample_junk
                   other_tag 1000 300 new_file)) in
  let first :=
    store 16 sample_siphash sample_context sample_junk sample_tag 2000 300
      w0 in
  fst (store 16 sample_siphash sample_context sample_junk sample_tag 5600 300
         (reopen (snd first)))
  = Some KRB5KRB_AP_ERR_REPEAT.
Proof.
  intros w0 first.
  apply (store_again_repeat 16 sample_siphash ltac:(lia) sample_context
           sample_context sample_junk sample_junk sample_tag 2000 5600 300
           300 w0 (reopen (snd first))).
  - reflexivity.
  - reflexivity.
  - reflexivity.
  - right. vm_compute. discriminate.
  - vm_compute. reflexivity.
  - vm_compute. repeat split.
Defined.

(** The record of the sample tag, stored into a new file, lies below the
    maximum size. *)
Lemma store_below_max_size_witness :
  exists a,
    a <= MAX_SIZE
    /\ contents (snd (store 16 sample_siphash sample_context sample_junk
                        sample_tag 1000 300 new_file))
       = file_write sample_seed (Z.to_nat a) (marshal_record sample_tag 1000).
Proof.
  destruct (store_below_max_size 16 sample_siphash ltac:(lia) sample_context
              sample_junk sample_tag 1000 300 new_file)
    as (a & _ & Ha & _ & Hc & _).
  - reflexivity.
  - reflexivity.
  - vm_compute. reflexivity.
  - exists a. split; [exact Ha|exact Hc].
Defined.

(** The lseek of the first probe fails with errno 5 on a file that holds a
    seed: it is the second call of [store], the last one, and 5 is
    returned. *)
Lemma store_stops_at_failure_witness :
  let w := mkWorld sample_seed 0 0 [None; Some (Errno 5); None] [] in
  let r :=
    store 16 sample_siphash sample_context sample_junk sample_tag 1000 300 w in
  fst r = Some 5
  /\ trace (snd r) = [Call_lseek 1072; Call_read 16]
  /\ faults (snd r) = [None].
Proof.
  intros w r.
  destruct (store_stops_at_failure 16 sample_siphash sample_context
              sample_junk sample_tag 1000 300 w 1 5%positive [None] eq_refl)
    as [(j & _ & _ & Hf)|(_ & _ & Hr)].
  - exfalso. destruct (1 - j)%nat as [|[|n]]; vm_compute in Hf;
      discriminate Hf.
  - split; [exact Hr|]. split; reflexivity.
Defined.

(** A tag of 14 bytes is accepted into a new file; a tag that shares its
    first 12 bytes is then refused. *)
Lemma k5_rcfile2_store_replay_witness :
  let rep1 := mkReplay (sample_tag ++ [x01; x02]) in
  let rep2 := mkReplay (sample_tag ++ [x03]) in
  let first :=
    k5_rcfile2_store 16 sample_siphash sample_context sample_junk rep1
      new_file in
  fst (k5_rcfile2_store 16 sample_siphash sample_context sample_junk rep2
         (reopen (snd first)))
  = Some KRB5KRB_AP_ERR_REPEAT.
Proof.
  intros rep1 rep2 first.
  apply (k5_rcfile2_store_replay 16 sample_siphash ltac:(lia) sample_context
           sample_context sample_junk sample_junk rep1 rep2 new_file
           (reopen (snd first))).
  - discriminate.
  - reflexivity.
  - reflexivity.
  - reflexivity.
  - left. reflexivity.
  - vm_compute. reflexivity.
  - vm_compute. repeat split.
Defined.

(** The sample tag is stored at time 2000 over a record of the same slot
    that was written at time 1000 with a skew of 300. *)
Lemma store_overwrites_expired_witness :
  let w :=
    mkWorld (sample_seed ++ repeat x00 1056 ++ other_tag ++ store_32_be 1000)
      0 0 [] [] in
  exists a,
    contents (snd (store 16 sample_siphash sample_context sample_junk
                     sample_tag 2000 300 w))
    = file_write (contents w) (Z.to_nat a) (marshal_record sample_tag 2000)
    /\ (Z.of_nat (length (contents w)) < a + RECORD_LEN
        \/ ts_after 2000
             (ts_incr
                (load_32_be (file_read (contents w) (Z.to_nat (a + TAG_LEN))
                               4)) 300)
           = true).
Proof.
  intros w.
  destruct (store_overwrites_expired 16 sample_siphash ltac:(lia)
              sample_context sample_junk sample_tag 2000 300 w)
    as (a & _ & Hc & Ha).
  - reflexivity.
  - vm_compute. reflexivity.
  - exists a. split; [exact Hc|exact Ha].
Defined.

(** A second tag is stored into the file that holds the first, at a time
    later than the skew. *)
Lemma store_accepts_witness :
  let w :=
    reopen (snd (store 16 sample_siphash sample_context sample_junk
                   other_tag 1000 300 new_file)) in
  fst (store 16 sample_siphash sample_context sample_junk sample_tag 2000 300
         w)
  = Some 0.
Proof.
  intros w.
  destruct (store_accepts 16 sample_siphash ltac:(lia) sample_context
              sample_junk sample_tag 2000 300 w)
    as [[H|[H|H]] _].
  - reflexivity.
  - reflexivity.
  - reflexivity.
  - lia.
  - lia.
  - exact H.
  - exfalso. vm_compute in H. discriminate H.
  - exfalso. vm_compute in H. discriminate H.
Defined.

(** The sample tag is accepted into a cache that does not exist yet and
    refused by the next call on that name. *)
Lemma file2_store_replay_witness :
  let name := [x72; x63] in
  let p1 := mkProcess [] 0 [] [] in
  let first :=
    file2_store 16 sample_siphash sample_context sample_junk name
      (mkReplay sample_tag) p1 in
  fst (file2_store 16 sample_siphash sample_context sample_junk name
         (mkReplay sample_tag) (snd first))
  = Some KRB5KRB_AP_ERR_REPEAT.
Proof.
  intros name p1 first.
  apply (file2_store_replay 16 sample_siphash ltac:(lia) sample_context
           sample_context sample_junk sample_junk name (mkReplay sample_tag)
           (mkReplay sample_tag) p1 (snd first)).
  - discriminate.
  - reflexivity.
  - reflexivity.
  - intros c H. discriminate H.
  - vm_compute. reflexivity.
  - reflexivity.
  - vm_compute. reflexivity.
Defined.
